(** * Turbo Racer: the simulation loop of [src/App.tsx]

    A shallow embedding of the game core of the React component [App]:
    the mutable refs and the React state the loop reads and writes,
    [movePlayer], [startGame], [gameOver] and [gameLoop], and the UI
    handlers that feed them.

    Modelling conventions.
    - A TypeScript [number] that holds a coordinate, a speed or a time is
      an exact rational ([Q]); IEEE-754 rounding is not modelled.  A
      [number] that only ever holds an integer (lane, score, upgrade
      level) is a [Z].
    - [Math.random()] is an oracle: the loop receives the sequence of the
      values the calls return during one invocation, and consumes it in
      call order.
    - [localStorage] holds at most the one item ['turbo-racer-highscore'],
      kept as the integer its decimal string denotes.
    - The sound manager, the canvas drawing and the animation-frame handle
      write nothing the loop reads; the model of the loop leaves them
      out.  The sound manager is modelled on its own, in [Sound], with
      the calls the handlers make to it; of the drawing, the scroll
      offset and [roundRect].
    - Obstacles and landmarks are objects that the loop changes in
      place.  The lists of the state hold their contents; [Tracked]
      keeps beside them which object is at which place.
    - Two models of what happens to the page.  [Event] and [handle] are
      the page at rest: a click reaches a control of the overlay that
      [gameState] selects.  [Call] and [call] are the functions
      themselves, called on any screen, as a click on an overlay still
      leaving the page does; every state of the first model is one of
      the second ([reachable_called]). *)

From Stdlib Require Import String.
From Stdlib Require Import QArith ZArith List Bool Lia Lqa Qminmax Qround.
Import ListNotations.

Local Open Scope Q_scope.

(** ** Numbers *)

(** [a < b] on numbers, as a test. *)
Definition Qltb (a b : Q) : bool :=
  (Qnum a * QDen b <? Qnum b * QDen a)%Z.

(** [a % m] of JavaScript: the remainder has the sign of the dividend. *)
Definition Qtrunc (a : Q) : Z := Z.quot (Qnum a) (QDen a).
Definition Qrem (a m : Q) : Q := a - m * inject_Z (Qtrunc (a / m)).

(** [l[i]] of JavaScript: [undefined] out of range. *)
Definition index {A : Type} (l : list A) (i : Z) : option A :=
  if (i <? 0)%Z then None else nth_error l (Z.to_nat i).

(** ** Constants *)

Definition CANVAS_WIDTH : Q := 400.
Definition CANVAS_HEIGHT : Q := 600.
Definition LANE_WIDTH : Q := CANVAS_WIDTH / 3.
Definition PLAYER_WIDTH : Q := 50.
Definition PLAYER_HEIGHT : Q := 80.
Definition OBSTACLE_WIDTH : Q := 50.
Definition OBSTACLE_HEIGHT : Q := 80.
Definition INITIAL_SPEED : Q := 8.
Definition SPEED_INCREMENT : Q := 0.002.

(** ** Types *)

Inductive LandmarkType := tower | ruin | felucca | pyramid | building | temple.
Inductive Side := left | right.
Inductive ObstacleType := pottery | stall | chariot.
Inductive CarModel := classic | bmw.
Inductive Decal := none | stripes | flames | star.
Inductive GameState := START | PLAYING | GAMEOVER | GARAGE.

Definition isPlaying (g : GameState) : bool :=
  match g with PLAYING => true | _ => false end.

Module Landmark.
(** [id] is [Math.random().toString()]; the draw itself is kept. *)
Record t := mk {
  id : Q;
  x : Q;
  y : Q;
  type : option LandmarkType;
  side : Side
}.
End Landmark.

Module Track.
(** The fields the loop reads; names, descriptions and the colours of
    the renderer are left out. *)
Record t := mk {
  id : string;
  obstacleColor : string;
  initialSpeed : Q;
  speedIncrement : Q;
  landmarkTypes : list LandmarkType
}.
End Track.

Module Upgrades.
Record t := mk { engine : Z; tires : Z }.
End Upgrades.

Module CarCustomization.
Record t := mk {
  model : CarModel;
  color : string;
  decal : Decal;
  upgrades : Upgrades.t
}.
End CarCustomization.

Module GameObject.
Record t := mk {
  x : Q;
  y : Q;
  width : Q;
  height : Q;
  color : string;
  lane : Z;
  type : option ObstacleType
}.
End GameObject.

Definition TRACKS_0 : Track.t :=
  Track.mk "city" "#ef4444" 8 0.002 [tower; building].

Definition TRACKS_1 : Track.t :=
  Track.mk "desert" "#991b1b" 11 0.003 [ruin; pyramid].

Definition TRACKS_2 : Track.t :=
  Track.mk "neon" "#f472b6" 14 0.004 [felucca; temple].

Definition TRACKS : list Track.t := [TRACKS_0; TRACKS_1; TRACKS_2].

(** ** The state of the component

    The React state ([gameState], [customization], [score], [highScore],
    [speed]), the refs of the loop and the persisted item.  The selected
    track is copied into [selectedTrackRef] by an effect after every
    render; only the ref is kept.  [gameLoop] and [gameOver] read
    [customization] and [highScore] through the closure of the render in
    which the session was started; the page offers no way to change
    either while a session runs, so they read the current values. *)

Record AppState := mkApp {
  gameState : GameState;
  customization : CarCustomization.t;
  score : Z;
  highScore : Z;
  speed : Q;
  gameStateRef : GameState;
  speedRef : Q;
  scoreRef : Z;
  playerRef : GameObject.t;
  obstaclesRef : list GameObject.t;
  landmarksRef : list Landmark.t;
  roadOffsetRef : Q;
  lastTimeRef : Q;
  selectedTrackRef : Track.t;
  localStorage : option Z
}.

(** The value [setHighScore(parseInt(saved, 10))] loads on mount, [0]
    (the initial state) when the item is absent. *)
Definition savedHighScore (saved : option Z) : Z :=
  match saved with Some b => b | None => 0%Z end.

(** The component after its mount effects, over a store holding [saved]. *)
Definition initialState (saved : option Z) : AppState :=
  {| gameState := START;
     customization :=
       CarCustomization.mk classic "#3b82f6" none (Upgrades.mk 0 0);
     score := 0;
     highScore := savedHighScore saved;
     speed := INITIAL_SPEED;
     gameStateRef := START;
     speedRef := INITIAL_SPEED;
     scoreRef := 0;
     playerRef :=
       GameObject.mk (LANE_WIDTH + (LANE_WIDTH - PLAYER_WIDTH) / 2)
                     (CANVAS_HEIGHT - PLAYER_HEIGHT - 20)
                     PLAYER_WIDTH PLAYER_HEIGHT "#3b82f6" 1 None;
     obstaclesRef := [];
     landmarksRef := [];
     roadOffsetRef := 0;
     lastTimeRef := 0;
     selectedTrackRef := TRACKS_0;
     localStorage := saved |}.

(** ** [Math.random()]

    A computation that draws: it reads the oracle at a cursor and moves
    the cursor on. *)

Definition Rand (A : Type) : Type := (nat -> Q) -> nat -> A * nat.

Definition ret {A : Type} (a : A) : Rand A := fun _ k => (a, k).

Definition bind {A B : Type} (m : Rand A) (f : A -> Rand B) : Rand B :=
  fun rnd k => let (a, k') := m rnd k in f a rnd k'.

Definition random : Rand Q := fun rnd k => (rnd k, S k).

Notation "x <- m ;; f" := (bind m (fun x => f))
  (at level 61, m at next level, right associativity).

(** ** Input *)

Definition laneX (lane : Z) (w : Q) : Q :=
  inject_Z lane * LANE_WIDTH + (LANE_WIDTH - w) / 2.

Definition movePlayer (dir : Z) (s : AppState) : AppState :=
  let p := playerRef s in
  let newLane := Z.max 0 (Z.min 2 (GameObject.lane p + dir)) in
  {| gameState := gameState s;
     customization := customization s;
     score := score s;
     highScore := highScore s;
     speed := speed s;
     gameStateRef := gameStateRef s;
     speedRef := speedRef s;
     scoreRef := scoreRef s;
     playerRef :=
       GameObject.mk (laneX newLane PLAYER_WIDTH) (GameObject.y p)
                     (GameObject.width p) (GameObject.height p)
                     (GameObject.color p) newLane (GameObject.type p);
     obstaclesRef := obstaclesRef s;
     landmarksRef := landmarksRef s;
     roadOffsetRef := roadOffsetRef s;
     lastTimeRef := lastTimeRef s;
     selectedTrackRef := selectedTrackRef s;
     localStorage := localStorage s |}.

Inductive Key := ArrowLeft | KeyA | ArrowRight | KeyD | OtherKey.

Definition handleKeyDown (key : Key) (s : AppState) : AppState :=
  if negb (isPlaying (gameState s)) then s
  else match key with
       | ArrowLeft | KeyA => movePlayer (-1) s
       | ArrowRight | KeyD => movePlayer 1 s
       | OtherKey => s
       end.

(** ** Session start and end *)

(** [now] is [performance.now()]. *)
Definition startGame (now : Q) (s : AppState) : AppState :=
  let track := selectedTrackRef s in
  let engineBonus :=
    inject_Z (Upgrades.engine (CarCustomization.upgrades (customization s)))
    * 1.0 in
  let p := playerRef s in
  {| gameState := PLAYING;
     customization := customization s;
     score := 0;
     highScore := highScore s;
     speed := Track.initialSpeed track + engineBonus;
     gameStateRef := PLAYING;
     speedRef := Track.initialSpeed track + engineBonus;
     scoreRef := 0;
     playerRef :=
       GameObject.mk (LANE_WIDTH + (LANE_WIDTH - PLAYER_WIDTH) / 2)
                     (GameObject.y p) (GameObject.width p)
                     (GameObject.height p)
                     (CarCustomization.color (customization s)) 1
                     (GameObject.type p);
     obstaclesRef := [];
     landmarksRef := [];
     roadOffsetRef := roadOffsetRef s;
     lastTimeRef := now;
     selectedTrackRef := selectedTrackRef s;
     localStorage := localStorage s |}.

Definition gameOver (s : AppState) : AppState :=
  if negb (isPlaying (gameStateRef s)) then s
  else
    let finalScore := scoreRef s in
    let record := (finalScore >? highScore s)%Z in
    {| gameState := GAMEOVER;
       customization := customization s;
       score := score s;
       highScore := if record then finalScore else highScore s;
       speed := speed s;
       gameStateRef := GAMEOVER;
       speedRef := speedRef s;
       scoreRef := scoreRef s;
       playerRef := playerRef s;
       obstaclesRef := obstaclesRef s;
       landmarksRef := landmarksRef s;
       roadOffsetRef := roadOffsetRef s;
       lastTimeRef := lastTimeRef s;
       selectedTrackRef := selectedTrackRef s;
       localStorage := if record then Some finalScore else localStorage s |}.

(** ** One frame *)

Definition moveObstacle (v : Q) (obs : GameObject.t) : GameObject.t :=
  GameObject.mk (GameObject.x obs) (GameObject.y obs + v)
                (GameObject.width obs) (GameObject.height obs)
                (GameObject.color obs) (GameObject.lane obs)
                (GameObject.type obs).

Definition moveLandmark (v : Q) (lm : Landmark.t) : Landmark.t :=
  Landmark.mk (Landmark.id lm) (Landmark.x lm) (Landmark.y lm + v)
              (Landmark.type lm) (Landmark.side lm).

Definition onScreenObstacle (obs : GameObject.t) : bool :=
  Qltb (GameObject.y obs) CANVAS_HEIGHT.

Definition onScreenLandmark (lm : Landmark.t) : bool :=
  Qltb (Landmark.y lm) CANVAS_HEIGHT.

(** [l[l.length - 1]]. *)
Definition lastOf {A : Type} (l : list A) : option A :=
  nth_error l (length l - 1).

Definition obstacleTypes : list ObstacleType := [pottery; stall; chariot].

Definition newObstacle (track : Track.t) (lane : Z)
    (type : option ObstacleType) : GameObject.t :=
  GameObject.mk (laneX lane OBSTACLE_WIDTH) (- OBSTACLE_HEIGHT)
                OBSTACLE_WIDTH OBSTACLE_HEIGHT
                (Track.obstacleColor track) lane type.

(** The test of the obstacle spawn: [||] and [&&] draw only when their
    left operand lets them. *)
Definition obstacleGate (obstacles : list GameObject.t) : Rand bool :=
  if (length obstacles =? 0)%nat then ret true
  else match lastOf obstacles with
       | Some lastObs =>
           if Qltb 200 (GameObject.y lastObs)
           then r <- random ;; ret (Qltb r 0.02)
           else ret false
       | None => ret false
       end.

Definition spawnObstacles (track : Track.t) (obstacles : list GameObject.t)
    : Rand (list GameObject.t) :=
  go <- obstacleGate obstacles ;;
  if go : bool then
    r1 <- random ;;
    let lane := Qfloor (r1 * 3) in
    r2 <- random ;;
    let type :=
      index obstacleTypes
            (Qfloor (r2 * inject_Z (Z.of_nat (length obstacleTypes)))) in
    ret (obstacles ++ [newObstacle track lane type])
  else ret obstacles.

Definition landmarkGate (landmarks : list Landmark.t) : Rand bool :=
  if (length landmarks =? 0)%nat then ret true
  else match lastOf landmarks with
       | Some lastLm =>
           if Qltb 400 (Landmark.y lastLm)
           then r <- random ;; ret (Qltb r 0.01)
           else ret false
       | None => ret false
       end.

Definition spawnLandmarks (track : Track.t) (landmarks : list Landmark.t)
    : Rand (list Landmark.t) :=
  go <- landmarkGate landmarks ;;
  if go : bool then
    r1 <- random ;;
    let side := if Qltb 0.5 r1 then left else right in
    r2 <- random ;;
    let type :=
      index (Track.landmarkTypes track)
            (Qfloor (r2 * inject_Z (Z.of_nat
                                      (length (Track.landmarkTypes track))))) in
    r3 <- random ;;
    ret (landmarks ++
           [Landmark.mk r3
                        (match side with
                         | left => 20
                         | right => CANVAS_WIDTH - 80
                         end)
                        (- (200)) type side])
  else ret landmarks.

(** The test of the collision loop. *)
Definition collides (player obs : GameObject.t) : bool :=
  Qltb (GameObject.x player) (GameObject.x obs + GameObject.width obs)
  && Qltb (GameObject.x obs) (GameObject.x player + GameObject.width player)
  && Qltb (GameObject.y player) (GameObject.y obs + GameObject.height obs)
  && Qltb (GameObject.y obs) (GameObject.y player + GameObject.height player).

Definition effectiveIncrement (s : AppState) : Q :=
  let track := selectedTrackRef s in
  let tireBonus :=
    inject_Z (Upgrades.tires (CarCustomization.upgrades (customization s)))
    * 0.0002 in
  Qmax 0.0001 (Track.speedIncrement track - tireBonus).

(** [gameLoop(time)], with [rnd] the values [Math.random()] returns
    during the call.  [deltaTime] is computed and not used. *)
Definition gameLoop (time : Q) (rnd : nat -> Q) (s : AppState) : AppState :=
  if negb (isPlaying (gameStateRef s)) then s
  else
    let deltaTime := time - lastTimeRef s in
    let track := selectedTrackRef s in
    let currentSpeed := speedRef s + effectiveIncrement s in
    let roadOffset := Qrem (roadOffsetRef s + currentSpeed) 100 in
    let moved := map (moveObstacle currentSpeed) (obstaclesRef s) in
    let movedLm := map (moveLandmark currentSpeed) (landmarksRef s) in
    let kept := filter onScreenObstacle moved in
    let keptLm := filter onScreenLandmark movedLm in
    let (obstacles, k) := spawnObstacles track kept rnd O in
    let (landmarks, _) := spawnLandmarks track keptLm rnd k in
    let player := playerRef s in
    let s1 :=
      {| gameState := gameState s;
         customization := customization s;
         score := score s;
         highScore := highScore s;
         speed := speed s;
         gameStateRef := gameStateRef s;
         speedRef := currentSpeed;
         scoreRef := scoreRef s;
         playerRef := player;
         obstaclesRef := obstacles;
         landmarksRef := landmarks;
         roadOffsetRef := roadOffset;
         lastTimeRef := time;
         selectedTrackRef := selectedTrackRef s;
         localStorage := localStorage s |} in
    if existsb (collides player) obstacles then gameOver s1
    else
      let newScore := (scoreRef s + 1)%Z in
      let sync := (Z.rem newScore 10 =? 0)%Z in
      {| gameState := gameState s;
         customization := customization s;
         score := if sync then newScore else score s;
         highScore := highScore s;
         speed := if sync then currentSpeed else speed s;
         gameStateRef := gameStateRef s;
         speedRef := currentSpeed;
         scoreRef := newScore;
         playerRef := player;
         obstaclesRef := obstacles;
         landmarksRef := landmarks;
         roadOffsetRef := roadOffset;
         lastTimeRef := time;
         selectedTrackRef := selectedTrackRef s;
         localStorage := localStorage s |}.

(** ** The menu and the garage *)

Definition setGameState (g : GameState) (s : AppState) : AppState :=
  {| gameState := g;
     customization := customization s;
     score := score s;
     highScore := highScore s;
     speed := speed s;
     gameStateRef := gameStateRef s;
     speedRef := speedRef s;
     scoreRef := scoreRef s;
     playerRef := playerRef s;
     obstaclesRef := obstaclesRef s;
     landmarksRef := landmarksRef s;
     roadOffsetRef := roadOffsetRef s;
     lastTimeRef := lastTimeRef s;
     selectedTrackRef := selectedTrackRef s;
     localStorage := localStorage s |}.

Definition setCustomization (c : CarCustomization.t) (s : AppState)
    : AppState :=
  {| gameState := gameState s;
     customization := c;
     score := score s;
     highScore := highScore s;
     speed := speed s;
     gameStateRef := gameStateRef s;
     speedRef := speedRef s;
     scoreRef := scoreRef s;
     playerRef := playerRef s;
     obstaclesRef := obstaclesRef s;
     landmarksRef := landmarksRef s;
     roadOffsetRef := roadOffsetRef s;
     lastTimeRef := lastTimeRef s;
     selectedTrackRef := selectedTrackRef s;
     localStorage := localStorage s |}.

Definition handleTrackSelect (track : Track.t) (s : AppState) : AppState :=
  {| gameState := gameState s;
     customization := customization s;
     score := score s;
     highScore := highScore s;
     speed := speed s;
     gameStateRef := gameStateRef s;
     speedRef := speedRef s;
     scoreRef := scoreRef s;
     playerRef := playerRef s;
     obstaclesRef := obstaclesRef s;
     landmarksRef := landmarksRef s;
     roadOffsetRef := roadOffsetRef s;
     lastTimeRef := lastTimeRef s;
     selectedTrackRef := track;
     localStorage := localStorage s |}.

Definition handleGarageClick : AppState -> AppState := setGameState GARAGE.
Definition handleBackToStart : AppState -> AppState := setGameState START.

(** A [Partial<CarCustomization>]. *)
Record CustomizationUpdate := mkUpdate {
  u_model : option CarModel;
  u_color : option string;
  u_decal : option Decal;
  u_upgrades : option Upgrades.t
}.

Definition orElse {A : Type} (o : option A) (d : A) : A :=
  match o with Some a => a | None => d end.

Definition handleCustomizationChange (update : CustomizationUpdate)
    (s : AppState) : AppState :=
  let prev := customization s in
  setCustomization
    (CarCustomization.mk
       (orElse (u_model update) (CarCustomization.model prev))
       (orElse (u_color update) (CarCustomization.color prev))
       (orElse (u_decal update) (CarCustomization.decal prev))
       (orElse (u_upgrades update) (CarCustomization.upgrades prev)))
    s.

(** ** What can happen to the component

    One constructor per handler the rendered page offers, and [Frame] for
    the animation-frame callback.  A button acts on the screen that shows
    it; an upgrade button is disabled at level 3.  An overlay that is
    still on the page while its exit animation runs is not part of this
    model: see [Call] for the handlers called on any screen. *)

Inductive Event :=
  | ClickTrack (i : nat)
  | ClickStart (now : Q)
  | ClickGarage
  | ClickBack
  | ClickModel (m : CarModel)
  | ClickColor (c : string)
  | ClickDecal (d : Decal)
  | ClickUpgradeEngine
  | ClickUpgradeTires
  | KeyDown (key : Key)
  | Frame (time : Q) (rnd : nat -> Q).

Definition shows (g : GameState) (s : AppState) : bool :=
  match g, gameState s with
  | START, START | PLAYING, PLAYING | GAMEOVER, GAMEOVER | GARAGE, GARAGE =>
      true
  | _, _ => false
  end.

Definition handle (e : Event) (s : AppState) : AppState :=
  let up := CarCustomization.upgrades (customization s) in
  match e with
  | ClickTrack i =>
      match nth_error TRACKS i with
      | Some track => if shows START s then handleTrackSelect track s else s
      | None => s
      end
  | ClickStart now =>
      if shows START s || shows GAMEOVER s then startGame now s else s
  | ClickGarage => if shows START s then handleGarageClick s else s
  | ClickBack => if shows GARAGE s then handleBackToStart s else s
  | ClickModel m =>
      if shows GARAGE s
      then handleCustomizationChange (mkUpdate (Some m) None None None) s
      else s
  | ClickColor c =>
      if shows GARAGE s
      then handleCustomizationChange (mkUpdate None (Some c) None None) s
      else s
  | ClickDecal d =>
      if shows GARAGE s
      then handleCustomizationChange (mkUpdate None None (Some d) None) s
      else s
  | ClickUpgradeEngine =>
      if shows GARAGE s && negb (3 <=? Upgrades.engine up)%Z
      then handleCustomizationChange
             (mkUpdate None None None
                (Some (Upgrades.mk (Upgrades.engine up + 1)
                                   (Upgrades.tires up)))) s
      else s
  | ClickUpgradeTires =>
      if shows GARAGE s && negb (3 <=? Upgrades.tires up)%Z
      then handleCustomizationChange
             (mkUpdate None None None
                (Some (Upgrades.mk (Upgrades.engine up)
                                   (Upgrades.tires up + 1)))) s
      else s
  | KeyDown key => handleKeyDown key s
  | Frame time rnd => gameLoop time rnd s
  end.

Definition run (es : list Event) (s : AppState) : AppState :=
  fold_left (fun st e => handle e st) es s.

Inductive reachable : AppState -> Prop :=
  | reachable_init (saved : option Z) : reachable (initialState saved)
  | reachable_step (e : Event) (s : AppState) :
      reachable s -> reachable (handle e s).

(** ** Names for what one frame computes *)

Definition currentSpeed (s : AppState) : Q :=
  speedRef s + effectiveIncrement s.

(** The obstacles and the landmarks after motion and eviction. *)
Definition keptObstacles (s : AppState) : list GameObject.t :=
  filter onScreenObstacle (map (moveObstacle (currentSpeed s)) (obstaclesRef s)).

Definition keptLandmarks (s : AppState) : list Landmark.t :=
  filter onScreenLandmark (map (moveLandmark (currentSpeed s)) (landmarksRef s)).

(** The rectangles of the player and of an obstacle overlap. *)
Definition overlap (player obs : GameObject.t) : Prop :=
  GameObject.x player < GameObject.x obs + GameObject.width obs /\
  GameObject.x player + GameObject.width player > GameObject.x obs /\
  GameObject.y player < GameObject.y obs + GameObject.height obs /\
  GameObject.y player + GameObject.height player > GameObject.y obs.

(** The state with other landmarks, and the state without its time
    stamp. *)
Definition withLandmarks (lms : list Landmark.t) (s : AppState) : AppState :=
  {| gameState := gameState s;
     customization := customization s;
     score := score s;
     highScore := highScore s;
     speed := speed s;
     gameStateRef := gameStateRef s;
     speedRef := speedRef s;
     scoreRef := scoreRef s;
     playerRef := playerRef s;
     obstaclesRef := obstaclesRef s;
     landmarksRef := lms;
     roadOffsetRef := roadOffsetRef s;
     lastTimeRef := lastTimeRef s;
     selectedTrackRef := selectedTrackRef s;
     localStorage := localStorage s |}.

Definition withLastTime (t : Q) (s : AppState) : AppState :=
  {| gameState := gameState s;
     customization := customization s;
     score := score s;
     highScore := highScore s;
     speed := speed s;
     gameStateRef := gameStateRef s;
     speedRef := speedRef s;
     scoreRef := scoreRef s;
     playerRef := playerRef s;
     obstaclesRef := obstaclesRef s;
     landmarksRef := landmarksRef s;
     roadOffsetRef := roadOffsetRef s;
     lastTimeRef := t;
     selectedTrackRef := selectedTrackRef s;
     localStorage := localStorage s |}.

(** The obstacle a spawn appends, from the cursor [k] its test leaves. *)
Definition drawnObstacle (track : Track.t) (rnd : nat -> Q) (k : nat)
    : GameObject.t :=
  newObstacle track (Qfloor (rnd k * 3))
              (index obstacleTypes (Qfloor (rnd (S k) * 3))).

Definition drawnLandmark (track : Track.t) (rnd : nat -> Q) (k : nat)
    : Landmark.t :=
  let side := if Qltb 0.5 (rnd k) then left else right in
  Landmark.mk (rnd (S (S k)))
              (match side with left => 20 | right => CANVAS_WIDTH - 80 end)
              (- (200))
              (index (Track.landmarkTypes track)
                     (Qfloor (rnd (S k) *
                              inject_Z (Z.of_nat
                                          (length (Track.landmarkTypes track))))))
              side.

(** ** Sessions and lineage *)

(** No session starts during [es]. *)
Definition sameSession (es : list Event) : bool :=
  forallb (fun e => match e with ClickStart _ => false | _ => true end) es.



(** The list is in the order of the spawns: every obstacle is at least
    as far down the road as those after it. *)
Fixpoint spawnOrder (l : list GameObject.t) : Prop :=
  match l with
  | [] => True
  | o :: l' =>
      Forall (fun o' => GameObject.y o' <= GameObject.y o) l' /\ spawnOrder l'
  end.

(** ** Sample sessions *)

(** [Math.random()] returning [r] at every call. *)
Definition draws (r : Q) : nat -> Q := fun _ => r.

(** A session on the first track, just started. *)
Definition started : AppState := run [ClickStart 0] (initialState None).

(** The third track with the engine at level 3, the session started. *)
Definition tuned : list Event :=
  [ClickTrack 2; ClickGarage; ClickUpgradeEngine; ClickUpgradeEngine;
   ClickUpgradeEngine; ClickBack; ClickStart 0].

Definition tunedStart : AppState := run tuned (initialState None).

(** Thirty frames later: one obstacle, in lane 0, has come down to the
    height of the player, who is in lane 1. *)
Definition approach : AppState :=
  run (repeat (Frame 0 (draws 0.1)) 29) (gameLoop 0 (draws 0.1) tunedStart).

(** The player steers into lane 0, under the obstacle. *)
Definition beforeCrash : AppState := handle (KeyDown ArrowLeft) approach.

(** The player stays in lane 1 and the obstacle passes by. *)
Definition passing : AppState :=
  run (repeat (Frame 0 (draws 0.1)) 6) approach.

(** The car [tuned] leaves in the garage. *)
Definition tunedCar : CarCustomization.t :=
  CarCustomization.mk classic "#3b82f6" none (Upgrades.mk 3 0).

(** The one obstacle of the sample sessions, at height [y] in lane 0. *)
Definition cruiseObstacle (y : Q) : GameObject.t :=
  GameObject.mk (laneX 0 OBSTACLE_WIDTH) y OBSTACLE_WIDTH OBSTACLE_HEIGHT
                "#f472b6" 0 (Some pottery).

(** The sample session while the obstacle comes down: the speed is
    between 17 and [v], the obstacle between [lo] and [hi]. *)
Record Cruise (v lo hi : Q) (s : AppState) : Prop := mkCruise {
  cr_phase : gameStateRef s = PLAYING;
  cr_screen : gameState s = PLAYING;
  cr_lane : GameObject.lane (playerRef s) = 1%Z;
  cr_x :
    GameObject.x (playerRef s) = LANE_WIDTH + (LANE_WIDTH - PLAYER_WIDTH) / 2;
  cr_y : GameObject.y (playerRef s) = CANVAS_HEIGHT - PLAYER_HEIGHT - 20;
  cr_width : GameObject.width (playerRef s) = PLAYER_WIDTH;
  cr_height : GameObject.height (playerRef s) = PLAYER_HEIGHT;
  cr_track : selectedTrackRef s = TRACKS_2;
  cr_car : customization s = tunedCar;
  cr_speed : 17 <= speedRef s <= v;
  cr_obstacle : exists y, obstaclesRef s = [cruiseObstacle y] /\ lo <= y <= hi
}.

(** The same session with its first landmark, between [llo] and
    [lhi]. *)
Record CruiseL (v lo hi llo lhi : Q) (s : AppState) : Prop := mkCruiseL {
  cl_cruise : Cruise v lo hi s;
  cl_landmark :
    exists lm, landmarksRef s = [lm] /\ llo <= Landmark.y lm <= lhi
}.

(** Thirty-seven frames after the start: the first landmark has come
    down past [y = 400]. *)
Definition clearing : AppState :=
  run (repeat (Frame 0 (draws 0.1)) 36) (gameLoop 0 (draws 0.1) tunedStart).

(** ** Which object is which

    The entities are JavaScript objects.  The loop moves them in place
    ([forEach(obs => { obs.y += currentSpeed })]), [filter] returns a
    new array of the same objects, [push({...})] adds a newly created
    object at the end, and [startGame] replaces both arrays by empty
    ones.  The lists of the state hold the contents of the objects;
    [Tracked] keeps beside them which object is at which place, an
    object being named by its serial number: the number of obstacles,
    or of landmarks, created before it. *)
Record Tracked := mkTracked {
  st : AppState;
  obstacleIds : list nat;
  landmarkIds : list nat;
  obstaclesMade : nat;
  landmarksMade : nat
}.


(** The objects [filter] keeps: those whose moved contents pass the
    test. *)
Definition keepIds {A : Type} (onScreen : A -> bool) (ids : list nat)
    (moved : list A) : list nat :=
  map fst (filter (fun p => onScreen (snd p)) (combine ids moved)).

Definition track (e : Event) (t : Tracked) : Tracked :=
  let s := st t in
  match e with
  | Frame time rnd =>
      if negb (isPlaying (gameStateRef s)) then t
      else
        let v := currentSpeed s in
        let oIds :=
          keepIds onScreenObstacle (obstacleIds t)
                  (map (moveObstacle v) (obstaclesRef s)) in
        let lIds :=
          keepIds onScreenLandmark (landmarkIds t)
                  (map (moveLandmark v) (landmarksRef s)) in
        let oGate := fst (obstacleGate (keptObstacles s) rnd O) in
        let k :=
          snd (spawnObstacles (selectedTrackRef s) (keptObstacles s) rnd O) in
        let lGate := fst (landmarkGate (keptLandmarks s) rnd k) in
        mkTracked (gameLoop time rnd s)
                  (if oGate then oIds ++ [obstaclesMade t] else oIds)
                  (if lGate then lIds ++ [landmarksMade t] else lIds)
                  (if oGate then S (obstaclesMade t) else obstaclesMade t)
                  (if lGate then S (landmarksMade t) else landmarksMade t)
  | ClickStart now =>
      if shows START s || shows GAMEOVER s
      then mkTracked (startGame now s) [] []
                     (obstaclesMade t) (landmarksMade t)
      else t
  | _ =>
      mkTracked (handle e s) (obstacleIds t) (landmarkIds t)
                (obstaclesMade t) (landmarksMade t)
  end.









(** ** Invariants of the reachable states *)

Record Inv (s : AppState) : Prop := mkInv {
  inv_lane : (0 <= GameObject.lane (playerRef s) <= 2)%Z;
  inv_track : In (selectedTrackRef s) TRACKS;
  inv_engine :
    (0 <= Upgrades.engine (CarCustomization.upgrades (customization s)) <= 3)%Z;
  inv_tires :
    (0 <= Upgrades.tires (CarCustomization.upgrades (customization s)) <= 3)%Z;
  inv_speed : 0 < speedRef s;
  inv_obstacles :
    Forall (fun o => GameObject.y o < CANVAS_HEIGHT) (obstaclesRef s);
  inv_landmarks :
    Forall (fun lm => Landmark.y lm < CANVAS_HEIGHT) (landmarksRef s);
  inv_best : highScore s = savedHighScore (localStorage s);
  inv_phase : isPlaying (gameState s) = isPlaying (gameStateRef s)
}.

(** ** What the page shows *)

(** The "new record" line of the game-over overlay:
    [score >= highScore && score > 0], on the React state [score]. *)
Definition newRecordBadge (s : AppState) : bool :=
  (score s >=? highScore s)%Z && (score s >? 0)%Z.

(** The offset of the background image in [draw]. *)
Definition scrollY (s : AppState) : Q :=
  Qrem (roadOffsetRef s * 6) CANVAS_HEIGHT.



(** ** More invariants of the reachable states *)

(** The React state [gameState] against the ref the loop tests. *)
Definition phaseOK (s : AppState) : Prop :=
  match gameState s, gameStateRef s with
  | START, START | GARAGE, START | PLAYING, PLAYING | GAMEOVER, GAMEOVER =>
      True
  | _, _ => False
  end.

Definition playerShape (p : GameObject.t) : Prop :=
  GameObject.x p == laneX (GameObject.lane p) PLAYER_WIDTH /\
  GameObject.y p = CANVAS_HEIGHT - PLAYER_HEIGHT - 20 /\
  GameObject.width p = PLAYER_WIDTH /\
  GameObject.height p = PLAYER_HEIGHT.

Definition obstacleShape (o : GameObject.t) : Prop :=
  GameObject.x o = laneX (GameObject.lane o) OBSTACLE_WIDTH /\
  GameObject.width o = OBSTACLE_WIDTH /\
  GameObject.height o = OBSTACLE_HEIGHT /\
  - OBSTACLE_HEIGHT <= GameObject.y o.

Definition landmarkShape (lm : Landmark.t) : Prop :=
  Landmark.x lm =
    match Landmark.side lm with left => 20 | right => CANVAS_WIDTH - 80 end /\
  - (200) <= Landmark.y lm.

(** Every element is more than [d] further down than those after it. *)
Fixpoint spacedBy {A : Type} (y : A -> Q) (d : Q) (l : list A) : Prop :=
  match l with
  | [] => True
  | a :: r => Forall (fun b => y b + d < y a) r /\ spacedBy y d r
  end.

Record Inv2 (s : AppState) : Prop := mkInv2 {
  i2_phase : phaseOK s;
  i2_speed : 8 <= speedRef s;
  i2_road : 0 <= roadOffsetRef s < 100;
  i2_scoreRef : (0 <= scoreRef s)%Z;
  i2_score : score s = (10 * (scoreRef s / 10))%Z;
  i2_over : gameStateRef s = GAMEOVER -> (scoreRef s <= highScore s)%Z;
  i2_player : playerShape (playerRef s);
  i2_obstacles : Forall obstacleShape (obstaclesRef s);
  i2_landmarks : Forall landmarkShape (landmarksRef s);
  i2_gapO : spacedBy GameObject.y 280 (obstaclesRef s);
  i2_gapL : spacedBy Landmark.y 600 (landmarksRef s)
}.

(** The sample session after the crash. *)
Definition crashed : AppState := gameLoop 0 (draws 0.1) beforeCrash.

(** Frames only. *)
Definition framesOf (fs : list (Q * (nat -> Q))) : list Event :=
  map (fun f => Frame (fst f) (snd f)) fs.

(** ** Sound *)

(** [SoundManager].  The audio context is outside the program: the model
    keeps the four fields of the class and the list of what has been
    sent to the context.  An engine oscillator and its gain node are
    named by the number of engines created before them; the samples of
    the noise buffer are not modelled. *)
Module Sound.

Inductive Out :=
  | newContext
  | click                                   (* playClick: the sweep, started *)
  | crash                                   (* playCollision: the burst, started *)
  | engineStart (node : nat)                (* engineOsc.start(), gain to 0.05 *)
  | engineStop (node : nat)                 (* engineOsc.stop() *)
  | engineFrequency (node : nat) (freq : Q) (* frequency.setTargetAtTime *)
  | engineMute (node : nat).                (* gain.setTargetAtTime(0, ...) *)

Record t := mk {
  ctx : bool;
  engineOsc : option nat;
  engineGain : option nat;
  isMuted : bool;
  created : nat;
  out : list Out
}.

Definition fresh : t := mk false None None false O [].

Definition emit (o : Out) (s : t) : t :=
  mk (ctx s) (engineOsc s) (engineGain s) (isMuted s) (created s)
     (out s ++ [o]).

Definition init (s : t) : t :=
  if negb (ctx s)
  then mk true (engineOsc s) (engineGain s) (isMuted s) (created s)
          (out s ++ [newContext])
  else s.

Definition setMute (mute : bool) (s : t) : t :=
  let s1 :=
    mk (ctx s) (engineOsc s) (engineGain s) mute (created s) (out s) in
  if mute
  then match engineGain s1 with
       | Some g => emit (engineMute g) s1
       | None => s1
       end
  else s1.

Definition playClick (s : t) : t :=
  if negb (ctx s) || isMuted s then s else emit click s.

Definition playCollision (s : t) : t :=
  if negb (ctx s) || isMuted s then s else emit crash s.

Definition stopEngine (s : t) : t :=
  match engineOsc s with
  | Some n =>
      mk (ctx s) None (engineGain s) (isMuted s) (created s)
         (out s ++ [engineStop n])
  | None => s
  end.

Definition startEngine (s : t) : t :=
  if negb (ctx s) || isMuted s then s
  else
    let s1 := stopEngine s in
    let n := created s1 in
    mk (ctx s1) (Some n) (Some n) (isMuted s1) (S n)
       (out s1 ++ [engineStart n]).

Definition updateEngine (speed : Q) (s : t) : t :=
  if negb (ctx s) then s
  else match engineOsc s with
       | None => s
       | Some n =>
           if isMuted s then s
           else emit (engineFrequency n (50 + speed * 10)) s
       end.

(** The engine oscillators started and not stopped, from the list of
    what was sent. *)
Definition playing (os : list Out) : list nat :=
  fold_left
    (fun live o =>
       match o with
       | engineStart n => live ++ [n]
       | engineStop n => filter (fun m => negb (m =? n)%nat) live
       | _ => live
       end)
    os [].

(** The last target given to the gain of engine [n]. *)
Definition gainTarget (n : nat) (os : list Out) : option Q :=
  fold_left
    (fun g o =>
       match o with
       | engineStart m => if (m =? n)%nat then Some 0.05 else g
       | engineMute m => if (m =? n)%nat then Some 0 else g
       | _ => g
       end)
    os None.

(** What makes a sound, or changes one. *)
Definition audible (o : Out) : bool :=
  match o with
  | click | crash | engineStart _ | engineFrequency _ _ => true
  | newContext | engineStop _ | engineMute _ => false
  end.

End Sound.

(** The page: the game, the React state [isMuted] and the sound
    manager. *)
Record Page := mkPage {
  game : AppState;
  isMuted : bool;
  sounds : Sound.t
}.

Definition initialPage (saved : option Z) : Page :=
  mkPage (initialState saved) false Sound.fresh.

Definition toggleMute (p : Page) : Page :=
  let newMute := negb (isMuted p) in
  mkPage (game p) newMute (Sound.setMute newMute (sounds p)).

(** The calls of [gameLoop], and of [gameOver] in it, to the sound
    manager. *)
Definition gameLoopSounds (rnd : nat -> Q) (s : AppState) (m : Sound.t)
    : Sound.t :=
  if negb (isPlaying (gameStateRef s)) then m
  else
    let m1 := Sound.updateEngine (currentSpeed s) m in
    let obstacles :=
      fst (spawnObstacles (selectedTrackRef s) (keptObstacles s) rnd O) in
    if existsb (collides (playerRef s)) obstacles
    then Sound.playCollision (Sound.stopEngine m1)
    else m1.

(** A call of one of the component's functions.  The handlers test
    nothing but what is written in them, and an overlay that is leaving
    the page still takes clicks while its exit animation runs, so a call
    is possible on any screen: [call] has no guard of its own, and a
    customization handler may come with any update. *)
Inductive Call :=
  | callStartGame (now : Q)
  | callGameLoop (time : Q) (rnd : nat -> Q)
  | callKeyDown (key : Key)
  | callTrackSelect (track : Track.t)
  | callGarageClick
  | callBackToStart
  | callCustomizationChange (update : CustomizationUpdate)
  | callToggleMute.

Definition call (c : Call) (p : Page) : Page :=
  let s := game p in
  let m := sounds p in
  match c with
  | callStartGame now =>
      mkPage (startGame now s) (isMuted p) (Sound.startEngine (Sound.init m))
  | callGameLoop time rnd =>
      mkPage (gameLoop time rnd s) (isMuted p) (gameLoopSounds rnd s m)
  | callKeyDown key => mkPage (handleKeyDown key s) (isMuted p) m
  | callTrackSelect track =>
      mkPage (handleTrackSelect track s) (isMuted p) (Sound.playClick m)
  | callGarageClick =>
      mkPage (handleGarageClick s) (isMuted p) (Sound.playClick m)
  | callBackToStart =>
      mkPage (handleBackToStart s) (isMuted p) (Sound.playClick m)
  | callCustomizationChange update =>
      mkPage (handleCustomizationChange update s) (isMuted p)
             (Sound.playClick m)
  | callToggleMute => toggleMute p
  end.

Definition calls (cs : list Call) (p : Page) : Page :=
  fold_left (fun st c => call c st) cs p.

(** The pages that calls can produce. *)
Inductive called : Page -> Prop :=
  | called_init (saved : option Z) : called (initialPage saved)
  | called_step (c : Call) (p : Page) : called p -> called (call c p).

(** The calls an event of the page makes: one, or none. *)
Definition callsOf (e : Event) (s : AppState) : list Call :=
  let up := CarCustomization.upgrades (customization s) in
  match e with
  | ClickTrack i =>
      match nth_error TRACKS i with
      | Some track => if shows START s then [callTrackSelect track] else []
      | None => []
      end
  | ClickStart now =>
      if shows START s || shows GAMEOVER s then [callStartGame now] else []
  | ClickGarage => if shows START s then [callGarageClick] else []
  | ClickBack => if shows GARAGE s then [callBackToStart] else []
  | ClickModel m =>
      if shows GARAGE s
      then [callCustomizationChange (mkUpdate (Some m) None None None)]
      else []
  | ClickColor c =>
      if shows GARAGE s
      then [callCustomizationChange (mkUpdate None (Some c) None None)]
      else []
  | ClickDecal d =>
      if shows GARAGE s
      then [callCustomizationChange (mkUpdate None None (Some d) None)]
      else []
  | ClickUpgradeEngine =>
      if shows GARAGE s && negb (3 <=? Upgrades.engine up)%Z
      then [callCustomizationChange
              (mkUpdate None None None
                 (Some (Upgrades.mk (Upgrades.engine up + 1)
                                    (Upgrades.tires up))))]
      else []
  | ClickUpgradeTires =>
      if shows GARAGE s && negb (3 <=? Upgrades.tires up)%Z
      then [callCustomizationChange
              (mkUpdate None None None
                 (Some (Upgrades.mk (Upgrades.engine up)
                                    (Upgrades.tires up + 1))))]
      else []
  | KeyDown key => [callKeyDown key]
  | Frame time rnd => [callGameLoop time rnd]
  end.

(** No session starts during [cs]. *)
Definition noStart (cs : list Call) : bool :=
  forallb (fun c => match c with callStartGame _ => false | _ => true end) cs.

(** The garage is opened from the start overlay just after the start:
    the road runs behind the garage. *)
Definition garageDuringPlay : Page :=
  calls [callStartGame 0; callGarageClick] (initialPage None).

(** What ties the sound manager to the game. *)
Record SoundInv (p : Page) : Prop := mkSoundInv {
  si_muted : Sound.isMuted (sounds p) = isMuted p;
  si_playing :
    Sound.playing (Sound.out (sounds p))
      = match Sound.engineOsc (sounds p) with Some n => [n] | None => [] end;
  si_phase :
    Sound.engineOsc (sounds p) <> None -> gameStateRef (game p) = PLAYING;
  si_ctx : Sound.engineOsc (sounds p) <> None -> Sound.ctx (sounds p) = true;
  si_gain :
    forall n, Sound.engineOsc (sounds p) = Some n ->
              Sound.engineGain (sounds p) = Some n;
  si_created :
    forall n, Sound.engineGain (sounds p) = Some n ->
              (n < Sound.created (sounds p))%nat
}.

(** Unfolds the fields of a page built by a handler. *)
Ltac sound_fields :=
  cbn [game isMuted sounds Sound.emit Sound.isMuted Sound.out
       Sound.engineOsc Sound.ctx Sound.engineGain Sound.created] in *.

(** ** Basic facts *)

Lemma Qltb_lt (a b : Q) : Qltb a b = true <-> a < b.
Proof. unfold Qltb, Qlt. apply Z.ltb_lt. Qed.

Lemma Qltb_ge (a b : Q) : Qltb a b = false <-> b <= a.
Proof. unfold Qltb, Qle. apply Z.ltb_ge. Qed.

Lemma isPlaying_true (g : GameState) : isPlaying g = true <-> g = PLAYING.
Proof. destruct g; simpl; split; congruence. Qed.

Lemma isPlaying_false (g : GameState) : isPlaying g = false <-> g <> PLAYING.
Proof. destruct g; simpl; split; congruence. Qed.

Lemma collides_overlap (player obs : GameObject.t) :
  collides player obs = true <-> overlap player obs.
Proof.
  unfold collides, overlap.
  rewrite !andb_true_iff, !Qltb_lt. tauto.
Qed.

Lemma effectiveIncrement_pos (s : AppState) : 0 < effectiveIncrement s.
Proof.
  unfold effectiveIncrement.
  apply Qlt_le_trans with (y := 0.0001); [reflexivity | apply Q.le_max_l].
Qed.

Lemma currentSpeed_gt (s : AppState) : speedRef s < currentSpeed s.
Proof.
  unfold currentSpeed. pose proof (effectiveIncrement_pos s). lra.
Qed.

(** The frame, stage by stage, when the session is running. *)
Lemma gameLoop_running (time : Q) (rnd : nat -> Q) (s : AppState) :
  gameStateRef s = PLAYING ->
  gameLoop time rnd s =
    let spawned := spawnObstacles (selectedTrackRef s) (keptObstacles s) rnd O in
    let obstacles := fst spawned in
    let landmarks :=
      fst (spawnLandmarks (selectedTrackRef s) (keptLandmarks s) rnd
             (snd spawned)) in
    let s1 :=
      {| gameState := gameState s;
         customization := customization s;
         score := score s;
         highScore := highScore s;
         speed := speed s;
         gameStateRef := PLAYING;
         speedRef := currentSpeed s;
         scoreRef := scoreRef s;
         playerRef := playerRef s;
         obstaclesRef := obstacles;
         landmarksRef := landmarks;
         roadOffsetRef := Qrem (roadOffsetRef s + currentSpeed s) 100;
         lastTimeRef := time;
         selectedTrackRef := selectedTrackRef s;
         localStorage := localStorage s |} in
    if existsb (collides (playerRef s)) obstacles then gameOver s1
    else
      let sync := (Z.rem (scoreRef s + 1) 10 =? 0)%Z in
      {| gameState := gameState s;
         customization := customization s;
         score := if sync then (scoreRef s + 1)%Z else score s;
         highScore := highScore s;
         speed := if sync then currentSpeed s else speed s;
         gameStateRef := PLAYING;
         speedRef := currentSpeed s;
         scoreRef := (scoreRef s + 1)%Z;
         playerRef := playerRef s;
         obstaclesRef := obstacles;
         landmarksRef := landmarks;
         roadOffsetRef := Qrem (roadOffsetRef s + currentSpeed s) 100;
         lastTimeRef := time;
         selectedTrackRef := selectedTrackRef s;
         localStorage := localStorage s |}.
Proof.
  intros Hrun. unfold gameLoop. rewrite Hrun. cbn [isPlaying negb].
  fold (currentSpeed s). fold (keptObstacles s). fold (keptLandmarks s).
  destruct (spawnObstacles (selectedTrackRef s) (keptObstacles s) rnd O)
    as [obstacles k].
  cbn [fst snd].
  destruct (spawnLandmarks (selectedTrackRef s) (keptLandmarks s) rnd k)
    as [landmarks k'].
  reflexivity.
Qed.

Lemma gameLoop_idle (time : Q) (rnd : nat -> Q) (s : AppState) :
  gameStateRef s <> PLAYING -> gameLoop time rnd s = s.
Proof.
  intros Hidle. unfold gameLoop.
  apply isPlaying_false in Hidle. rewrite Hidle. reflexivity.
Qed.

(** ** The spawners *)

Lemma obstacleGate_empty (rnd : nat -> Q) (k : nat) :
  obstacleGate [] rnd k = (true, k).
Proof. reflexivity. Qed.

Lemma lastOf_nonempty {A : Type} (l : list A) :
  l <> [] -> exists a, lastOf l = Some a.
Proof.
  intros Hne. unfold lastOf.
  destruct (nth_error l (length l - 1)) as [a|] eqn:E; [eauto|].
  apply nth_error_None in E.
  destruct l as [|a l]; [congruence | simpl in E; lia].
Qed.

Lemma lastOf_app {A : Type} (l : list A) (a : A) : lastOf (l ++ [a]) = Some a.
Proof.
  unfold lastOf. rewrite length_app. simpl.
  replace (length l + 1 - 1)%nat with (length l) by lia.
  rewrite nth_error_app2 by lia.
  replace (length l - length l)%nat with O by lia. reflexivity.
Qed.

Lemma lastOf_In {A : Type} (l : list A) (a : A) : lastOf l = Some a -> In a l.
Proof. unfold lastOf. apply nth_error_In. Qed.

Lemma lastOf_snoc {A : Type} (l : list A) (a : A) :
  lastOf l = Some a <-> exists front, l = front ++ [a].
Proof.
  split.
  - intros Hlast.
    destruct (exists_last (l := l)) as (front & b & ->).
    { intros ->. discriminate Hlast. }
    rewrite lastOf_app in Hlast. injection Hlast as ->. eauto.
  - intros (front & ->). apply lastOf_app.
Qed.

Lemma obstacleGate_nonempty (obstacles : list GameObject.t)
    (lastObs : GameObject.t) (rnd : nat -> Q) (k : nat) :
  lastOf obstacles = Some lastObs ->
  obstacleGate obstacles rnd k =
    if Qltb 200 (GameObject.y lastObs)
    then (Qltb (rnd k) 0.02, S k) else (false, k).
Proof.
  intros Hlast. unfold obstacleGate.
  destruct obstacles as [|o l]; [discriminate|].
  cbn [length Nat.eqb]. rewrite Hlast.
  destruct (Qltb 200 (GameObject.y lastObs)); reflexivity.
Qed.

Lemma landmarkGate_nonempty (landmarks : list Landmark.t)
    (lastLm : Landmark.t) (rnd : nat -> Q) (k : nat) :
  lastOf landmarks = Some lastLm ->
  landmarkGate landmarks rnd k =
    if Qltb 400 (Landmark.y lastLm)
    then (Qltb (rnd k) 0.01, S k) else (false, k).
Proof.
  intros Hlast. unfold landmarkGate.
  destruct landmarks as [|o l]; [discriminate|].
  cbn [length Nat.eqb]. rewrite Hlast.
  destruct (Qltb 400 (Landmark.y lastLm)); reflexivity.
Qed.

Lemma spawnObstacles_gate (track : Track.t) (obstacles : list GameObject.t)
    (rnd : nat -> Q) (k : nat) :
  spawnObstacles track obstacles rnd k =
    let gate := obstacleGate obstacles rnd k in
    if fst gate
    then (obstacles ++ [drawnObstacle track rnd (snd gate)], S (S (snd gate)))
    else (obstacles, snd gate).
Proof.
  unfold spawnObstacles, bind.
  destruct (obstacleGate obstacles rnd k) as [[|] k']; reflexivity.
Qed.

Lemma spawnLandmarks_gate (track : Track.t) (landmarks : list Landmark.t)
    (rnd : nat -> Q) (k : nat) :
  spawnLandmarks track landmarks rnd k =
    let gate := landmarkGate landmarks rnd k in
    if fst gate
    then (landmarks ++ [drawnLandmark track rnd (snd gate)],
          S (S (S (snd gate))))
    else (landmarks, snd gate).
Proof.
  unfold spawnLandmarks, bind.
  destruct (landmarkGate landmarks rnd k) as [[|] k']; reflexivity.
Qed.

Lemma spawnObstacles_In (track : Track.t) (obstacles : list GameObject.t)
    (rnd : nat -> Q) (k : nat) (o : GameObject.t) :
  In o (fst (spawnObstacles track obstacles rnd k)) ->
  In o obstacles \/
  exists lane type, o = newObstacle track lane type.
Proof.
  rewrite spawnObstacles_gate. cbv zeta.
  destruct (fst (obstacleGate obstacles rnd k)); cbn [fst]; [|tauto].
  rewrite in_app_iff. intros [Hin | [Heq | []]]; [tauto|].
  right. unfold drawnObstacle in Heq. eauto.
Qed.

Lemma spawnObstacles_incl (track : Track.t) (obstacles : list GameObject.t)
    (rnd : nat -> Q) (k : nat) (o : GameObject.t) :
  In o obstacles -> In o (fst (spawnObstacles track obstacles rnd k)).
Proof.
  rewrite spawnObstacles_gate. cbv zeta.
  destruct (fst (obstacleGate obstacles rnd k)); cbn [fst]; [|tauto].
  rewrite in_app_iff. tauto.
Qed.

Lemma spawnLandmarks_In (track : Track.t) (landmarks : list Landmark.t)
    (rnd : nat -> Q) (k : nat) (lm : Landmark.t) :
  In lm (fst (spawnLandmarks track landmarks rnd k)) ->
  In lm landmarks \/
  exists id x type side, lm = Landmark.mk id x (- (200)) type side.
Proof.
  rewrite spawnLandmarks_gate. cbv zeta.
  destruct (fst (landmarkGate landmarks rnd k)); cbn [fst]; [|tauto].
  rewrite in_app_iff. intros [Hin | [Heq | []]]; [tauto|].
  right. unfold drawnLandmark in Heq. cbv zeta in Heq. eauto.
Qed.

Lemma spawnLandmarks_incl (track : Track.t) (landmarks : list Landmark.t)
    (rnd : nat -> Q) (k : nat) (lm : Landmark.t) :
  In lm landmarks -> In lm (fst (spawnLandmarks track landmarks rnd k)).
Proof.
  rewrite spawnLandmarks_gate. cbv zeta.
  destruct (fst (landmarkGate landmarks rnd k)); cbn [fst]; [|tauto].
  rewrite in_app_iff. tauto.
Qed.

(** What a running frame leaves in the refs. *)
Lemma gameLoop_obstacles (time : Q) (rnd : nat -> Q) (s : AppState) :
  gameStateRef s = PLAYING ->
  obstaclesRef (gameLoop time rnd s) =
    fst (spawnObstacles (selectedTrackRef s) (keptObstacles s) rnd O).
Proof.
  intros Hrun. rewrite (gameLoop_running time rnd s Hrun). cbv zeta.
  destruct (existsb _ _); [unfold gameOver|]; reflexivity.
Qed.

Lemma gameLoop_landmarks (time : Q) (rnd : nat -> Q) (s : AppState) :
  gameStateRef s = PLAYING ->
  landmarksRef (gameLoop time rnd s) =
    fst (spawnLandmarks (selectedTrackRef s) (keptLandmarks s) rnd
           (snd (spawnObstacles (selectedTrackRef s) (keptObstacles s)
                   rnd O))).
Proof.
  intros Hrun. rewrite (gameLoop_running time rnd s Hrun). cbv zeta.
  destruct (existsb _ _); [unfold gameOver|]; reflexivity.
Qed.

Lemma gameLoop_speed (time : Q) (rnd : nat -> Q) (s : AppState) :
  gameStateRef s = PLAYING ->
  speedRef (gameLoop time rnd s) = currentSpeed s.
Proof.
  intros Hrun. rewrite (gameLoop_running time rnd s Hrun). cbv zeta.
  destruct (existsb _ _); [unfold gameOver|]; reflexivity.
Qed.

Lemma gameLoop_player (time : Q) (rnd : nat -> Q) (s : AppState) :
  playerRef (gameLoop time rnd s) = playerRef s.
Proof.
  destruct (gameStateRef s) eqn:Hg;
    try (rewrite gameLoop_idle by congruence; reflexivity).
  rewrite (gameLoop_running time rnd s Hg). cbv zeta.
  destruct (existsb _ _); [unfold gameOver|]; reflexivity.
Qed.

(** ** The invariants hold *)

Lemma keptObstacles_below (s : AppState) :
  Forall (fun o => GameObject.y o < CANVAS_HEIGHT) (keptObstacles s).
Proof.
  apply Forall_forall. intros o Hin.
  apply filter_In in Hin. destruct Hin as [_ Hon].
  apply Qltb_lt in Hon. exact Hon.
Qed.

Lemma keptLandmarks_below (s : AppState) :
  Forall (fun lm => Landmark.y lm < CANVAS_HEIGHT) (keptLandmarks s).
Proof.
  apply Forall_forall. intros lm Hin.
  apply filter_In in Hin. destruct Hin as [_ Hon].
  apply Qltb_lt in Hon. exact Hon.
Qed.

Lemma spawnObstacles_below (track : Track.t) (obstacles : list GameObject.t)
    (rnd : nat -> Q) (k : nat) :
  Forall (fun o => GameObject.y o < CANVAS_HEIGHT) obstacles ->
  Forall (fun o => GameObject.y o < CANVAS_HEIGHT)
         (fst (spawnObstacles track obstacles rnd k)).
Proof.
  intros Hall. apply Forall_forall. intros o Hin.
  apply spawnObstacles_In in Hin.
  destruct Hin as [Hin | (lane & type & ->)].
  - rewrite Forall_forall in Hall. auto.
  - reflexivity.
Qed.

Lemma spawnLandmarks_below (track : Track.t) (landmarks : list Landmark.t)
    (rnd : nat -> Q) (k : nat) :
  Forall (fun lm => Landmark.y lm < CANVAS_HEIGHT) landmarks ->
  Forall (fun lm => Landmark.y lm < CANVAS_HEIGHT)
         (fst (spawnLandmarks track landmarks rnd k)).
Proof.
  intros Hall. apply Forall_forall. intros lm Hin.
  apply spawnLandmarks_In in Hin.
  destruct Hin as [Hin | (id & x & type & side & ->)].
  - rewrite Forall_forall in Hall. auto.
  - reflexivity.
Qed.

Lemma track_initialSpeed_pos (track : Track.t) :
  In track TRACKS -> 0 < Track.initialSpeed track.
Proof.
  intros [<- | [<- | [<- | []]]]; reflexivity.
Qed.

Lemma Inv_initial (saved : option Z) : Inv (initialState saved).
Proof.
  constructor; cbn; try lia; try reflexivity; auto.
Qed.

Lemma Inv_movePlayer (dir : Z) (s : AppState) : Inv s -> Inv (movePlayer dir s).
Proof.
  intros [Hl Ht He Hti Hs Ho Hlm Hb Hp].
  constructor; cbn [movePlayer playerRef GameObject.lane selectedTrackRef
    customization speedRef obstaclesRef landmarksRef highScore localStorage
    gameState gameStateRef]; auto; lia.
Qed.

Lemma Inv_startGame (now : Q) (s : AppState) : Inv s -> Inv (startGame now s).
Proof.
  intros [Hl Ht He Hti Hs Ho Hlm Hb Hp].
  constructor; cbn [startGame playerRef GameObject.lane selectedTrackRef
    customization speedRef obstaclesRef landmarksRef highScore localStorage
    gameState gameStateRef]; auto; try lia.
  pose proof (track_initialSpeed_pos _ Ht) as Hpos.
  assert (0 <= inject_Z
                 (Upgrades.engine (CarCustomization.upgrades (customization s))))
    as Hinj.
  { change 0 with (inject_Z 0). rewrite <- Zle_Qle. lia. }
  nra.
Qed.

Lemma Inv_gameLoop (time : Q) (rnd : nat -> Q) (s : AppState) :
  Inv s -> Inv (gameLoop time rnd s).
Proof.
  intros HI.
  destruct (gameStateRef s) eqn:Hg;
    try (rewrite gameLoop_idle by congruence; exact HI).
  destruct HI as [Hl Ht He Hti Hs Ho Hlm Hb Hp].
  assert (0 < currentSpeed s) as Hcs.
  { pose proof (currentSpeed_gt s). lra. }
  pose proof (spawnObstacles_below (selectedTrackRef s) _ rnd O
                (keptObstacles_below s)) as Hobs.
  pose proof (spawnLandmarks_below (selectedTrackRef s) _ rnd
                (snd (spawnObstacles (selectedTrackRef s) (keptObstacles s)
                        rnd O))
                (keptLandmarks_below s)) as Hlms.
  rewrite (gameLoop_running time rnd s Hg). cbv zeta.
  destruct (existsb _ _).
  - unfold gameOver.
    cbn [gameStateRef isPlaying negb scoreRef highScore localStorage].
    constructor; cbn [playerRef selectedTrackRef customization speedRef
      obstaclesRef landmarksRef highScore localStorage gameState
      gameStateRef]; auto.
    destruct (scoreRef s >? highScore s)%Z; [reflexivity | exact Hb].
  - constructor; cbn [playerRef selectedTrackRef customization speedRef
      obstaclesRef landmarksRef highScore localStorage gameState
      gameStateRef]; auto.
    rewrite Hp, Hg. reflexivity.
Qed.

Lemma Inv_handle (e : Event) (s : AppState) : Inv s -> Inv (handle e s).
Proof.
  intros HI. destruct e; cbn [handle].
  - destruct (nth_error TRACKS i) as [track|] eqn:Hnth; [|exact HI].
    destruct (shows START s); [|exact HI].
    apply nth_error_In in Hnth.
    destruct HI as [Hl Ht He Hti Hs Ho Hlm Hb Hp].
    constructor; cbn; auto.
  - destruct (shows START s || shows GAMEOVER s);
      [apply Inv_startGame|]; exact HI.
  - destruct (shows START s) eqn:Hsh; [|exact HI].
    destruct HI as [Hl Ht He Hti Hs Ho Hlm Hb Hp].
    constructor; cbn; auto.
    unfold shows in Hsh. destruct (gameState s); try discriminate.
    exact Hp.
  - destruct (shows GARAGE s) eqn:Hsh; [|exact HI].
    destruct HI as [Hl Ht He Hti Hs Ho Hlm Hb Hp].
    constructor; cbn; auto.
    unfold shows in Hsh. destruct (gameState s); try discriminate.
    exact Hp.
  - destruct (shows GARAGE s); [|exact HI].
    destruct HI as [Hl Ht He Hti Hs Ho Hlm Hb Hp].
    constructor; cbn; auto.
  - destruct (shows GARAGE s); [|exact HI].
    destruct HI as [Hl Ht He Hti Hs Ho Hlm Hb Hp].
    constructor; cbn; auto.
  - destruct (shows GARAGE s); [|exact HI].
    destruct HI as [Hl Ht He Hti Hs Ho Hlm Hb Hp].
    constructor; cbn; auto.
  - destruct (shows GARAGE s); cbn [andb]; [|exact HI].
    destruct (3 <=? _)%Z eqn:Hle; cbn [negb]; [exact HI|].
    apply Z.leb_gt in Hle.
    destruct HI as [Hl Ht He Hti Hs Ho Hlm Hb Hp].
    constructor; cbn; auto; lia.
  - destruct (shows GARAGE s); cbn [andb]; [|exact HI].
    destruct (3 <=? _)%Z eqn:Hle; cbn [negb]; [exact HI|].
    apply Z.leb_gt in Hle.
    destruct HI as [Hl Ht He Hti Hs Ho Hlm Hb Hp].
    constructor; cbn; auto; lia.
  - unfold handleKeyDown.
    destruct (negb (isPlaying (gameState s))); [exact HI|].
    destruct key; try exact HI; apply Inv_movePlayer; exact HI.
  - apply Inv_gameLoop. exact HI.
Qed.

Lemma reachable_Inv (s : AppState) : reachable s -> Inv s.
Proof.
  induction 1 as [saved | e s _ IH].
  - apply Inv_initial.
  - apply Inv_handle. exact IH.
Qed.

Lemma reachable_run (es : list Event) (s : AppState) :
  reachable s -> reachable (run es s).
Proof.
  revert s. induction es as [|e es IH]; intros s Hs; cbn.
  - exact Hs.
  - apply IH. apply reachable_step. exact Hs.
Qed.

(** ** The outcome of a running frame *)

Lemma gameLoop_phase (time : Q) (rnd : nat -> Q) (s : AppState) :
  gameStateRef s = PLAYING ->
  gameStateRef (gameLoop time rnd s) =
    if existsb (collides (playerRef s))
               (fst (spawnObstacles (selectedTrackRef s) (keptObstacles s)
                       rnd O))
    then GAMEOVER else PLAYING.
Proof.
  intros Hrun. rewrite (gameLoop_running time rnd s Hrun). cbv zeta.
  destruct (existsb _ _); [unfold gameOver|]; reflexivity.
Qed.

Lemma gameLoop_score (time : Q) (rnd : nat -> Q) (s : AppState) :
  gameStateRef s = PLAYING ->
  scoreRef (gameLoop time rnd s) =
    if existsb (collides (playerRef s))
               (fst (spawnObstacles (selectedTrackRef s) (keptObstacles s)
                       rnd O))
    then scoreRef s else (scoreRef s + 1)%Z.
Proof.
  intros Hrun. rewrite (gameLoop_running time rnd s Hrun). cbv zeta.
  destruct (existsb _ _); [unfold gameOver|]; reflexivity.
Qed.

(** ** The sample sessions *)

Lemma cruise_increment (s : AppState) :
  selectedTrackRef s = TRACKS_2 -> customization s = tunedCar ->
  effectiveIncrement s == 0.004.
Proof.
  intros Ht Hc. unfold effectiveIncrement. rewrite Ht, Hc. reflexivity.
Qed.

Lemma cruise_currentSpeed (s : AppState) :
  selectedTrackRef s = TRACKS_2 -> customization s = tunedCar ->
  currentSpeed s == speedRef s + 0.004.
Proof.
  intros Ht Hc. unfold currentSpeed.
  rewrite (cruise_increment s Ht Hc). reflexivity.
Qed.

Lemma cruise_kept (s : AppState) (y : Q) :
  obstaclesRef s = [cruiseObstacle y] ->
  y + currentSpeed s < CANVAS_HEIGHT ->
  keptObstacles s = [cruiseObstacle (y + currentSpeed s)].
Proof.
  intros Hobs Hon. unfold keptObstacles. rewrite Hobs.
  change (filter onScreenObstacle
            (map (moveObstacle (currentSpeed s)) [cruiseObstacle y]))
    with (if Qltb (y + currentSpeed s) CANVAS_HEIGHT
          then [cruiseObstacle (y + currentSpeed s)] else []).
  apply Qltb_lt in Hon. rewrite Hon. reflexivity.
Qed.

(** A frame with every draw [0.1] on a running session whose only
    obstacle stays on screen: the obstacle moves, nothing is spawned. *)
Lemma cruise_frame_obstacles (s : AppState) (y : Q) :
  gameStateRef s = PLAYING ->
  obstaclesRef s = [cruiseObstacle y] ->
  y + currentSpeed s < CANVAS_HEIGHT ->
  obstaclesRef (gameLoop 0 (draws 0.1) s)
    = [cruiseObstacle (y + currentSpeed s)].
Proof.
  intros Hrun Hobs Hon.
  rewrite (gameLoop_obstacles 0 (draws 0.1) s Hrun).
  unfold keptObstacles. rewrite Hobs.
  change (filter onScreenObstacle
            (map (moveObstacle (currentSpeed s)) [cruiseObstacle y]))
    with (if Qltb (y + currentSpeed s) CANVAS_HEIGHT
          then [cruiseObstacle (y + currentSpeed s)] else []).
  apply Qltb_lt in Hon. rewrite Hon.
  rewrite spawnObstacles_gate. cbv zeta.
  rewrite (obstacleGate_nonempty [cruiseObstacle (y + currentSpeed s)]
             (cruiseObstacle (y + currentSpeed s)) (draws 0.1) O eq_refl).
  destruct (Qltb 200 (GameObject.y _)); reflexivity.
Qed.

Lemma cruise_frame (v lo hi : Q) (s : AppState) :
  Cruise v lo hi s ->
  hi + (v + 0.004) < CANVAS_HEIGHT ->
  Cruise (v + 0.004) (lo + 17) (hi + (v + 0.004))
         (gameLoop 0 (draws 0.1) s).
Proof.
  intros [Hrun Hscreen Hlane Hx Hy Hw Hh Htrack Hcar Hspeed
            (y & Hobs & Hbound)] Hon.
  pose proof (cruise_increment s Htrack Hcar) as Hinc.
  assert (currentSpeed s == speedRef s + 0.004) as Hcs
    by (unfold currentSpeed; rewrite Hinc; reflexivity).
  assert (y + currentSpeed s < CANVAS_HEIGHT) as Hkeep
    by (rewrite Hcs; lra).
  pose proof (cruise_frame_obstacles s y Hrun Hobs Hkeep) as Hobs'.
  assert (existsb (collides (playerRef s))
            (fst (spawnObstacles (selectedTrackRef s) (keptObstacles s)
                    (draws 0.1) O)) = false) as Hmiss.
  { rewrite <- (gameLoop_obstacles 0 (draws 0.1) s Hrun), Hobs'.
    cbn [existsb]. rewrite orb_false_r.
    unfold collides. rewrite Hx, Hw.
    cbn [cruiseObstacle GameObject.x GameObject.width].
    reflexivity. }
  pose proof (gameLoop_phase 0 (draws 0.1) s Hrun) as Hphase.
  rewrite Hmiss in Hphase.
  pose proof (gameLoop_player 0 (draws 0.1) s) as Hplayer.
  pose proof (gameLoop_speed 0 (draws 0.1) s Hrun) as Hspeed'.
  constructor; try (rewrite Hplayer; assumption).
  - exact Hphase.
  - rewrite (gameLoop_running 0 (draws 0.1) s Hrun). cbv zeta.
    rewrite Hmiss. exact Hscreen.
  - rewrite (gameLoop_running 0 (draws 0.1) s Hrun). cbv zeta.
    rewrite Hmiss. exact Htrack.
  - rewrite (gameLoop_running 0 (draws 0.1) s Hrun). cbv zeta.
    rewrite Hmiss. exact Hcar.
  - rewrite Hspeed', Hcs. lra.
  - exists (y + currentSpeed s). split; [exact Hobs'|].
    rewrite Hcs. lra.
Qed.

Lemma Cruise_weaken (v lo hi v' lo' hi' : Q) (s : AppState) :
  Cruise v lo hi s -> v <= v' -> lo' <= lo -> hi <= hi' ->
  Cruise v' lo' hi' s.
Proof.
  intros [Hrun Hscreen Hlane Hx Hy Hw Hh Htrack Hcar Hspeed
            (y & Hobs & Hbound)] Hv Hlo Hhi.
  constructor; try assumption.
  - lra.
  - exists y. split; [exact Hobs | lra].
Qed.

Lemma cruise_frames (n : nat) (v lo hi : Q) (s : AppState) :
  Cruise v lo hi s ->
  v + 0.004 * inject_Z (Z.of_nat n) <= 17.2 ->
  hi + 17.2 * inject_Z (Z.of_nat n) < CANVAS_HEIGHT ->
  Cruise (v + 0.004 * inject_Z (Z.of_nat n))
         (lo + 17 * inject_Z (Z.of_nat n))
         (hi + 17.2 * inject_Z (Z.of_nat n))
         (run (repeat (Frame 0 (draws 0.1)) n) s).
Proof.
  revert v lo hi s.
  induction n as [|n IH]; intros v lo hi s Hc Hv Hhi.
  - cbn [repeat run fold_left].
    apply (Cruise_weaken v lo hi); [exact Hc | | |];
      change (inject_Z (Z.of_nat 0)) with 0; lra.
  - assert (inject_Z (Z.of_nat (S n)) == inject_Z (Z.of_nat n) + 1) as Hk.
    { rewrite Nat2Z.inj_succ. unfold Z.succ. rewrite inject_Z_plus.
      reflexivity. }
    assert (0 <= inject_Z (Z.of_nat n)) as Hpos.
    { change 0 with (inject_Z 0). rewrite <- Zle_Qle. lia. }
    rewrite Hk in Hv, Hhi. unfold CANVAS_HEIGHT in *.
    change (run (repeat (Frame 0 (draws 0.1)) (S n)) s)
      with (run (repeat (Frame 0 (draws 0.1)) n)
                (gameLoop 0 (draws 0.1) s)).
    assert (Cruise (v + 0.004) (lo + 17) (hi + 17.2)
                   (gameLoop 0 (draws 0.1) s)) as Hc1.
    { apply (Cruise_weaken (v + 0.004) (lo + 17) (hi + (v + 0.004)));
        [|lra|lra|lra].
      apply cruise_frame; [exact Hc | unfold CANVAS_HEIGHT; lra]. }
    apply (Cruise_weaken _ _ _ _ _ _ _
             (IH _ _ _ _ Hc1 ltac:(lra) ltac:(unfold CANVAS_HEIGHT; lra)));
      rewrite Hk; lra.
Qed.

Lemma tunedStart_frame :
  Cruise 17.004 (- (80)) (- (80)) (gameLoop 0 (draws 0.1) tunedStart).
Proof.
  constructor; try reflexivity.
  - split; vm_compute; discriminate.
  - exists (- OBSTACLE_HEIGHT). split; [reflexivity|].
    split; vm_compute; discriminate.
Qed.

Lemma currentSpeed_movePlayer (dir : Z) (s : AppState) :
  currentSpeed (movePlayer dir s) = currentSpeed s.
Proof. reflexivity. Qed.

(** The player steers left under the obstacle: the next frame ends the
    session and leaves the score alone. *)
Lemma crash_frame (v lo hi : Q) (s : AppState) :
  Cruise v lo hi s ->
  403 < lo -> hi + (v + 0.004) < 580 ->
  gameStateRef (handle (KeyDown ArrowLeft) s) = PLAYING /\
  gameStateRef (gameLoop 0 (draws 0.1) (handle (KeyDown ArrowLeft) s))
    = GAMEOVER /\
  scoreRef (gameLoop 0 (draws 0.1) (handle (KeyDown ArrowLeft) s))
    = scoreRef (handle (KeyDown ArrowLeft) s).
Proof.
  intros [Hrun Hscreen Hlane Hx Hy Hw Hh Htrack Hcar Hspeed
            (y & Hobs & Hbound)] Hlo Hhi.
  cbv zeta. cbn [handle]. unfold handleKeyDown.
  rewrite Hscreen. cbn [isPlaying negb].
  assert (gameStateRef (movePlayer (-1) s) = PLAYING) as Hrun' by exact Hrun.
  pose proof (cruise_increment s Htrack Hcar) as Hinc.
  assert (currentSpeed s == speedRef s + 0.004) as Hcs
    by (unfold currentSpeed; rewrite Hinc; reflexivity).
  assert (obstaclesRef (gameLoop 0 (draws 0.1) (movePlayer (-1) s))
          = [cruiseObstacle (y + currentSpeed s)]) as Hobs'.
  { rewrite <- (currentSpeed_movePlayer (-1) s).
    apply cruise_frame_obstacles; [exact Hrun' | exact Hobs |].
    rewrite currentSpeed_movePlayer, Hcs. unfold CANVAS_HEIGHT. lra. }
  assert (existsb (collides (playerRef (movePlayer (-1) s)))
            (fst (spawnObstacles (selectedTrackRef (movePlayer (-1) s))
                    (keptObstacles (movePlayer (-1) s)) (draws 0.1) O))
          = true) as Hhit.
  { rewrite <- (gameLoop_obstacles 0 (draws 0.1) _ Hrun'), Hobs'.
    cbn [existsb]. rewrite orb_true_iff. left.
    apply collides_overlap. unfold overlap.
    cbn [movePlayer playerRef GameObject.x GameObject.y GameObject.width
         GameObject.height cruiseObstacle].
    rewrite Hlane, Hy, Hw, Hh, Hcs.
    unfold CANVAS_HEIGHT, PLAYER_HEIGHT, PLAYER_WIDTH, OBSTACLE_HEIGHT.
    split; [vm_compute; reflexivity|].
    split; [vm_compute; reflexivity|].
    split; lra. }
  split; [exact Hrun'|]. split.
  - rewrite (gameLoop_phase 0 (draws 0.1) _ Hrun'), Hhit. reflexivity.
  - rewrite (gameLoop_score 0 (draws 0.1) _ Hrun'), Hhit. reflexivity.
Qed.

(** The player stays in lane 1: the next frame keeps the obstacle, with
    its lower edge below the canvas. *)
Lemma pass_frame (v lo hi : Q) (s : AppState) :
  Cruise v lo hi s ->
  503 < lo -> hi + (v + 0.004) < CANVAS_HEIGHT ->
  gameStateRef s = PLAYING /\
  exists obs,
    In obs (obstaclesRef (gameLoop 0 (draws 0.1) s)) /\
    CANVAS_HEIGHT < GameObject.y obs + GameObject.height obs.
Proof.
  intros [Hrun Hscreen Hlane Hx Hy Hw Hh Htrack Hcar Hspeed
            (y & Hobs & Hbound)] Hlo Hhi.
  pose proof (cruise_increment s Htrack Hcar) as Hinc.
  assert (currentSpeed s == speedRef s + 0.004) as Hcs
    by (unfold currentSpeed; rewrite Hinc; reflexivity).
  assert (obstaclesRef (gameLoop 0 (draws 0.1) s)
          = [cruiseObstacle (y + currentSpeed s)]) as Hobs'.
  { apply cruise_frame_obstacles; [exact Hrun | exact Hobs |].
    rewrite Hcs. lra. }
  split; [exact Hrun|].
  exists (cruiseObstacle (y + currentSpeed s)). split.
  - rewrite Hobs'. left. reflexivity.
  - cbn [cruiseObstacle GameObject.y GameObject.height].
    rewrite Hcs. unfold CANVAS_HEIGHT, OBSTACLE_HEIGHT. lra.
Qed.

Lemma approach_cruise : Cruise 17.12 413 418.8 approach.
Proof.
  assert (Cruise (17.004 + 0.004 * inject_Z (Z.of_nat 29))
                 (- (80) + 17 * inject_Z (Z.of_nat 29))
                 (- (80) + 17.2 * inject_Z (Z.of_nat 29))
                 (run (repeat (Frame 0 (draws 0.1)) 29)
                      (gameLoop 0 (draws 0.1) tunedStart))) as H.
  { apply cruise_frames; [exact tunedStart_frame | |].
    - vm_compute. discriminate.
    - vm_compute. reflexivity. }
  refine (Cruise_weaken _ _ _ _ _ _ _ H _ _ _); vm_compute; discriminate.
Qed.

Lemma passing_cruise : Cruise 17.144 515 522 passing.
Proof.
  assert (Cruise (17.12 + 0.004 * inject_Z (Z.of_nat 6))
                 (413 + 17 * inject_Z (Z.of_nat 6))
                 (418.8 + 17.2 * inject_Z (Z.of_nat 6))
                 (run (repeat (Frame 0 (draws 0.1)) 6) approach)) as H.
  { apply cruise_frames; [exact approach_cruise | |].
    - vm_compute. discriminate.
    - vm_compute. reflexivity. }
  refine (Cruise_weaken _ _ _ _ _ _ _ H _ _ _); vm_compute; discriminate.
Qed.

Lemma tunedStart_reachable : reachable tunedStart.
Proof. unfold tunedStart. apply reachable_run, reachable_init. Qed.

Lemma handle_Frame (time : Q) (rnd : nat -> Q) (s : AppState) :
  handle (Frame time rnd) s = gameLoop time rnd s.
Proof. reflexivity. Qed.

Lemma approach_reachable : reachable approach.
Proof.
  unfold approach. apply reachable_run.
  rewrite <- handle_Frame.
  exact (reachable_step (Frame 0 (draws 0.1)) tunedStart
           tunedStart_reachable).
Qed.

Lemma beforeCrash_facts :
  reachable beforeCrash /\
  gameStateRef beforeCrash = PLAYING /\
  gameStateRef (gameLoop 0 (draws 0.1) beforeCrash) = GAMEOVER /\
  scoreRef (gameLoop 0 (draws 0.1) beforeCrash) = scoreRef beforeCrash.
Proof.
  unfold beforeCrash.
  split; [exact (reachable_step (KeyDown ArrowLeft) approach
                   approach_reachable)|].
  assert (403 < 413) as Hlo by reflexivity.
  assert (418.8 + (17.12 + 0.004) < 580) as Hhi by reflexivity.
  exact (crash_frame 17.12 413 418.8 approach approach_cruise Hlo Hhi).
Qed.

Lemma passing_facts :
  reachable passing /\
  gameStateRef passing = PLAYING /\
  exists obs,
    In obs (obstaclesRef (gameLoop 0 (draws 0.1) passing)) /\
    CANVAS_HEIGHT < GameObject.y obs + GameObject.height obs.
Proof.
  split.
  - unfold passing. apply reachable_run. exact approach_reachable.
  - assert (503 < 515) as Hlo by reflexivity.
    assert (522 + (17.144 + 0.004) < CANVAS_HEIGHT) as Hhi by reflexivity.
    exact (pass_frame 17.144 515 522 passing passing_cruise Hlo Hhi).
Qed.

(** ** Speed *)

Lemma handle_speed_mono (e : Event) (s : AppState) :
  match e with ClickStart _ => false | _ => true end = true ->
  speedRef s <= speedRef (handle e s).
Proof.
  intros He. destruct e; try discriminate; cbn [handle].
  - destruct (nth_error TRACKS i); [|apply Qle_refl].
    destruct (shows START s); apply Qle_refl.
  - destruct (shows START s); apply Qle_refl.
  - destruct (shows GARAGE s); apply Qle_refl.
  - destruct (shows GARAGE s); apply Qle_refl.
  - destruct (shows GARAGE s); apply Qle_refl.
  - destruct (shows GARAGE s); apply Qle_refl.
  - destruct (shows GARAGE s && _); apply Qle_refl.
  - destruct (shows GARAGE s && _); apply Qle_refl.
  - unfold handleKeyDown.
    destruct (negb _); [apply Qle_refl|].
    destruct key; apply Qle_refl.
  - destruct (gameStateRef s) eqn:Hg;
      try (rewrite gameLoop_idle by congruence; apply Qle_refl).
    rewrite (gameLoop_speed time rnd s Hg).
    apply Qlt_le_weak, currentSpeed_gt.
Qed.

Lemma run_speed_mono (es : list Event) (s : AppState) :
  sameSession es = true -> speedRef s <= speedRef (run es s).
Proof.
  revert s. induction es as [|e es IH]; intros s Hes; cbn.
  - apply Qle_refl.
  - cbn in Hes. apply andb_true_iff in Hes. destruct Hes as [He Hes].
    apply Qle_trans with (y := speedRef (handle e s)).
    + apply handle_speed_mono. exact He.
    + apply IH. exact Hes.
Qed.

(** ** Lanes and kinds of a spawn *)

Lemma Qfloor_unique (x : Q) (n : Z) :
  inject_Z n <= x < inject_Z (n + 1) -> Qfloor x = n.
Proof.
  intros [Hlo Hhi].
  pose proof (Qfloor_le x) as Hfl.
  pose proof (Qlt_floor x) as Hfu.
  assert (inject_Z n < inject_Z (Qfloor x + 1)) as H1 by lra.
  assert (inject_Z (Qfloor x) < inject_Z (n + 1)) as H2 by lra.
  rewrite <- Zlt_Qlt in H1, H2. lia.
Qed.

Lemma Qfloor_thirds (r : Q) (n : Z) :
  Qfloor (r * 3) = n <-> inject_Z n / 3 <= r < (inject_Z n + 1) / 3.
Proof.
  split.
  - intros <-.
    pose proof (Qfloor_le (r * 3)) as Hfl.
    pose proof (Qlt_floor (r * 3)) as Hfu.
    rewrite inject_Z_plus in Hfu. change (inject_Z 1) with 1 in Hfu.
    unfold Qdiv. change (/ 3) with (1 # 3).
    split; lra.
  - unfold Qdiv. change (/ 3) with (1 # 3).
    intros [Hlo Hhi]. apply Qfloor_unique.
    rewrite inject_Z_plus. change (inject_Z 1) with 1.
    split; lra.
Qed.

Lemma Qfloor_three_range (r : Q) : 0 <= r < 1 -> (0 <= Qfloor (r * 3) <= 2)%Z.
Proof.
  intros [Hr0 Hr1].
  pose proof (Qfloor_le (r * 3)) as Hfl.
  pose proof (Qlt_floor (r * 3)) as Hfu.
  rewrite inject_Z_plus in Hfu. change (inject_Z 1) with 1 in Hfu.
  assert (inject_Z (Qfloor (r * 3)) < inject_Z 3) as H1
    by (change (inject_Z 3) with 3; lra).
  assert (inject_Z (-1) < inject_Z (Qfloor (r * 3))) as H2
    by (change (inject_Z (-1)) with (-1 # 1); lra).
  rewrite <- Zlt_Qlt in H1, H2. lia.
Qed.

(** ** Eviction *)

Lemma moveObstacle_y (v : Q) (obs : GameObject.t) :
  GameObject.y (moveObstacle v obs) = GameObject.y obs + v.
Proof. reflexivity. Qed.

Lemma moveLandmark_y (v : Q) (lm : Landmark.t) :
  Landmark.y (moveLandmark v lm) = Landmark.y lm + v.
Proof. reflexivity. Qed.

(** ** The lane *)

Lemma handle_lane_other (e : Event) (s : AppState) :
  match e with
  | KeyDown _ | ClickStart _ => True
  | _ =>
      GameObject.lane (playerRef (handle e s)) = GameObject.lane (playerRef s)
  end.
Proof.
  destruct e; cbn [handle]; try exact I.
  - destruct (nth_error TRACKS i); [|reflexivity].
    destruct (shows START s); reflexivity.
  - destruct (shows START s); reflexivity.
  - destruct (shows GARAGE s); reflexivity.
  - destruct (shows GARAGE s); reflexivity.
  - destruct (shows GARAGE s); reflexivity.
  - destruct (shows GARAGE s); reflexivity.
  - destruct (shows GARAGE s && _); reflexivity.
  - destruct (shows GARAGE s && _); reflexivity.
  - rewrite gameLoop_player. reflexivity.
Qed.

(** ** The time stamp *)

Lemma gameLoop_forgets_time (time : Q) (rnd : nat -> Q) (s : AppState) :
  withLastTime 0 (gameLoop time rnd s) =
  withLastTime 0 (gameLoop 0 rnd (withLastTime 0 s)).
Proof.
  destruct (gameStateRef s) eqn:Hg;
    try (rewrite !gameLoop_idle by (cbn; congruence); reflexivity).
  rewrite (gameLoop_running time rnd s Hg).
  rewrite (gameLoop_running 0 rnd (withLastTime 0 s) Hg).
  cbv zeta.
  change (keptObstacles (withLastTime 0 s)) with (keptObstacles s).
  change (keptLandmarks (withLastTime 0 s)) with (keptLandmarks s).
  change (currentSpeed (withLastTime 0 s)) with (currentSpeed s).
  cbn [withLastTime playerRef selectedTrackRef gameState customization score
       highScore speed scoreRef roadOffsetRef localStorage].
  destruct (existsb _ _); [unfold gameOver|]; reflexivity.
Qed.

(** ** Lineage of the entities *)





(** The lists after an event other than a frame. *)
Lemma handle_lists_other (e : Event) (s : AppState) :
  match e with
  | Frame _ _ => True
  | _ =>
      (obstaclesRef (handle e s) = obstaclesRef s /\
       landmarksRef (handle e s) = landmarksRef s) \/
      (obstaclesRef (handle e s) = [] /\ landmarksRef (handle e s) = [])
  end.
Proof.
  destruct e; cbn [handle]; try exact I.
  - destruct (nth_error TRACKS i); [|auto].
    destruct (shows START s); auto.
  - destruct (shows START s || shows GAMEOVER s); auto.
  - destruct (shows START s); auto.
  - destruct (shows GARAGE s); auto.
  - destruct (shows GARAGE s); auto.
  - destruct (shows GARAGE s); auto.
  - destruct (shows GARAGE s); auto.
  - destruct (shows GARAGE s && _); auto.
  - destruct (shows GARAGE s && _); auto.
  - unfold handleKeyDown. destruct (negb _); [auto|]. destruct key; auto.
Qed.

(** ** The order of the obstacle list *)

Lemma spawnOrder_map (v : Q) (l : list GameObject.t) :
  spawnOrder l -> spawnOrder (map (moveObstacle v) l).
Proof.
  induction l as [|o l IH]; cbn [map spawnOrder]; [trivial|].
  intros [Hall Hl]. split; [|apply IH; exact Hl].
  rewrite Forall_forall in *. intros o' Hin.
  apply in_map_iff in Hin. destruct Hin as (o0 & <- & Hin0).
  cbn [moveObstacle GameObject.y]. specialize (Hall o0 Hin0). lra.
Qed.

Lemma spawnOrder_filter (f : GameObject.t -> bool) (l : list GameObject.t) :
  spawnOrder l -> spawnOrder (filter f l).
Proof.
  induction l as [|o l IH]; cbn [filter spawnOrder]; [trivial|].
  intros [Hall Hl]. destruct (f o); [|apply IH; exact Hl].
  cbn [spawnOrder]. split; [|apply IH; exact Hl].
  rewrite Forall_forall in *. intros o' Hin.
  apply filter_In in Hin. apply Hall. tauto.
Qed.

Lemma spawnOrder_app (l : list GameObject.t) (o : GameObject.t) :
  spawnOrder l ->
  Forall (fun o' => GameObject.y o <= GameObject.y o') l ->
  spawnOrder (l ++ [o]).
Proof.
  induction l as [|a l IH]; cbn [app spawnOrder].
  - intros _ _. split; [constructor | exact I].
  - intros [Hall Hl] Hge. inversion Hge as [|? ? Ha Hrest]; subst.
    split; [|apply IH; assumption].
    apply Forall_app. split; [exact Hall|].
    constructor; [exact Ha | constructor].
Qed.

Lemma spawnOrder_last (l : list GameObject.t) (o : GameObject.t) :
  spawnOrder l -> lastOf l = Some o ->
  Forall (fun o' => GameObject.y o <= GameObject.y o') l.
Proof.
  induction l as [|a l IH]; intros Hord Hlast; [constructor|].
  destruct Hord as [Hall Hl].
  destruct l as [|b l'].
  - cbn in Hlast. injection Hlast as <-.
    constructor; [apply Qle_refl | constructor].
  - assert (lastOf (b :: l') = Some o) as Hlast'.
    { unfold lastOf in *. cbn [length] in *.
      replace (S (S (length l')) - 1)%nat with (S (length l')) in Hlast by lia.
      replace (S (length l') - 1)%nat with (length l') by lia.
      exact Hlast. }
    specialize (IH Hl Hlast').
    constructor; [|exact IH].
    rewrite Forall_forall in Hall. apply Hall.
    apply lastOf_In. exact Hlast'.
Qed.

Lemma reachable_spawnOrder (s : AppState) :
  reachable s ->
  spawnOrder (obstaclesRef s) /\
  Forall (fun o => - OBSTACLE_HEIGHT <= GameObject.y o) (obstaclesRef s).
Proof.
  induction 1 as [saved | e s Hreach [IHord IHtop]].
  - split; [exact I | constructor].
  - pose proof (handle_lists_other e s) as Hother.
    destruct e;
      try (destruct Hother as [[-> _] | [-> _]];
           [split; assumption | split; [exact I | constructor]]).
    cbn [handle].
    destruct (gameStateRef s) eqn:Hg;
      try (rewrite gameLoop_idle by congruence; split; assumption).
    rewrite (gameLoop_obstacles time rnd s Hg).
    pose proof (inv_speed s (reachable_Inv s Hreach)) as Hspeed.
    pose proof (currentSpeed_gt s) as Hv.
    assert (spawnOrder (keptObstacles s)) as Hord.
    { unfold keptObstacles. apply spawnOrder_filter, spawnOrder_map.
      exact IHord. }
    assert (Forall (fun o => - OBSTACLE_HEIGHT <= GameObject.y o)
                   (keptObstacles s)) as Htop.
    { apply Forall_forall. intros o Hin. unfold keptObstacles in Hin.
      apply filter_In in Hin. destruct Hin as [Hmap _].
      apply in_map_iff in Hmap. destruct Hmap as (o0 & <- & Hin0).
      rewrite Forall_forall in IHtop. specialize (IHtop o0 Hin0).
      cbn [moveObstacle GameObject.y]. lra. }
    rewrite spawnObstacles_gate. cbv zeta.
    destruct (fst (obstacleGate (keptObstacles s) rnd O)); cbn [fst];
      [|split; assumption].
    split.
    + apply spawnOrder_app; [exact Hord | exact Htop].
    + apply Forall_app. split; [exact Htop|].
      constructor; [apply Qle_refl | constructor].
Qed.

(** ** Which object is which *)

Section Ids.

Context {A : Type} (P : A -> bool).






End Ids.


































(** * The claims *)

(** C1.  On a running frame the player's rectangle is tested against
    every obstacle of the list the frame leaves, and against nothing
    else, with the four strict comparisons of the source: the session is
    over after the frame exactly when some obstacle satisfies them, the
    score is then the one before the frame, and the landmarks have no
    say. *)
Theorem collision_ends_tick (time : Q) (rnd : nat -> Q) (s : AppState) :
  gameStateRef s = PLAYING ->
  let s' := gameLoop time rnd s in
  let player := playerRef s' in
  let hit (obs : GameObject.t) :=
    GameObject.x player < GameObject.x obs + GameObject.width obs /\
    GameObject.x player + GameObject.width player > GameObject.x obs /\
    GameObject.y player < GameObject.y obs + GameObject.height obs /\
    GameObject.y player + GameObject.height player > GameObject.y obs in
  (forall obs, collides player obs = true <-> hit obs) /\
  (gameStateRef s' = GAMEOVER <->
   exists obs, In obs (obstaclesRef s') /\ hit obs) /\
  (gameStateRef s' = GAMEOVER -> scoreRef s' = scoreRef s) /\
  (gameStateRef s' = GAMEOVER \/ gameStateRef s' = PLAYING) /\
  (forall lms,
      gameStateRef (gameLoop time rnd (withLandmarks lms s)) =
      gameStateRef s').
Proof.
  intros Hrun. cbv zeta.
  rewrite gameLoop_player.
  rewrite (gameLoop_obstacles time rnd s Hrun).
  rewrite (gameLoop_phase time rnd s Hrun).
  rewrite (gameLoop_score time rnd s Hrun).
  pose proof (fun obs => collides_overlap (playerRef s) obs) as Hhit.
  unfold overlap in Hhit.
  split; [exact Hhit|].
  destruct (existsb _ _) eqn:Hex.
  - apply existsb_exists in Hex. destruct Hex as (obs & Hin & Hc).
    repeat split; auto.
    + intros _. exists obs. split; [exact Hin | apply Hhit; exact Hc].
    + intro lms. rewrite gameLoop_phase by exact Hrun.
      cbn [withLandmarks playerRef selectedTrackRef].
      change (keptObstacles (withLandmarks lms s)) with (keptObstacles s).
      replace (existsb _ _) with true; [reflexivity|].
      symmetry. apply existsb_exists. eauto.
  - repeat split; auto; try discriminate.
    + intros (obs & Hin & Hh). apply Hhit in Hh.
      assert (existsb (collides (playerRef s))
                (fst (spawnObstacles (selectedTrackRef s) (keptObstacles s)
                        rnd O)) = true) as Hcontra
        by (apply existsb_exists; eauto).
      congruence.
    + intro lms. rewrite gameLoop_phase by exact Hrun.
      cbn [withLandmarks playerRef selectedTrackRef].
      change (keptObstacles (withLandmarks lms s)) with (keptObstacles s).
      rewrite Hex. reflexivity.
Qed.

(** The frame after [beforeCrash] ends the session: some obstacle
    overlaps the player. *)
Lemma collision_ends_tick_witness :
  gameStateRef beforeCrash = PLAYING /\
  exists obs,
    In obs (obstaclesRef (gameLoop 0 (draws 0.1) beforeCrash)) /\
    collides (playerRef (gameLoop 0 (draws 0.1) beforeCrash)) obs = true.
Proof.
  destruct beforeCrash_facts as (_ & Hrun & Hover & _).
  split; [exact Hrun|].
  destruct (collision_ends_tick 0 (draws 0.1) beforeCrash Hrun)
    as (Hhit & Hiff & _).
  destruct (proj1 Hiff Hover) as (obs & Hin & Hobs).
  exists obs. split; [exact Hin | exact (proj2 (Hhit obs) Hobs)].
Defined.

(** C2, as amended.  A running frame that detects no collision adds
    exactly 1 to the score, whatever the speed, the lane and the entities
    are; the frame that detects a collision leaves the score as it was. *)
Theorem score_counts_frames (time : Q) (rnd : nat -> Q) (s : AppState) :
  gameStateRef s = PLAYING ->
  let s' := gameLoop time rnd s in
  (gameStateRef s' = PLAYING -> scoreRef s' = (scoreRef s + 1)%Z) /\
  (gameStateRef s' <> PLAYING -> scoreRef s' = scoreRef s).
Proof.
  intros Hrun. cbv zeta.
  rewrite (gameLoop_phase time rnd s Hrun), (gameLoop_score time rnd s Hrun).
  destruct (existsb _ _); split; congruence.
Qed.

Lemma score_counts_frames_witness :
  gameStateRef started = PLAYING /\
  gameStateRef (gameLoop 16 (draws 0.1) started) = PLAYING /\
  scoreRef (gameLoop 16 (draws 0.1) started) = (scoreRef started + 1)%Z.
Proof.
  split; [reflexivity|]. split; [reflexivity|].
  apply (score_counts_frames 16 (draws 0.1) started); reflexivity.
Defined.

(** C2, as stated, fails on the frame that detects a collision: the
    session [beforeCrash] is running, and the frame leaves its score
    where it was. *)
Lemma score_unchanged_on_crash :
  reachable beforeCrash /\
  gameStateRef beforeCrash = PLAYING /\
  scoreRef (gameLoop 0 (draws 0.1) beforeCrash) <>
    (scoreRef beforeCrash + 1)%Z.
Proof.
  destruct beforeCrash_facts as (Hreach & Hrun & _ & Hs).
  split; [exact Hreach|]. split; [exact Hrun|].
  rewrite Hs. lia.
Qed.

(** C3.  A running frame adds to the speed exactly
    [max(0.0001, track.speedIncrement - tires * 0.0002)], whether or not
    it ends in a collision; the increment is positive, and over the
    events of a session, frames and others, the speed never goes down. *)
Theorem speed_increment (time : Q) (rnd : nat -> Q) (s : AppState)
    (es : list Event) :
  gameStateRef s = PLAYING ->
  sameSession es = true ->
  let increment :=
    Qmax 0.0001
         (Track.speedIncrement (selectedTrackRef s)
          - inject_Z (Upgrades.tires
                        (CarCustomization.upgrades (customization s)))
            * 0.0002) in
  speedRef (gameLoop time rnd s) = speedRef s + increment /\
  speedRef (gameLoop time rnd s) - speedRef s == increment /\
  0 < increment /\
  speedRef s <= speedRef (run es s).
Proof.
  intros Hrun Hes. cbv zeta.
  rewrite (gameLoop_speed time rnd s Hrun).
  unfold currentSpeed.
  change (Qmax 0.0001 _) with (effectiveIncrement s).
  repeat split.
  - ring.
  - apply effectiveIncrement_pos.
  - apply run_speed_mono. exact Hes.
Qed.

Lemma speed_increment_witness :
  gameStateRef started = PLAYING /\
  sameSession [KeyDown ArrowLeft; Frame 32 (draws 0.1)] = true /\
  speedRef (gameLoop 16 (draws 0.1) started) == 8.002 /\
  speedRef started
    <= speedRef (run [KeyDown ArrowLeft; Frame 32 (draws 0.1)] started).
Proof.
  split; [reflexivity|]. split; [reflexivity|].
  pose proof (speed_increment 16 (draws 0.1) started
                [KeyDown ArrowLeft; Frame 32 (draws 0.1)]
                eq_refl eq_refl) as H.
  cbv zeta in H. destruct H as (H1 & _ & _ & H4).
  split; [rewrite H1; vm_compute; reflexivity | exact H4].
Defined.

(** C4.  On a running frame, with [kept] the obstacles left after motion
    and eviction: an obstacle is appended exactly when [kept] is empty,
    or the element at the end of [kept] is below [y = 200] and the
    frame's first draw is under [0.02]; nothing else is added.  In a
    reachable state the element at the end is the latest spawn still on
    the road: no obstacle of the list is higher up.  The new obstacle
    starts at [y = -OBSTACLE_HEIGHT]; its lane is the floor of three
    times the next draw, so that each of the lanes 0, 1, 2 is the image
    of one third of the unit interval; its kind is taken the same way,
    by the draw after that, from [pottery; stall; chariot]. *)
Theorem obstacle_spawn_policy (time : Q) (rnd : nat -> Q) (s : AppState) :
  gameStateRef s = PLAYING ->
  let s' := gameLoop time rnd s in
  let kept := keptObstacles s in
  let track := selectedTrackRef s in
  let clear :=
    exists front lastObs,
      kept = front ++ [lastObs] /\
      200 < GameObject.y lastObs /\ rnd O < 0.02 in
  (kept = [] -> obstaclesRef s' = [drawnObstacle track rnd 0]) /\
  (clear -> obstaclesRef s' = kept ++ [drawnObstacle track rnd 1]) /\
  (~ (kept = [] \/ clear) -> obstaclesRef s' = kept) /\
  ((kept = [] \/ clear) <-> exists obs, obstaclesRef s' = kept ++ [obs]) /\
  (length (obstaclesRef s') <= length kept + 1)%nat /\
  (forall k,
      let obs := drawnObstacle track rnd k in
      GameObject.y obs = - OBSTACLE_HEIGHT /\
      GameObject.lane obs = Qfloor (rnd k * 3) /\
      GameObject.type obs =
        index [pottery; stall; chariot] (Qfloor (rnd (S k) * 3))) /\
  (forall r n,
      0 <= r < 1 ->
      (Qfloor (r * 3) = n <-> inject_Z n / 3 <= r < (inject_Z n + 1) / 3) /\
      (0 <= Qfloor (r * 3) <= 2)%Z /\
      exists kind,
        index [pottery; stall; chariot] (Qfloor (r * 3)) = Some kind) /\
  index [pottery; stall; chariot] 0 = Some pottery /\
  index [pottery; stall; chariot] 1 = Some stall /\
  index [pottery; stall; chariot] 2 = Some chariot /\
  (reachable s ->
   forall front lastObs,
     kept = front ++ [lastObs] ->
     Forall (fun obs => GameObject.y lastObs <= GameObject.y obs) kept).
Proof.
  intros Hrun. cbv zeta.
  rewrite (gameLoop_obstacles time rnd s Hrun).
  rewrite spawnObstacles_gate. cbv zeta.
  assert (forall (kept : list GameObject.t) obs, kept ++ [obs] <> kept)
    as Hneq.
  { intros kept obs Heq. apply (f_equal (@length _)) in Heq.
    rewrite length_app in Heq. simpl in Heq. lia. }
  assert (forall r n, 0 <= r < 1 ->
            (Qfloor (r * 3) = n <->
             inject_Z n / 3 <= r < (inject_Z n + 1) / 3) /\
            (0 <= Qfloor (r * 3) <= 2)%Z /\
            exists kind,
              index [pottery; stall; chariot] (Qfloor (r * 3)) = Some kind)
    as Huniform.
  { intros r n Hr. split; [apply Qfloor_thirds|].
    pose proof (Qfloor_three_range r Hr) as Hn.
    split; [exact Hn|].
    assert (Qfloor (r * 3) = 0 \/ Qfloor (r * 3) = 1 \/ Qfloor (r * 3) = 2)%Z
      as [-> | [-> | ->]] by lia; eexists; reflexivity. }
  assert (forall k,
      GameObject.y (drawnObstacle (selectedTrackRef s) rnd k)
        = - OBSTACLE_HEIGHT /\
      GameObject.lane (drawnObstacle (selectedTrackRef s) rnd k)
        = Qfloor (rnd k * 3) /\
      GameObject.type (drawnObstacle (selectedTrackRef s) rnd k) =
        index [pottery; stall; chariot] (Qfloor (rnd (S k) * 3))) as Hnew.
  { intros k. repeat split. }
  assert (reachable s ->
          forall front lastObs,
            keptObstacles s = front ++ [lastObs] ->
            Forall (fun obs => GameObject.y lastObs <= GameObject.y obs)
                   (keptObstacles s)) as Hlatest.
  { intros Hreach front lastObs Hsnoc.
    apply spawnOrder_last; [|apply lastOf_snoc; eauto].
    unfold keptObstacles. apply spawnOrder_filter, spawnOrder_map.
    apply reachable_spawnOrder. exact Hreach. }
  pose proof (conj Hnew (conj Huniform
                (conj (eq_refl (Some pottery))
                   (conj (eq_refl (Some stall))
                      (conj (eq_refl (Some chariot)) Hlatest)))))
    as tail.
  clear Hnew Huniform Hlatest.
  revert tail. generalize (keptObstacles s). generalize (selectedTrackRef s).
  intros track kept tail.
  destruct kept as [|o l].
  - (* no obstacle is left *)
    rewrite obstacleGate_empty. cbn [fst snd app].
    split; [|split; [|split; [|split; [|split; [|exact tail]]]]].
    + intros _. reflexivity.
    + intros (front & lastObs & Hsnoc & _).
      destruct front; discriminate Hsnoc.
    + intros Hno. exfalso. apply Hno. left. reflexivity.
    + split; [intros _; eexists; reflexivity | intros _; left; reflexivity].
    + simpl. lia.
  - (* the one at the end decides *)
    destruct (lastOf_nonempty (o :: l)) as [lastObs Hlast]; [discriminate|].
    rewrite (obstacleGate_nonempty _ _ rnd O Hlast).
    destruct (proj1 (lastOf_snoc _ _) Hlast) as [front Hfront].
    assert (Qltb 200 (GameObject.y lastObs) && Qltb (rnd O) 0.02 = false ->
            ~ exists front0 lastObs0,
                o :: l = front0 ++ [lastObs0] /\
                200 < GameObject.y lastObs0 /\ rnd O < 0.02) as Hno.
    { intros Hgate (f0 & l0 & Hl0 & Hy0 & Hr0).
      assert (lastOf (o :: l) = Some l0) as Hl0'
        by (apply lastOf_snoc; eauto).
      rewrite Hlast in Hl0'. injection Hl0' as <-.
      apply Qltb_lt in Hy0, Hr0. rewrite Hy0, Hr0 in Hgate.
      discriminate Hgate. }
    destruct (Qltb 200 (GameObject.y lastObs)) eqn:Hy;
      [destruct (Qltb (rnd O) 0.02) eqn:Hr|]; cbn [fst snd];
      cbn [andb] in Hno.
    + apply Qltb_lt in Hy, Hr.
      split; [|split; [|split; [|split; [|split; [|exact tail]]]]].
      * intros Hnil. discriminate Hnil.
      * intros _. reflexivity.
      * intros Hnone. exfalso. apply Hnone. right. eauto.
      * split; [intros _; eexists; reflexivity | intros _; right; eauto].
      * rewrite length_app. simpl. lia.
    + specialize (Hno eq_refl).
      split; [|split; [|split; [|split; [|split; [|exact tail]]]]].
      * intros Hnil. discriminate Hnil.
      * intros Hc. exfalso. exact (Hno Hc).
      * intros _. reflexivity.
      * split.
        -- intros [Hnil | Hc]; [discriminate Hnil | exfalso; exact (Hno Hc)].
        -- intros [obs Hobs]. exfalso. symmetry in Hobs.
           exact (Hneq _ obs Hobs).
      * lia.
    + specialize (Hno eq_refl).
      split; [|split; [|split; [|split; [|split; [|exact tail]]]]].
      * intros Hnil. discriminate Hnil.
      * intros Hc. exfalso. exact (Hno Hc).
      * intros _. reflexivity.
      * split.
        -- intros [Hnil | Hc]; [discriminate Hnil | exfalso; exact (Hno Hc)].
        -- intros [obs Hobs]. exfalso. symmetry in Hobs.
           exact (Hneq _ obs Hobs).
      * lia.
Qed.

Lemma obstacle_spawn_policy_witness :
  gameStateRef approach = PLAYING /\
  exists obs,
    200 < GameObject.y obs /\
    obstaclesRef (gameLoop 16 (draws 0.001) approach)
      = [obs; drawnObstacle TRACKS_2 (draws 0.001) 1].
Proof.
  destruct approach_cruise
    as [Hrun _ _ _ _ _ _ Htrack Hcar Hspeed (y & Hobs & Hy)].
  split; [exact Hrun|].
  pose proof (cruise_currentSpeed approach Htrack Hcar) as Hcs.
  assert (keptObstacles approach
          = [] ++ [cruiseObstacle (y + currentSpeed approach)]) as Hkept.
  { apply cruise_kept; [exact Hobs|].
    rewrite Hcs. unfold CANVAS_HEIGHT. lra. }
  assert (200 < y + currentSpeed approach) as Hclear
    by (rewrite Hcs; lra).
  pose proof (obstacle_spawn_policy 16 (draws 0.001) approach Hrun) as H.
  cbv zeta in H. destruct H as (_ & H & _).
  exists (cruiseObstacle (y + currentSpeed approach)).
  split; [exact Hclear|].
  rewrite <- Htrack.
  rewrite H.
  - rewrite Hkept. reflexivity.
  - exists [], (cruiseObstacle (y + currentSpeed approach)).
    split; [exact Hkept|]. split; [exact Hclear|].
    vm_compute. reflexivity.
Defined.

(** C5, as amended.  After the motion step of a running frame, an
    obstacle or a landmark is dropped exactly when its [y], the upper
    edge of its rectangle, has reached the height of the canvas
    ([y >= CANVAS_HEIGHT]), and kept exactly when [y < CANVAS_HEIGHT];
    whatever the frame leaves in either list is above that line. *)
Theorem offscreen_eviction (time : Q) (rnd : nat -> Q) (s : AppState) :
  gameStateRef s = PLAYING ->
  let s' := gameLoop time rnd s in
  let v := speedRef s' in
  (forall obs,
      In obs (obstaclesRef s) ->
      (In (moveObstacle v obs) (obstaclesRef s') <->
       GameObject.y obs + v < CANVAS_HEIGHT)) /\
  (forall lm,
      In lm (landmarksRef s) ->
      (In (moveLandmark v lm) (landmarksRef s') <->
       Landmark.y lm + v < CANVAS_HEIGHT)) /\
  Forall (fun obs => GameObject.y obs < CANVAS_HEIGHT) (obstaclesRef s') /\
  Forall (fun lm => Landmark.y lm < CANVAS_HEIGHT) (landmarksRef s').
Proof.
  intros Hrun. cbv zeta.
  rewrite (gameLoop_speed time rnd s Hrun).
  rewrite (gameLoop_obstacles time rnd s Hrun).
  rewrite (gameLoop_landmarks time rnd s Hrun).
  pose proof (spawnObstacles_below (selectedTrackRef s) _ rnd O
                (keptObstacles_below s)) as Hobs.
  pose proof (spawnLandmarks_below (selectedTrackRef s) _ rnd
                (snd (spawnObstacles (selectedTrackRef s) (keptObstacles s)
                        rnd O))
                (keptLandmarks_below s)) as Hlms.
  split; [|split; [|split; [exact Hobs | exact Hlms]]].
  - intros obs Hin. split.
    + intros Hkept. rewrite Forall_forall in Hobs.
      apply Hobs in Hkept. exact Hkept.
    + intros Hy. apply spawnObstacles_incl.
      unfold keptObstacles. apply filter_In. split.
      * apply in_map. exact Hin.
      * apply Qltb_lt. exact Hy.
  - intros lm Hin. split.
    + intros Hkept. rewrite Forall_forall in Hlms.
      apply Hlms in Hkept. exact Hkept.
    + intros Hy. apply spawnLandmarks_incl.
      unfold keptLandmarks. apply filter_In. split.
      * apply in_map. exact Hin.
      * apply Qltb_lt. exact Hy.
Qed.

Lemma offscreen_eviction_witness :
  gameStateRef started = PLAYING /\
  Forall (fun obs => GameObject.y obs < CANVAS_HEIGHT)
         (obstaclesRef (gameLoop 16 (draws 0.1) started)).
Proof.
  split; [reflexivity|].
  pose proof (offscreen_eviction 16 (draws 0.1) started eq_refl) as H.
  cbv zeta in H. destruct H as (_ & _ & Hobs & _). exact Hobs.
Defined.

(** C5, as stated, fails: obstacles move down, so the leading edge of an
    obstacle is the lower edge [y + height] of its rectangle.  In the
    session [passing] the frame keeps an obstacle whose lower edge is
    already below the bottom of the canvas. *)
Lemma leading_edge_past_bottom_kept :
  reachable passing /\
  gameStateRef passing = PLAYING /\
  exists obs,
    In obs (obstaclesRef (gameLoop 0 (draws 0.1) passing)) /\
    CANVAS_HEIGHT < GameObject.y obs + GameObject.height obs.
Proof. exact passing_facts. Qed.

(** ** The best score *)

(** C6.  When a running session ends with score [S] while the store
    holds the best score [B] ([0] when the item is absent), the item is
    written, with [S], exactly when [S > B]; on [S <= B], a tie included,
    the store and the best score of the page stay as they were.  The
    frame that detects the collision ends the session in this way. *)
Theorem best_score_persistence (s : AppState) :
  reachable s ->
  gameStateRef s = PLAYING ->
  let S := scoreRef s in
  let B := savedHighScore (localStorage s) in
  let s' := gameOver s in
  gameStateRef s' = GAMEOVER /\
  ((S > B)%Z -> localStorage s' = Some S /\ highScore s' = S) /\
  ((S <= B)%Z ->
   localStorage s' = localStorage s /\ highScore s' = highScore s) /\
  (savedHighScore (localStorage s') = Z.max S B) /\
  (highScore s' = savedHighScore (localStorage s')) /\
  (forall time rnd,
      gameStateRef (gameLoop time rnd s) = GAMEOVER ->
      localStorage (gameLoop time rnd s) = localStorage s' /\
      highScore (gameLoop time rnd s) = highScore s' /\
      scoreRef (gameLoop time rnd s) = S).
Proof.
  intros Hreach Hrun. cbv zeta.
  pose proof (inv_best s (reachable_Inv s Hreach)) as Hbest.
  rewrite <- Hbest.
  split; [|split; [|split; [|split; [|split]]]].
  - unfold gameOver. rewrite Hrun. reflexivity.
  - intros Hgt. unfold gameOver. rewrite Hrun. cbn.
    apply Z.gtb_gt in Hgt. rewrite Hgt. split; reflexivity.
  - intros Hle. unfold gameOver. rewrite Hrun. cbn.
    destruct (scoreRef s >? highScore s)%Z eqn:Hgt;
      [apply Z.gtb_gt in Hgt; lia | split; reflexivity].
  - unfold gameOver. rewrite Hrun. cbn.
    destruct (scoreRef s >? highScore s)%Z eqn:Hgt; cbn.
    + apply Z.gtb_gt in Hgt. lia.
    + rewrite <- Hbest. rewrite Z.gtb_ltb in Hgt. apply Z.ltb_ge in Hgt. lia.
  - unfold gameOver. rewrite Hrun. cbn.
    destruct (scoreRef s >? highScore s)%Z; [reflexivity | exact Hbest].
  - intros time rnd.
    rewrite (gameLoop_running time rnd s Hrun). cbv zeta.
    destruct (existsb _ _); [|discriminate].
    intros _. unfold gameOver. rewrite Hrun. cbn. repeat split.
Qed.

Lemma best_score_persistence_witness :
  reachable (gameLoop 16 (draws 0.1) started) /\
  gameStateRef (gameLoop 16 (draws 0.1) started) = PLAYING /\
  localStorage (gameOver (gameLoop 16 (draws 0.1) started)) = Some 1%Z /\
  localStorage (gameOver started) = None.
Proof.
  assert (reachable started) as Hs.
  { exact (reachable_step (ClickStart 0) _ (reachable_init None)). }
  assert (reachable (gameLoop 16 (draws 0.1) started)) as Hs1.
  { exact (reachable_step (Frame 16 (draws 0.1)) _ Hs). }
  split; [exact Hs1|]. split; [reflexivity|]. split.
  - pose proof (best_score_persistence _ Hs1 eq_refl) as H.
    cbv zeta in H. destruct H as (_ & Hgt & _).
    exact (proj1 (Hgt eq_refl)).
  - pose proof (best_score_persistence _ Hs eq_refl) as H.
    cbv zeta in H. destruct H as (_ & _ & Hle & _).
    refine (proj1 (Hle _)). discriminate.
Defined.

(** C7.  In every reachable state the lane of the player is 0, 1 or 2.
    The arrow keys and [a], [d] call [movePlayer] with [-1] or [+1];
    [movePlayer] adds the direction and clamps the sum into [0, 2], so
    that a step off the road leaves the lane where it is; [startGame]
    puts the player in lane 1; no other event changes the lane. *)
Theorem lane_stays_on_road (s : AppState) :
  reachable s ->
  let lane (st : AppState) := GameObject.lane (playerRef st) in
  (lane s = 0 \/ lane s = 1 \/ lane s = 2)%Z /\
  (forall dir,
      lane (movePlayer dir s) = Z.max 0 (Z.min 2 (lane s + dir)) /\
      (0 <= lane (movePlayer dir s) <= 2)%Z) /\
  (lane (movePlayer (-1) s) = if (lane s =? 0)%Z then 0 else lane s - 1)%Z /\
  (lane (movePlayer 1 s) = if (lane s =? 2)%Z then 2 else lane s + 1)%Z /\
  (forall key,
      handleKeyDown key s = s \/
      handleKeyDown key s = movePlayer (-1) s \/
      handleKeyDown key s = movePlayer 1 s) /\
  (forall now, lane (startGame now s) = 1%Z) /\
  (forall e,
      match e with
      | KeyDown _ | ClickStart _ => True
      | _ => lane (handle e s) = lane s
      end).
Proof.
  intros Hreach. cbv zeta.
  pose proof (inv_lane s (reachable_Inv s Hreach)) as Hlane.
  split; [lia|]. split; [|split; [|split; [|split; [|split]]]].
  - intros dir. cbn [movePlayer playerRef GameObject.lane]. lia.
  - cbn [movePlayer playerRef GameObject.lane].
    destruct (GameObject.lane (playerRef s) =? 0)%Z eqn:E;
      [apply Z.eqb_eq in E | apply Z.eqb_neq in E]; lia.
  - cbn [movePlayer playerRef GameObject.lane].
    destruct (GameObject.lane (playerRef s) =? 2)%Z eqn:E;
      [apply Z.eqb_eq in E | apply Z.eqb_neq in E]; lia.
  - intros key. unfold handleKeyDown.
    destruct (negb _); [auto|]. destruct key; auto.
  - intros now. reflexivity.
  - intros e. apply handle_lane_other.
Qed.

Lemma lane_stays_on_road_witness :
  reachable (run [ClickStart 0; KeyDown ArrowLeft; KeyDown KeyA]
                 (initialState None)) /\
  GameObject.lane
    (playerRef
       (run [ClickStart 0; KeyDown ArrowLeft; KeyDown KeyA]
            (initialState None))) = 0%Z.
Proof.
  assert (reachable (run [ClickStart 0; KeyDown ArrowLeft; KeyDown KeyA]
                         (initialState None))) as Hs.
  { apply reachable_run, reachable_init. }
  split; [exact Hs|].
  pose proof (lane_stays_on_road _ Hs) as H. cbv zeta in H.
  destruct H as ([H | [H | H]] & _);
    [exact H | discriminate H | discriminate H].
Defined.

(** ** Idle frames *)

(** C8.  A frame that arrives while the session is not running returns at
    once: the whole state, and with it the score, the speed, the phase,
    the player and both lists, is the one before. *)
Theorem idle_frame_is_noop (time : Q) (rnd : nat -> Q) (s : AppState) :
  gameStateRef s <> PLAYING -> gameLoop time rnd s = s.
Proof. apply gameLoop_idle. Qed.

Lemma idle_frame_is_noop_witness :
  gameStateRef (initialState (Some 7%Z)) <> PLAYING /\
  gameLoop 16 (draws 0.1) (initialState (Some 7%Z)) = initialState (Some 7%Z).
Proof.
  assert (gameStateRef (initialState (Some 7%Z)) <> PLAYING) as H
    by discriminate.
  split; [exact H|].
  exact (idle_frame_is_noop 16 (draws 0.1) (initialState (Some 7%Z)) H).
Defined.



(** C10, as amended.  The time stamp of a frame reaches one place only,
    [lastTimeRef], where a running frame stores it; [deltaTime] is not
    used.  Two frames with the same draws, on states that agree on
    everything but [lastTimeRef], leave states that again agree on
    everything but [lastTimeRef], whatever their time stamps. *)
Theorem frame_ignores_time_stamp (t1 t2 : Q) (rnd : nat -> Q)
    (s1 s2 : AppState) :
  withLastTime 0 s1 = withLastTime 0 s2 ->
  withLastTime 0 (gameLoop t1 rnd s1) = withLastTime 0 (gameLoop t2 rnd s2) /\
  (gameStateRef s1 = PLAYING -> lastTimeRef (gameLoop t1 rnd s1) = t1) /\
  (gameStateRef s1 <> PLAYING ->
   lastTimeRef (gameLoop t1 rnd s1) = lastTimeRef s1).
Proof.
  intros Hsame. split; [|split].
  - rewrite (gameLoop_forgets_time t1 rnd s1).
    rewrite (gameLoop_forgets_time t2 rnd s2).
    rewrite Hsame. reflexivity.
  - intros Hrun. rewrite (gameLoop_running t1 rnd s1 Hrun). cbv zeta.
    destruct (existsb _ _); [unfold gameOver|]; reflexivity.
  - intros Hidle. rewrite gameLoop_idle by exact Hidle. reflexivity.
Qed.

Lemma frame_ignores_time_stamp_witness :
  withLastTime 0 started = withLastTime 0 (withLastTime 99 started) /\
  withLastTime 0 (gameLoop 16 (draws 0.1) started) =
  withLastTime 0 (gameLoop 1016 (draws 0.1) (withLastTime 99 started)).
Proof.
  split; [reflexivity|].
  exact (proj1 (frame_ignores_time_stamp 16 1016 (draws 0.1) started
                  (withLastTime 99 started) eq_refl)).
Defined.

(** C10, as stated, fails: the frame stores its time stamp, so two time
    stamps on the same state with the same draws leave two states. *)
Lemma time_stamp_is_stored :
  reachable started /\
  gameStateRef started = PLAYING /\
  gameLoop 16 (draws 0.1) started <> gameLoop 32 (draws 0.1) started.
Proof.
  split; [exact (reachable_step (ClickStart 0) _ (reachable_init None))|].
  split; [reflexivity|].
  intros Heq. apply (f_equal lastTimeRef) in Heq.
  vm_compute in Heq. discriminate Heq.
Qed.

(** * Further invariants *)

(** ** Remainders *)

Lemma Qtrunc_floor (a : Q) : 0 <= a -> Qtrunc a = Qfloor a.
Proof.
  destruct a as [n d]. unfold Qle, Qtrunc, Qfloor. cbn. intros Hn.
  apply Z.quot_div_nonneg; lia.
Qed.

Lemma Qrem_range (a m : Q) : 0 <= a -> 0 < m -> 0 <= Qrem a m < m.
Proof.
  intros Ha Hm. unfold Qrem.
  assert (0 <= a / m) as Hq.
  { apply Qle_shift_div_l; [exact Hm | lra]. }
  rewrite (Qtrunc_floor _ Hq).
  pose proof (Qfloor_le (a / m)) as Hlo.
  pose proof (Qlt_floor (a / m)) as Hhi.
  rewrite inject_Z_plus in Hhi. change (inject_Z 1) with 1 in Hhi.
  assert (a == a / m * m) as Ham.
  { field. intros H0. rewrite H0 in Hm. discriminate Hm. }
  set (f := inject_Z (Qfloor (a / m))) in *.
  set (q := a / m) in *.
  split.
  - assert (f * m <= q * m) by (apply Qmult_le_compat_r; lra). lra.
  - assert (q * m < (f + 1) * m) by (apply Qmult_lt_compat_r; lra). lra.
Qed.

Lemma Qrem_small (a m : Q) : 0 <= a -> a < m -> Qrem a m == a.
Proof.
  intros Ha Hm. unfold Qrem.
  assert (0 < m) as Hpos by lra.
  assert (0 <= a / m) as Hq.
  { apply Qle_shift_div_l; [exact Hpos | lra]. }
  assert (a / m < 1) as Hq1.
  { apply Qlt_shift_div_r; [exact Hpos | lra]. }
  rewrite (Qtrunc_floor _ Hq).
  assert (Qfloor (a / m) = 0%Z) as ->.
  { apply Qfloor_unique. change (inject_Z 0) with 0.
    change (inject_Z (0 + 1)) with 1. split; assumption. }
  change (inject_Z 0) with 0. ring.
Qed.

(** ** Spacing of a list *)

Section Spacing.

Context {A : Type} (y : A -> Q).

Lemma spacedBy_filter (f : A -> bool) (d : Q) (l : list A) :
  spacedBy y d l -> spacedBy y d (filter f l).
Proof.
  induction l as [|a l IH]; cbn [filter spacedBy]; [trivial|].
  intros [Hall Hl]. destruct (f a); [|apply IH; exact Hl].
  cbn [spacedBy]. split; [|apply IH; exact Hl].
  rewrite Forall_forall in *. intros b Hin.
  apply filter_In in Hin. apply Hall. tauto.
Qed.

Lemma spacedBy_map (g : A -> A) (v d : Q) (l : list A) :
  (forall a, y (g a) = y a + v) ->
  spacedBy y d l -> spacedBy y d (map g l).
Proof.
  intros Hg. induction l as [|a l IH]; cbn [map spacedBy]; [trivial|].
  intros [Hall Hl]. split; [|apply IH; exact Hl].
  rewrite Forall_forall in *. intros b Hin.
  apply in_map_iff in Hin. destruct Hin as (b0 & <- & Hin0).
  rewrite !Hg. specialize (Hall b0 Hin0). lra.
Qed.

Lemma spacedBy_app (d : Q) (l : list A) (n : A) :
  spacedBy y d l ->
  Forall (fun a => y n + d < y a) l ->
  spacedBy y d (l ++ [n]).
Proof.
  induction l as [|a l IH]; cbn [app spacedBy].
  - intros _ _. split; [constructor | exact I].
  - intros [Hall Hl] Hge. inversion Hge as [|? ? Ha Hrest]; subst.
    split; [|apply IH; assumption].
    apply Forall_app. split; [exact Hall|].
    constructor; [exact Ha | constructor].
Qed.

Lemma spacedBy_lowest (d : Q) (l : list A) (z : A) :
  0 <= d -> spacedBy y d l -> lastOf l = Some z ->
  Forall (fun a => y z <= y a) l.
Proof.
  intros Hd. induction l as [|a l IH]; intros Hsp Hlast; [constructor|].
  destruct Hsp as [Hall Hl].
  destruct l as [|b l'].
  - cbn in Hlast. injection Hlast as <-.
    constructor; [apply Qle_refl | constructor].
  - assert (lastOf (b :: l') = Some z) as Hlast'.
    { unfold lastOf in *. cbn [length] in *.
      replace (S (S (length l')) - 1)%nat with (S (length l')) in Hlast
        by lia.
      replace (S (length l') - 1)%nat with (length l') by lia.
      exact Hlast. }
    specialize (IH Hl Hlast').
    constructor; [|exact IH].
    rewrite Forall_forall in Hall.
    pose proof (Hall z (lastOf_In _ _ Hlast')) as Hz. lra.
Qed.
End Spacing.

(** ** When the spawners act *)

Lemma landmarkGate_empty (rnd : nat -> Q) (k : nat) :
  landmarkGate [] rnd k = (true, k).
Proof. reflexivity. Qed.

Lemma spawnObstacles_cases (track : Track.t) (kept : list GameObject.t)
    (rnd : nat -> Q) (k : nat) :
  fst (spawnObstacles track kept rnd k) = kept \/
  (exists lane type,
      fst (spawnObstacles track kept rnd k)
        = kept ++ [newObstacle track lane type]) /\
  (kept = [] \/
   exists lastObs, lastOf kept = Some lastObs /\ 200 < GameObject.y lastObs).
Proof.
  rewrite spawnObstacles_gate. cbv zeta.
  destruct kept as [|o l].
  - right. split; [|left; reflexivity].
    rewrite obstacleGate_empty. cbn [fst snd]. unfold drawnObstacle. eauto.
  - destruct (lastOf_nonempty (o :: l)) as [lastObs Hlast]; [discriminate|].
    rewrite (obstacleGate_nonempty _ _ rnd k Hlast).
    destruct (Qltb 200 (GameObject.y lastObs)) eqn:Hy;
      [destruct (Qltb (rnd k) 0.02)|]; cbn [fst snd]; auto.
    right. apply Qltb_lt in Hy. split.
    + unfold drawnObstacle. eauto.
    + right. eauto.
Qed.

Lemma spawnLandmarks_cases (track : Track.t) (kept : list Landmark.t)
    (rnd : nat -> Q) (k : nat) :
  fst (spawnLandmarks track kept rnd k) = kept \/
  (exists k',
      fst (spawnLandmarks track kept rnd k)
        = kept ++ [drawnLandmark track rnd k']) /\
  (kept = [] \/
   exists lastLm, lastOf kept = Some lastLm /\ 400 < Landmark.y lastLm).
Proof.
  rewrite spawnLandmarks_gate. cbv zeta.
  destruct kept as [|o l].
  - right. split; [|left; reflexivity].
    rewrite landmarkGate_empty. cbn [fst snd]. eauto.
  - destruct (lastOf_nonempty (o :: l)) as [lastLm Hlast]; [discriminate|].
    rewrite (landmarkGate_nonempty _ _ rnd k Hlast).
    destruct (Qltb 400 (Landmark.y lastLm)) eqn:Hy;
      [destruct (Qltb (rnd k) 0.01)|]; cbn [fst snd]; auto.
    right. apply Qltb_lt in Hy. split; [eauto | right; eauto].
Qed.

(** ** The further invariants hold *)

Lemma keptObstacles_shape (s : AppState) :
  0 < speedRef s ->
  Forall obstacleShape (obstaclesRef s) ->
  Forall obstacleShape (keptObstacles s).
Proof.
  intros Hspeed Hall. apply Forall_forall. intros o Hin.
  unfold keptObstacles in Hin. apply filter_In in Hin.
  destruct Hin as [Hmap _]. apply in_map_iff in Hmap.
  destruct Hmap as (o0 & <- & Hin0).
  rewrite Forall_forall in Hall.
  destruct (Hall o0 Hin0) as (Hx & Hw & Hh & Hy).
  pose proof (currentSpeed_gt s) as Hv.
  unfold obstacleShape. cbn [moveObstacle GameObject.x GameObject.y
    GameObject.width GameObject.height GameObject.lane].
  repeat split; try assumption. lra.
Qed.

Lemma keptLandmarks_shape (s : AppState) :
  0 < speedRef s ->
  Forall landmarkShape (landmarksRef s) ->
  Forall landmarkShape (keptLandmarks s).
Proof.
  intros Hspeed Hall. apply Forall_forall. intros lm Hin.
  unfold keptLandmarks in Hin. apply filter_In in Hin.
  destruct Hin as [Hmap _]. apply in_map_iff in Hmap.
  destruct Hmap as (l0 & <- & Hin0).
  rewrite Forall_forall in Hall.
  destruct (Hall l0 Hin0) as (Hx & Hy).
  pose proof (currentSpeed_gt s) as Hv.
  unfold landmarkShape. cbn [moveLandmark Landmark.x Landmark.y Landmark.side].
  split; [assumption | lra].
Qed.

Lemma keptObstacles_spaced (s : AppState) (d : Q) :
  spacedBy GameObject.y d (obstaclesRef s) ->
  spacedBy GameObject.y d (keptObstacles s).
Proof.
  intros H. unfold keptObstacles.
  apply spacedBy_filter.
  apply (spacedBy_map GameObject.y _ (currentSpeed s)); [reflexivity | exact H].
Qed.

Lemma keptLandmarks_spaced (s : AppState) (d : Q) :
  spacedBy Landmark.y d (landmarksRef s) ->
  spacedBy Landmark.y d (keptLandmarks s).
Proof.
  intros H. unfold keptLandmarks.
  apply spacedBy_filter.
  apply (spacedBy_map Landmark.y _ (currentSpeed s)); [reflexivity | exact H].
Qed.

Lemma spawnObstacles_shape (track : Track.t) (kept : list GameObject.t)
    (rnd : nat -> Q) (k : nat) :
  Forall obstacleShape kept ->
  spacedBy GameObject.y 280 kept ->
  Forall obstacleShape (fst (spawnObstacles track kept rnd k)) /\
  spacedBy GameObject.y 280 (fst (spawnObstacles track kept rnd k)).
Proof.
  intros Hshape Hsp.
  destruct (spawnObstacles_cases track kept rnd k)
    as [-> | [(lane & type & ->) Hwhy]]; [split; assumption|].
  split.
  - apply Forall_app. split; [exact Hshape|].
    constructor; [|constructor].
    unfold obstacleShape. cbn. repeat split. apply Qle_refl.
  - apply spacedBy_app; [exact Hsp|].
    destruct Hwhy as [-> | (lastObs & Hlast & Hy)]; [constructor|].
    assert (0 <= 280) as Hd by discriminate.
    pose proof (spacedBy_lowest GameObject.y 280 kept lastObs Hd Hsp Hlast)
      as Hlow.
    rewrite Forall_forall in *. intros a Ha. specialize (Hlow a Ha).
    cbn [newObstacle GameObject.y]. unfold OBSTACLE_HEIGHT. lra.
Qed.

Lemma spawnLandmarks_shape (track : Track.t) (kept : list Landmark.t)
    (rnd : nat -> Q) (k : nat) :
  Forall landmarkShape kept ->
  spacedBy Landmark.y 600 kept ->
  Forall landmarkShape (fst (spawnLandmarks track kept rnd k)) /\
  spacedBy Landmark.y 600 (fst (spawnLandmarks track kept rnd k)).
Proof.
  intros Hshape Hsp.
  destruct (spawnLandmarks_cases track kept rnd k)
    as [-> | [(k' & ->) Hwhy]]; [split; assumption|].
  split.
  - apply Forall_app. split; [exact Hshape|].
    constructor; [|constructor].
    unfold landmarkShape, drawnLandmark. cbn.
    split; [reflexivity | apply Qle_refl].
  - apply spacedBy_app; [exact Hsp|].
    destruct Hwhy as [-> | (lastLm & Hlast & Hy)]; [constructor|].
    assert (0 <= 600) as Hd by discriminate.
    pose proof (spacedBy_lowest Landmark.y 600 kept lastLm Hd Hsp Hlast)
      as Hlow.
    rewrite Forall_forall in *. intros a Ha. specialize (Hlow a Ha).
    unfold drawnLandmark. cbn [Landmark.y]. lra.
Qed.

Lemma sync_score (n sc : Z) :
  (0 <= n)%Z -> sc = (10 * (n / 10))%Z ->
  (if (Z.rem (n + 1) 10 =? 0)%Z then (n + 1)%Z else sc)
  = (10 * ((n + 1) / 10))%Z.
Proof.
  intros Hn ->.
  rewrite Z.rem_mod_nonneg by lia.
  pose proof (Z.div_mod n 10 ltac:(lia)) as H1.
  pose proof (Z.mod_pos_bound n 10 ltac:(lia)) as H2.
  pose proof (Z.div_mod (n + 1) 10 ltac:(lia)) as H3.
  pose proof (Z.mod_pos_bound (n + 1) 10 ltac:(lia)) as H4.
  destruct (((n + 1) mod 10) =? 0)%Z eqn:E;
    [apply Z.eqb_eq in E | apply Z.eqb_neq in E]; lia.
Qed.

Lemma Inv2_initial (saved : option Z) : Inv2 (initialState saved).
Proof.
  constructor; cbn [initialState gameState gameStateRef speedRef
    roadOffsetRef scoreRef score highScore playerRef obstaclesRef
    landmarksRef].
  - exact I.
  - vm_compute. discriminate.
  - split; vm_compute; [discriminate | reflexivity].
  - lia.
  - reflexivity.
  - discriminate.
  - unfold playerShape. cbn. split; [vm_compute; reflexivity | repeat split].
  - constructor.
  - constructor.
  - exact I.
  - exact I.
Qed.

Lemma Inv2_movePlayer (dir : Z) (s : AppState) :
  Inv2 s -> Inv2 (movePlayer dir s).
Proof.
  intros [Hph Hsp Hrd Hsr Hsc Hov Hpl Ho Hl Hgo Hgl].
  constructor; try assumption.
  destruct Hpl as (Hx & Hy & Hw & Hh).
  unfold playerShape. cbn. repeat split; try assumption.
Qed.

Lemma Inv2_startGame (now : Q) (s : AppState) :
  Inv s -> Inv2 s -> Inv2 (startGame now s).
Proof.
  intros HI [Hph Hsp Hrd Hsr Hsc Hov Hpl Ho Hl Hgo Hgl].
  constructor; cbn [startGame gameState gameStateRef speedRef roadOffsetRef
    scoreRef score highScore playerRef obstaclesRef landmarksRef].
  - exact I.
  - assert (0 <= inject_Z
                   (Upgrades.engine
                      (CarCustomization.upgrades (customization s))))
      as Hinj.
    { change 0 with (inject_Z 0). rewrite <- Zle_Qle.
      apply (inv_engine s HI). }
    assert (8 <= Track.initialSpeed (selectedTrackRef s)) as Htrack.
    { destruct (inv_track s HI) as [<- | [<- | [<- | []]]];
        vm_compute; discriminate. }
    assert (0 <= inject_Z
                   (Upgrades.engine
                      (CarCustomization.upgrades (customization s))) * 1.0)
      as Hbonus by nra.
    lra.
  - exact Hrd.
  - lia.
  - reflexivity.
  - discriminate.
  - destruct Hpl as (Hx & Hy & Hw & Hh).
    unfold playerShape.
    cbn [GameObject.x GameObject.y GameObject.width GameObject.height
         GameObject.lane].
    split; [vm_compute; reflexivity|].
    split; [exact Hy|]. split; [exact Hw | exact Hh].
  - constructor.
  - constructor.
  - exact I.
  - exact I.
Qed.

Lemma Inv2_gameLoop (time : Q) (rnd : nat -> Q) (s : AppState) :
  Inv s -> Inv2 s -> Inv2 (gameLoop time rnd s).
Proof.
  intros HI HI2.
  destruct (gameStateRef s) eqn:Hg;
    try (rewrite gameLoop_idle by congruence; exact HI2).
  destruct HI2 as [Hph Hsp Hrd Hsr Hsc Hov Hpl Ho Hl Hgo Hgl].
  pose proof (inv_speed s HI) as Hpos.
  pose proof (currentSpeed_gt s) as Hcs.
  destruct (spawnObstacles_shape (selectedTrackRef s) (keptObstacles s)
              rnd O (keptObstacles_shape s Hpos Ho)
              (keptObstacles_spaced s 280 Hgo)) as [Hobs Hgap].
  destruct (spawnLandmarks_shape (selectedTrackRef s) (keptLandmarks s) rnd
              (snd (spawnObstacles (selectedTrackRef s) (keptObstacles s)
                      rnd O))
              (keptLandmarks_shape s Hpos Hl)
              (keptLandmarks_spaced s 600 Hgl)) as [Hlms HgapL].
  assert (0 <= Qrem (roadOffsetRef s + currentSpeed s) 100 < 100) as Hroad.
  { apply Qrem_range; [lra | reflexivity]. }
  assert (phaseOK s -> gameState s = PLAYING) as Hscreen.
  { unfold phaseOK. rewrite Hg. destruct (gameState s); tauto. }
  specialize (Hscreen Hph).
  rewrite (gameLoop_running time rnd s Hg). cbv zeta.
  destruct (existsb _ _).
  - unfold gameOver.
    cbn [gameStateRef isPlaying negb scoreRef highScore localStorage].
    constructor; cbn [gameState gameStateRef speedRef roadOffsetRef scoreRef
      score highScore playerRef obstaclesRef landmarksRef];
      try assumption.
    + exact I.
    + lra.
    + intros _. destruct (scoreRef s >? highScore s)%Z eqn:E; [lia|].
      rewrite Z.gtb_ltb in E. apply Z.ltb_ge in E. exact E.
  - constructor; cbn [gameState gameStateRef speedRef roadOffsetRef scoreRef
      score highScore playerRef obstaclesRef landmarksRef];
      try assumption.
    + unfold phaseOK. cbn. rewrite Hscreen. exact I.
    + lra.
    + lia.
    + apply sync_score; assumption.
    + discriminate.
Qed.

Lemma shows_true (g : GameState) (s : AppState) :
  shows g s = true -> gameState s = g.
Proof. unfold shows. destruct g, (gameState s); congruence. Qed.

Lemma Inv2_setGameState (g : GameState) (s : AppState) :
  (g = START \/ g = GARAGE) ->
  (gameState s = START \/ gameState s = GARAGE) ->
  Inv2 s -> Inv2 (setGameState g s).
Proof.
  intros Hg Hs [Hph Hsp Hrd Hsr Hsc Hov Hpl Ho Hl Hgo Hgl].
  constructor; try assumption.
  unfold phaseOK in *. cbn.
  destruct Hs as [Hs | Hs]; rewrite Hs in Hph;
    destruct Hg as [-> | ->]; destruct (gameStateRef s); tauto.
Qed.

Lemma Inv2_handle (e : Event) (s : AppState) :
  Inv s -> Inv2 s -> Inv2 (handle e s).
Proof.
  intros HI HI2. destruct e; cbn [handle].
  - destruct (nth_error TRACKS i) as [track|]; [|exact HI2].
    destruct (shows START s); [|exact HI2].
    destruct HI2 as [Hph Hsp Hrd Hsr Hsc Hov Hpl Ho Hl Hgo Hgl].
    constructor; assumption.
  - destruct (shows START s || shows GAMEOVER s);
      [apply Inv2_startGame; assumption | exact HI2].
  - destruct (shows START s) eqn:Hsh; [|exact HI2].
    apply Inv2_setGameState; auto. left. apply shows_true. exact Hsh.
  - destruct (shows GARAGE s) eqn:Hsh; [|exact HI2].
    apply Inv2_setGameState; auto. right. apply shows_true. exact Hsh.
  - destruct (shows GARAGE s); [|exact HI2].
    destruct HI2 as [Hph Hsp Hrd Hsr Hsc Hov Hpl Ho Hl Hgo Hgl].
    constructor; assumption.
  - destruct (shows GARAGE s); [|exact HI2].
    destruct HI2 as [Hph Hsp Hrd Hsr Hsc Hov Hpl Ho Hl Hgo Hgl].
    constructor; assumption.
  - destruct (shows GARAGE s); [|exact HI2].
    destruct HI2 as [Hph Hsp Hrd Hsr Hsc Hov Hpl Ho Hl Hgo Hgl].
    constructor; assumption.
  - destruct (shows GARAGE s && _); [|exact HI2].
    destruct HI2 as [Hph Hsp Hrd Hsr Hsc Hov Hpl Ho Hl Hgo Hgl].
    constructor; assumption.
  - destruct (shows GARAGE s && _); [|exact HI2].
    destruct HI2 as [Hph Hsp Hrd Hsr Hsc Hov Hpl Ho Hl Hgo Hgl].
    constructor; assumption.
  - unfold handleKeyDown.
    destruct (negb (isPlaying (gameState s))); [exact HI2|].
    destruct key; try exact HI2; apply Inv2_movePlayer; exact HI2.
  - apply Inv2_gameLoop; assumption.
Qed.

Lemma reachable_Inv2 (s : AppState) : reachable s -> Inv2 s.
Proof.
  induction 1 as [saved | e s Hreach IH].
  - apply Inv2_initial.
  - apply Inv2_handle; [apply reachable_Inv; exact Hreach | exact IH].
Qed.

(** ** Events after the game is over, and after the menu *)

Lemma handle_over (e : Event) (s : AppState) :
  gameState s = GAMEOVER -> gameStateRef s = GAMEOVER ->
  match e with ClickStart _ => false | _ => true end = true ->
  handle e s = s.
Proof.
  intros Hscreen Href He.
  assert (shows START s = false) as HS
    by (unfold shows; rewrite Hscreen; reflexivity).
  assert (shows GARAGE s = false) as HG
    by (unfold shows; rewrite Hscreen; reflexivity).
  destruct e; try discriminate; cbn [handle]; rewrite ?HS, ?HG;
    cbn [andb]; try reflexivity.
  - destruct (nth_error TRACKS i); reflexivity.
  - unfold handleKeyDown. rewrite Hscreen. reflexivity.
  - apply gameLoop_idle. congruence.
Qed.

Lemma run_over (es : list Event) (s : AppState) :
  gameState s = GAMEOVER -> gameStateRef s = GAMEOVER ->
  sameSession es = true -> run es s = s.
Proof.
  intros Hscreen Href.
  induction es as [|e es IH]; intros Hes; cbn; [reflexivity|].
  cbn in Hes. apply andb_true_iff in Hes. destruct Hes as [He Hes].
  rewrite (handle_over e s Hscreen Href He). apply IH. exact Hes.
Qed.

Lemma gameLoop_setup (time : Q) (rnd : nat -> Q) (s : AppState) :
  selectedTrackRef (gameLoop time rnd s) = selectedTrackRef s /\
  customization (gameLoop time rnd s) = customization s.
Proof.
  destruct (gameStateRef s) eqn:Hg;
    try (rewrite gameLoop_idle by congruence; split; reflexivity).
  rewrite (gameLoop_running time rnd s Hg). cbv zeta.
  destruct (existsb _ _); [unfold gameOver|]; split; reflexivity.
Qed.

(** ** Scores along a run *)

Lemma handle_best (e : Event) (s : AppState) :
  (highScore s <= highScore (handle e s))%Z /\
  (localStorage (handle e s) = localStorage s \/
   exists v, localStorage (handle e s) = Some v).
Proof.
  destruct e; cbn [handle].
  - destruct (nth_error TRACKS i); [|split; [lia | auto]].
    destruct (shows START s); split; cbn; auto; lia.
  - destruct (shows START s || shows GAMEOVER s); split; cbn; auto; lia.
  - destruct (shows START s); split; cbn; auto; lia.
  - destruct (shows GARAGE s); split; cbn; auto; lia.
  - destruct (shows GARAGE s); split; cbn; auto; lia.
  - destruct (shows GARAGE s); split; cbn; auto; lia.
  - destruct (shows GARAGE s); split; cbn; auto; lia.
  - destruct (shows GARAGE s && _); split; cbn; auto; lia.
  - destruct (shows GARAGE s && _); split; cbn; auto; lia.
  - unfold handleKeyDown. destruct (negb _); [split; [lia | auto]|].
    destruct key; split; cbn; auto; lia.
  - destruct (gameStateRef s) eqn:Hg;
      try (rewrite gameLoop_idle by congruence; split; [lia | auto]).
    rewrite (gameLoop_running time rnd s Hg). cbv zeta.
    destruct (existsb _ _); [|split; cbn; auto; lia].
    unfold gameOver.
    cbn [gameStateRef isPlaying negb scoreRef highScore localStorage].
    destruct (scoreRef s >? highScore s)%Z eqn:E; split; eauto; lia.
Qed.

Lemma run_best (es : list Event) (s : AppState) :
  (highScore s <= highScore (run es s))%Z /\
  (localStorage s <> None -> localStorage (run es s) <> None).
Proof.
  revert s. induction es as [|e es IH]; intros s.
  - cbn. split; [lia | auto].
  - change (run (e :: es) s) with (run es (handle e s)).
    destruct (handle_best e s) as [Hhigh Hstore].
    destruct (IH (handle e s)) as [IHhigh IHstore].
    split; [lia|].
    intros Hsome. apply IHstore.
    destruct Hstore as [-> | [v ->]]; [exact Hsome | discriminate].
Qed.

(** ** Frames that keep the session running *)

Lemma run_frames_idle (fs : list (Q * (nat -> Q))) (s : AppState) :
  gameStateRef s <> PLAYING -> run (framesOf fs) s = s.
Proof.
  intros Hidle. induction fs as [|f fs IH]; cbn; [reflexivity|].
  rewrite gameLoop_idle by exact Hidle. exact IH.
Qed.

Lemma gameLoop_phase_cases (time : Q) (rnd : nat -> Q) (s : AppState) :
  gameStateRef s = PLAYING ->
  gameStateRef (gameLoop time rnd s) = PLAYING \/
  gameStateRef (gameLoop time rnd s) = GAMEOVER.
Proof.
  intros Hrun. rewrite (gameLoop_phase time rnd s Hrun).
  destruct (existsb _ _); auto.
Qed.

Lemma score_tick (time : Q) (rnd : nat -> Q) (s : AppState) :
  gameStateRef s = PLAYING ->
  gameStateRef (gameLoop time rnd s) = PLAYING ->
  scoreRef (gameLoop time rnd s) = (scoreRef s + 1)%Z.
Proof.
  intros Hrun.
  rewrite (gameLoop_phase time rnd s Hrun), (gameLoop_score time rnd s Hrun).
  destruct (existsb _ _); [discriminate | reflexivity].
Qed.

Lemma effectiveIncrement_gameLoop (time : Q) (rnd : nat -> Q)
    (s : AppState) :
  effectiveIncrement (gameLoop time rnd s) = effectiveIncrement s.
Proof.
  destruct (gameLoop_setup time rnd s) as [Ht Hc].
  unfold effectiveIncrement. rewrite Ht, Hc. reflexivity.
Qed.

Lemma run_frames_running (fs : list (Q * (nat -> Q))) (s : AppState) :
  gameStateRef s = PLAYING ->
  gameStateRef (run (framesOf fs) s) = PLAYING ->
  scoreRef (run (framesOf fs) s) = (scoreRef s + Z.of_nat (length fs))%Z /\
  speedRef (run (framesOf fs) s)
    == speedRef s + inject_Z (Z.of_nat (length fs)) * effectiveIncrement s.
Proof.
  revert s. induction fs as [|[time rnd] fs IH]; intros s Hrun Hend.
  - cbn. split; [lia|]. change (inject_Z (Z.of_nat 0)) with 0. ring.
  - change (run (framesOf ((time, rnd) :: fs)) s)
      with (run (framesOf fs) (gameLoop time rnd s)) in *.
    destruct (gameLoop_phase_cases time rnd s Hrun) as [Hnext | Hstop].
    + destruct (IH _ Hnext Hend) as [IHscore IHspeed].
      pose proof (score_tick time rnd s Hrun Hnext) as Hscore.
      rewrite IHscore, IHspeed, Hscore.
      rewrite effectiveIncrement_gameLoop.
      rewrite (gameLoop_speed time rnd s Hrun). unfold currentSpeed.
      split.
      * cbn [length]. lia.
      * cbn [length]. rewrite Nat2Z.inj_succ. unfold Z.succ.
        rewrite inject_Z_plus. change (inject_Z 1) with 1. ring.
    + rewrite run_frames_idle in Hend by congruence. congruence.
Qed.

Lemma crashed_facts : reachable crashed /\ gameStateRef crashed = GAMEOVER.
Proof.
  destruct beforeCrash_facts as (Hreach & _ & Hover & _).
  unfold crashed. split; [|exact Hover].
  rewrite <- handle_Frame.
  exact (reachable_step (Frame 0 (draws 0.1)) beforeCrash Hreach).
Qed.

Lemma phaseOK_cases (s : AppState) :
  phaseOK s ->
  (gameState s = PLAYING <-> gameStateRef s = PLAYING) /\
  (gameState s = GAMEOVER <-> gameStateRef s = GAMEOVER) /\
  (gameStateRef s = START <-> gameState s = START \/ gameState s = GARAGE) /\
  gameStateRef s <> GARAGE.
Proof.
  unfold phaseOK.
  destruct (gameState s), (gameStateRef s); intros H; try contradiction;
    repeat split; try congruence; auto;
    try (intros [H0 | H0]; congruence).
Qed.

(** * Further properties of the code *)

(** X2.  Once a session is over nothing moves until the start button
    is pressed: every other event, stale frames and key presses included,
    leaves the whole state as it is; a second [gameOver] does nothing, so
    the best score is compared once per session.  The start button
    begins a new session with score 0 and empty lists and keeps the best
    score. *)
Theorem game_over_is_final (s : AppState) (es : list Event) :
  reachable s ->
  gameStateRef s = GAMEOVER ->
  sameSession es = true ->
  run es s = s /\
  gameOver s = s /\
  (forall now,
      gameStateRef (handle (ClickStart now) s) = PLAYING /\
      scoreRef (handle (ClickStart now) s) = 0%Z /\
      obstaclesRef (handle (ClickStart now) s) = [] /\
      landmarksRef (handle (ClickStart now) s) = [] /\
      highScore (handle (ClickStart now) s) = highScore s /\
      localStorage (handle (ClickStart now) s) = localStorage s).
Proof.
  intros Hreach Hover Hes.
  destruct (phaseOK_cases s (i2_phase s (reachable_Inv2 s Hreach)))
    as (_ & Hscreen & _).
  apply Hscreen in Hover as Hshown.
  split; [apply run_over; assumption|]. split.
  - unfold gameOver. rewrite Hover. reflexivity.
  - intros now. cbn [handle].
    assert (shows START s || shows GAMEOVER s = true) as ->.
    { unfold shows. rewrite Hshown. reflexivity. }
    repeat split.
Qed.

Lemma game_over_is_final_witness :
  reachable crashed /\
  gameStateRef crashed = GAMEOVER /\
  run [Frame 16 (draws 0.1); KeyDown ArrowRight; ClickGarage] crashed
    = crashed.
Proof.
  destruct crashed_facts as (Hreach & Hover).
  split; [exact Hreach|]. split; [exact Hover|].
  exact (proj1 (game_over_is_final crashed
                  [Frame 16 (draws 0.1); KeyDown ArrowRight; ClickGarage]
                  Hreach Hover eq_refl)).
Defined.

(** X4.  The best score never goes down, on the page or in the store,
    whatever happens, and the two stay equal; an item once written is
    never removed. *)
Theorem best_score_never_drops (s : AppState) (es : list Event) :
  reachable s ->
  (highScore s <= highScore (run es s))%Z /\
  (savedHighScore (localStorage s)
   <= savedHighScore (localStorage (run es s)))%Z /\
  (localStorage s <> None -> localStorage (run es s) <> None) /\
  highScore (run es s) = savedHighScore (localStorage (run es s)).
Proof.
  intros Hreach.
  destruct (run_best es s) as [Hhigh Hstore].
  pose proof (inv_best s (reachable_Inv s Hreach)) as Hb.
  pose proof (inv_best _ (reachable_Inv _ (reachable_run es s Hreach))) as Hb'.
  repeat split; try assumption. lia.
Qed.

Lemma best_score_never_drops_witness :
  reachable (initialState (Some 7%Z)) /\
  (7 <= highScore (run [ClickStart 0; Frame 16 (draws 0.1)]
                       (initialState (Some 7%Z))))%Z.
Proof.
  split; [apply reachable_init|].
  exact (proj1 (best_score_never_drops (initialState (Some 7%Z))
                  [ClickStart 0; Frame 16 (draws 0.1)]
                  (reachable_init (Some 7%Z)))).
Defined.

(** X5.  Frames add up: if a session is still running after [n] frames,
    whatever their time stamps and draws, its score has grown by [n] and
    its speed by [n] times the increment of the session. *)
Theorem running_frames_add_up (fs : list (Q * (nat -> Q))) (s : AppState) :
  gameStateRef s = PLAYING ->
  gameStateRef (run (framesOf fs) s) = PLAYING ->
  scoreRef (run (framesOf fs) s) = (scoreRef s + Z.of_nat (length fs))%Z /\
  speedRef (run (framesOf fs) s)
    == speedRef s + inject_Z (Z.of_nat (length fs)) * effectiveIncrement s.
Proof. apply run_frames_running. Qed.

Lemma running_frames_add_up_witness :
  gameStateRef started = PLAYING /\
  gameStateRef
    (run (framesOf [(16, draws 0.1); (32, draws 0.1)]) started) = PLAYING /\
  scoreRef (run (framesOf [(16, draws 0.1); (32, draws 0.1)]) started)
    = 2%Z.
Proof.
  assert (gameStateRef
            (run (framesOf [(16, draws 0.1); (32, draws 0.1)]) started)
          = PLAYING) as H by (vm_compute; reflexivity).
  split; [reflexivity|]. split; [exact H|].
  exact (proj1 (running_frames_add_up [(16, draws 0.1); (32, draws 0.1)]
                  started eq_refl H)).
Defined.

(** X6.  The road offset, advanced by the speed modulo 100 on every
    running frame, stays in [0, 100); the background offset
    [(roadOffset * 6) % CANVAS_HEIGHT] of [draw] is then [roadOffset * 6]
    itself, inside the canvas. *)
Theorem road_offset_in_period (s : AppState) :
  reachable s ->
  0 <= roadOffsetRef s < 100 /\
  scrollY s == roadOffsetRef s * 6 /\
  0 <= scrollY s < CANVAS_HEIGHT /\
  (forall time rnd,
      gameStateRef s = PLAYING ->
      roadOffsetRef (gameLoop time rnd s)
        = Qrem (roadOffsetRef s + (speedRef s + effectiveIncrement s)) 100).
Proof.
  intros Hreach.
  pose proof (i2_road s (reachable_Inv2 s Hreach)) as [Hlo Hhi].
  assert (scrollY s == roadOffsetRef s * 6) as Hscroll.
  { unfold scrollY. apply Qrem_small; unfold CANVAS_HEIGHT; lra. }
  split; [split; assumption|]. split; [exact Hscroll|]. split.
  - rewrite Hscroll. unfold CANVAS_HEIGHT. lra.
  - intros time rnd Hrun.
    rewrite (gameLoop_running time rnd s Hrun). cbv zeta.
    destruct (existsb _ _); [unfold gameOver|]; reflexivity.
Qed.

Lemma road_offset_in_period_witness :
  reachable (gameLoop 16 (draws 0.1) started) /\
  0 <= roadOffsetRef (gameLoop 16 (draws 0.1) started) < 100.
Proof.
  assert (reachable (gameLoop 16 (draws 0.1) started)) as Hs.
  { exact (reachable_step (Frame 16 (draws 0.1)) _
             (reachable_step (ClickStart 0) _ (reachable_init None))). }
  split; [exact Hs|].
  exact (proj1 (road_offset_in_period _ Hs)).
Defined.

(** X7.  The score the page shows is copied from the loop only when the
    loop's score is a multiple of 10: on every reachable state it is the
    loop's score rounded down to a multiple of 10, so it lags by at most
    9, on the game-over overlay as well. *)
Theorem shown_score_lags (s : AppState) :
  reachable s ->
  score s = (10 * (scoreRef s / 10))%Z /\
  (score s <= scoreRef s < score s + 10)%Z /\
  (score s = scoreRef s <-> (scoreRef s mod 10 = 0)%Z).
Proof.
  intros Hreach.
  pose proof (i2_score s (reachable_Inv2 s Hreach)) as Hsc.
  pose proof (Z.div_mod (scoreRef s) 10 ltac:(lia)) as H1.
  pose proof (Z.mod_pos_bound (scoreRef s) 10 ltac:(lia)) as H2.
  split; [exact Hsc|]. split; [lia|]. split; lia.
Qed.

Lemma shown_score_lags_witness :
  reachable (gameLoop 16 (draws 0.1) started) /\
  score (gameLoop 16 (draws 0.1) started) = 0%Z /\
  scoreRef (gameLoop 16 (draws 0.1) started) = 1%Z.
Proof.
  assert (reachable (gameLoop 16 (draws 0.1) started)) as Hs.
  { exact (reachable_step (Frame 16 (draws 0.1)) _
             (reachable_step (ClickStart 0) _ (reachable_init None))). }
  split; [exact Hs|].
  split; [|reflexivity].
  rewrite (proj1 (shown_score_lags _ Hs)). reflexivity.
Defined.

(** X8.  On the game-over overlay the "new record" line, which tests the
    shown score, appears exactly when the final score is positive, a
    multiple of 10 and equal to the best score: a record that is not a
    multiple of 10 is stored without the line, and a tie with the old
    best that is a multiple of 10 gets the line without being stored
    again. *)
Theorem record_badge (s : AppState) :
  reachable s ->
  gameStateRef s = GAMEOVER ->
  (scoreRef s <= highScore s)%Z /\
  (newRecordBadge s = true <->
   (0 < scoreRef s /\ scoreRef s mod 10 = 0 /\ highScore s = scoreRef s)%Z).
Proof.
  intros Hreach Hover.
  pose proof (reachable_Inv2 s Hreach) as HI2.
  pose proof (i2_over s HI2 Hover) as Hle.
  pose proof (i2_score s HI2) as Hsc.
  pose proof (i2_scoreRef s HI2) as Hnn.
  pose proof (Z.div_mod (scoreRef s) 10 ltac:(lia)) as H1.
  pose proof (Z.mod_pos_bound (scoreRef s) 10 ltac:(lia)) as H2.
  split; [exact Hle|].
  unfold newRecordBadge. rewrite andb_true_iff, Z.geb_le, Z.gtb_gt.
  split; intros H; lia.
Qed.

Lemma record_badge_witness :
  reachable crashed /\
  gameStateRef crashed = GAMEOVER /\
  (scoreRef crashed <= highScore crashed)%Z.
Proof.
  destruct crashed_facts as (Hreach & Hover).
  split; [exact Hreach|]. split; [exact Hover|].
  exact (proj1 (record_badge crashed Hreach Hover)).
Defined.

(** ** Lanes and rectangles *)

Lemma laneX_value (l : Z) (w : Q) :
  laneX l w == inject_Z l * (400 # 3) + (200 # 3) - w * (1 # 2).
Proof. unfold laneX, LANE_WIDTH, CANVAS_WIDTH. field. Qed.

Lemma lanes_overlap (lp lo : Z) (xp xo : Q) :
  xp == laneX lp 50 -> xo == laneX lo 50 ->
  (xp < xo + 50 /\ xo < xp + 50 <-> lp = lo).
Proof.
  intros Hp Ho. rewrite laneX_value in Hp, Ho.
  split.
  - intros [H1 H2].
    destruct (Z.lt_trichotomy lp lo) as [Hlt | [Heq | Hgt]]; [|exact Heq|].
    + assert (inject_Z (lp + 1) <= inject_Z lo) as Hz
        by (rewrite <- Zle_Qle; lia).
      rewrite inject_Z_plus in Hz. change (inject_Z 1) with 1 in Hz. lra.
    + assert (inject_Z (lo + 1) <= inject_Z lp) as Hz
        by (rewrite <- Zle_Qle; lia).
      rewrite inject_Z_plus in Hz. change (inject_Z 1) with 1 in Hz. lra.
  - intros ->. lra.
Qed.

Lemma collides_lane (p o : GameObject.t) :
  playerShape p -> obstacleShape o ->
  (collides p o = true <->
   GameObject.lane o = GameObject.lane p /\ 420 < GameObject.y o < 580).
Proof.
  intros (Hpx & Hpy & Hpw & Hph) (Hox & How & Hoh & Hoy).
  rewrite collides_overlap. unfold overlap.
  rewrite Hpy, Hpw, Hph, How, Hoh.
  assert (GameObject.x o == laneX (GameObject.lane o) 50) as Hox'
    by (rewrite Hox; reflexivity).
  pose proof (lanes_overlap _ _ _ _ Hpx Hox') as Hlanes.
  unfold CANVAS_HEIGHT, PLAYER_HEIGHT, PLAYER_WIDTH, OBSTACLE_WIDTH,
    OBSTACLE_HEIGHT in *.
  split.
  - intros (H1 & H2 & H3 & H4).
    split; [symmetry; apply Hlanes; split; assumption|]. split; lra.
  - intros (Hl & H3 & H4). symmetry in Hl. apply Hlanes in Hl.
    destruct Hl as [H1 H2]. repeat split; try assumption; lra.
Qed.

Lemma reachable_frame (time : Q) (rnd : nat -> Q) (s : AppState) :
  reachable s -> reachable (gameLoop time rnd s).
Proof.
  intros Hreach. rewrite <- handle_Frame. apply reachable_step. exact Hreach.
Qed.

(** X9.  In a reachable state an obstacle overlaps the player exactly
    when it is in the player's lane and its upper edge is strictly
    between 420 and 580: cars and obstacles are narrower than a lane and
    centred in it, and the player's row is fixed.  A running frame ends
    the session exactly when it leaves such an obstacle. *)
Theorem collision_needs_same_lane (time : Q) (rnd : nat -> Q)
    (s : AppState) :
  reachable s ->
  (forall obs,
      In obs (obstaclesRef s) ->
      (collides (playerRef s) obs = true <->
       GameObject.lane obs = GameObject.lane (playerRef s) /\
       420 < GameObject.y obs < 580)) /\
  (gameStateRef s = PLAYING ->
   (gameStateRef (gameLoop time rnd s) = GAMEOVER <->
    exists obs,
      In obs (obstaclesRef (gameLoop time rnd s)) /\
      GameObject.lane obs = GameObject.lane (playerRef s) /\
      420 < GameObject.y obs < 580)).
Proof.
  intros Hreach.
  assert (forall st, reachable st ->
            forall obs, In obs (obstaclesRef st) ->
              (collides (playerRef st) obs = true <->
               GameObject.lane obs = GameObject.lane (playerRef st) /\
               420 < GameObject.y obs < 580)) as Hchar.
  { intros st Hst obs Hin.
    pose proof (reachable_Inv2 st Hst) as HI2.
    pose proof (i2_obstacles st HI2) as Hall.
    rewrite Forall_forall in Hall.
    apply collides_lane; [exact (i2_player st HI2) | exact (Hall obs Hin)]. }
  split; [exact (Hchar s Hreach)|].
  intros Hrun.
  pose proof (Hchar _ (reachable_frame time rnd s Hreach)) as Hpost.
  rewrite gameLoop_player in Hpost.
  rewrite (gameLoop_phase time rnd s Hrun).
  rewrite (gameLoop_obstacles time rnd s Hrun) in *.
  destruct (existsb _ _) eqn:Hex.
  - apply existsb_exists in Hex. destruct Hex as (obs & Hin & Hc).
    split; [|reflexivity]. intros _. exists obs.
    split; [exact Hin | apply (Hpost obs Hin); exact Hc].
  - split; [discriminate|]. intros (obs & Hin & Hhit).
    apply (Hpost obs Hin) in Hhit.
    assert (existsb (collides (playerRef s))
              (fst (spawnObstacles (selectedTrackRef s) (keptObstacles s)
                      rnd O)) = true) as Hcontra
      by (apply existsb_exists; eauto).
    congruence.
Qed.

Lemma collision_needs_same_lane_witness :
  reachable beforeCrash /\
  exists obs,
    In obs (obstaclesRef (gameLoop 0 (draws 0.1) beforeCrash)) /\
    GameObject.lane obs = GameObject.lane (playerRef beforeCrash).
Proof.
  destruct beforeCrash_facts as (Hreach & Hrun & Hover & _).
  split; [exact Hreach|].
  destruct (proj1 (proj2 (collision_needs_same_lane 0 (draws 0.1)
                            beforeCrash Hreach) Hrun) Hover)
    as (obs & Hin & Hlane & _).
  exists obs. split; [exact Hin | exact Hlane].
Defined.

(** X10.  In every reachable state the player's rectangle is 50 by 80,
    in the row [y = 500], centred in its lane and inside it; every
    obstacle is 50 by 80, centred in its lane, with its upper edge
    from [-80] up to, not including, 600; every landmark is at [x = 20]
    on the left or [x = 320] on the right, between [-200] and 600. *)
Theorem entities_stay_in_bounds (s : AppState) :
  reachable s ->
  let p := playerRef s in
  (GameObject.y p == 500 /\
   GameObject.width p == 50 /\ GameObject.height p == 80 /\
   GameObject.x p
     == inject_Z (GameObject.lane p) * LANE_WIDTH + (125 # 3) /\
   inject_Z (GameObject.lane p) * LANE_WIDTH < GameObject.x p /\
   GameObject.x p + GameObject.width p
     < (inject_Z (GameObject.lane p) + 1) * LANE_WIDTH /\
   0 < GameObject.x p /\ GameObject.x p + GameObject.width p < CANVAS_WIDTH) /\
  (forall obs,
      In obs (obstaclesRef s) ->
      GameObject.width obs == 50 /\ GameObject.height obs == 80 /\
      GameObject.x obs
        == inject_Z (GameObject.lane obs) * LANE_WIDTH + (125 # 3) /\
      - (80) <= GameObject.y obs < 600) /\
  (forall lm,
      In lm (landmarksRef s) ->
      Landmark.x lm
        == match Landmark.side lm with left => 20 | right => 320 end /\
      - (200) <= Landmark.y lm < 600).
Proof.
  intros Hreach. cbv zeta.
  pose proof (reachable_Inv s Hreach) as HI.
  pose proof (reachable_Inv2 s Hreach) as HI2.
  destruct (i2_player s HI2) as (Hx & Hy & Hw & Hh).
  pose proof (inv_lane s HI) as Hlane.
  rewrite laneX_value in Hx.
  assert (0 <= inject_Z (GameObject.lane (playerRef s)) <= 2) as Hl.
  { split.
    - change 0 with (inject_Z 0). rewrite <- Zle_Qle. lia.
    - change 2 with (inject_Z 2). rewrite <- Zle_Qle. lia. }
  unfold LANE_WIDTH, CANVAS_WIDTH, CANVAS_HEIGHT, PLAYER_WIDTH,
    PLAYER_HEIGHT in *.
  unfold Qdiv. change (/ 3) with (1 # 3).
  split; [|split].
  - rewrite Hy, Hw, Hh, Hx.
    split; [reflexivity|]. split; [reflexivity|]. split; [reflexivity|].
    split; [lra|]. repeat split; lra.
  - intros obs Hin.
    pose proof (i2_obstacles s HI2) as Hall.
    rewrite Forall_forall in Hall.
    destruct (Hall obs Hin) as (Hox & How & Hoh & Hoy).
    pose proof (inv_obstacles s HI) as Hbelow.
    rewrite Forall_forall in Hbelow. specialize (Hbelow obs Hin).
    rewrite Hox, How, Hoh, laneX_value.
    unfold OBSTACLE_WIDTH, OBSTACLE_HEIGHT, CANVAS_HEIGHT in *.
    split; [reflexivity|]. split; [reflexivity|].
    split; [lra|]. split; assumption.
  - intros lm Hin.
    pose proof (i2_landmarks s HI2) as Hall.
    rewrite Forall_forall in Hall.
    destruct (Hall lm Hin) as (Hlx & Hly).
    pose proof (inv_landmarks s HI) as Hbelow.
    rewrite Forall_forall in Hbelow. specialize (Hbelow lm Hin).
    rewrite Hlx. unfold CANVAS_HEIGHT in *.
    split; [destruct (Landmark.side lm); reflexivity|].
    split; assumption.
Qed.

Lemma entities_stay_in_bounds_witness :
  reachable started /\ GameObject.y (playerRef started) == 500.
Proof.
  assert (reachable started) as Hs
    by exact (reachable_step (ClickStart 0) _ (reachable_init None)).
  split; [exact Hs|].
  pose proof (entities_stay_in_bounds started Hs) as H.
  cbv zeta in H. exact (proj1 (proj1 H)).
Defined.

(** ** How many entities there are *)

Lemma spaced_three {A : Type} (y : A -> Q) (d lo hi : Q) (l : list A) :
  spacedBy y d l ->
  Forall (fun a => lo <= y a < hi) l ->
  hi <= lo + 3 * d ->
  (length l <= 3)%nat.
Proof.
  intros Hsp Hall Hd.
  destruct l as [|a [|b [|c [|e l]]]]; cbn [length]; try lia.
  exfalso.
  destruct Hsp as (Ha & Hb & Hc & _).
  inversion Ha as [|? ? Hab _]; subst.
  inversion Hb as [|? ? Hbc _]; subst.
  inversion Hc as [|? ? Hce _]; subst.
  inversion Hall as [|? ? Hya Hall1]; subst.
  inversion Hall1 as [|? ? _ Hall2]; subst.
  inversion Hall2 as [|? ? _ Hall3]; subst.
  inversion Hall3 as [|? ? Hye _]; subst.
  lra.
Qed.

Lemma spaced_two {A : Type} (y : A -> Q) (d lo hi : Q) (l : list A) :
  spacedBy y d l ->
  Forall (fun a => lo <= y a < hi) l ->
  hi <= lo + 2 * d ->
  (length l <= 2)%nat.
Proof.
  intros Hsp Hall Hd.
  destruct l as [|a [|b [|c l]]]; cbn [length]; try lia.
  exfalso.
  destruct Hsp as (Ha & Hb & _).
  inversion Ha as [|? ? Hab _]; subst.
  inversion Hb as [|? ? Hbc _]; subst.
  inversion Hall as [|? ? Hya Hall1]; subst.
  inversion Hall1 as [|? ? _ Hall2]; subst.
  inversion Hall2 as [|? ? Hyc _]; subst.
  lra.
Qed.

Lemma reachable_counts (s : AppState) :
  reachable s ->
  (length (obstaclesRef s) <= 3)%nat /\ (length (landmarksRef s) <= 2)%nat.
Proof.
  intros Hreach.
  pose proof (reachable_Inv s Hreach) as HI.
  pose proof (reachable_Inv2 s Hreach) as HI2.
  split.
  - apply (spaced_three GameObject.y 280 (- (80)) 600);
      [exact (i2_gapO s HI2) | |vm_compute; discriminate].
    pose proof (i2_obstacles s HI2) as Hshape.
    pose proof (inv_obstacles s HI) as Hbelow.
    rewrite Forall_forall in *. intros a Ha.
    destruct (Hshape a Ha) as (_ & _ & _ & Hlo).
    specialize (Hbelow a Ha).
    unfold OBSTACLE_HEIGHT, CANVAS_HEIGHT in *. split; assumption.
  - apply (spaced_two Landmark.y 600 (- (200)) 600);
      [exact (i2_gapL s HI2) | |vm_compute; discriminate].
    pose proof (i2_landmarks s HI2) as Hshape.
    pose proof (inv_landmarks s HI) as Hbelow.
    rewrite Forall_forall in *. intros a Ha.
    destruct (Hshape a Ha) as (_ & Hlo).
    specialize (Hbelow a Ha).
    unfold CANVAS_HEIGHT in *. split; assumption.
Qed.

(** X11.  The road is never crowded.  An obstacle is spawned only when
    the list is empty or its last obstacle is below [y = 200], so in
    every reachable state each obstacle is more than 280 further down
    than every later one, and at most 3 are on the road; landmarks,
    spawned at [-200] behind one below 400, are more than 600 apart, and
    at most 2. *)
Theorem road_never_crowded (s : AppState) :
  reachable s ->
  spacedBy GameObject.y 280 (obstaclesRef s) /\
  (length (obstaclesRef s) <= 3)%nat /\
  spacedBy Landmark.y 600 (landmarksRef s) /\
  (length (landmarksRef s) <= 2)%nat.
Proof.
  intros Hreach.
  pose proof (reachable_Inv2 s Hreach) as HI2.
  destruct (reachable_counts s Hreach) as [HnO HnL].
  split; [exact (i2_gapO s HI2)|]. split; [exact HnO|].
  split; [exact (i2_gapL s HI2) | exact HnL].
Qed.

Lemma road_never_crowded_witness :
  reachable passing /\ (length (obstaclesRef passing) <= 3)%nat.
Proof.
  destruct passing_facts as (Hreach & _).
  split; [exact Hreach|].
  exact (proj1 (proj2 (road_never_crowded passing Hreach))).
Defined.

(** ** The car *)

Lemma handle_upgrades (e : Event) (s : AppState) :
  let engine st :=
    Upgrades.engine (CarCustomization.upgrades (customization st)) in
  let tires st :=
    Upgrades.tires (CarCustomization.upgrades (customization st)) in
  (engine s <= engine (handle e s) <= engine s + 1)%Z /\
  (tires s <= tires (handle e s) <= tires s + 1)%Z.
Proof.
  cbv zeta. destruct e; cbn [handle].
  - destruct (nth_error TRACKS i); [|lia].
    destruct (shows START s); cbn; lia.
  - destruct (shows START s || shows GAMEOVER s); cbn; lia.
  - destruct (shows START s); cbn; lia.
  - destruct (shows GARAGE s); cbn; lia.
  - destruct (shows GARAGE s); cbn; lia.
  - destruct (shows GARAGE s); cbn; lia.
  - destruct (shows GARAGE s); cbn; lia.
  - destruct (shows GARAGE s && _); cbn; lia.
  - destruct (shows GARAGE s && _); cbn; lia.
  - unfold handleKeyDown. destruct (negb _); [lia|].
    destruct key; cbn; lia.
  - destruct (gameLoop_setup time rnd s) as [_ ->]. lia.
Qed.

Lemma run_upgrades (es : list Event) (s : AppState) :
  (Upgrades.engine (CarCustomization.upgrades (customization s))
   <= Upgrades.engine (CarCustomization.upgrades (customization (run es s))))%Z
  /\
  (Upgrades.tires (CarCustomization.upgrades (customization s))
   <= Upgrades.tires (CarCustomization.upgrades (customization (run es s))))%Z.
Proof.
  revert s. induction es as [|e es IH]; intros s.
  - cbn. lia.
  - change (run (e :: es) s) with (run es (handle e s)).
    pose proof (handle_upgrades e s) as H. cbv beta zeta in H.
    specialize (IH (handle e s)). lia.
Qed.

(** X12.  The garage keeps both upgrade levels between 0 and 3 and only
    ever raises them.  A session then starts at the track's initial
    speed plus the engine level, between 8 and 17, and the speed of a
    reachable state is never under 8. *)
Theorem upgrades_bounded (s : AppState) (es : list Event) (now : Q) :
  reachable s ->
  let engine st :=
    Upgrades.engine (CarCustomization.upgrades (customization st)) in
  let tires st :=
    Upgrades.tires (CarCustomization.upgrades (customization st)) in
  (0 <= engine s <= 3)%Z /\ (0 <= tires s <= 3)%Z /\
  (engine s <= engine (run es s))%Z /\ (tires s <= tires (run es s))%Z /\
  speedRef (startGame now s)
    == Track.initialSpeed (selectedTrackRef s) + inject_Z (engine s) /\
  8 <= speedRef (startGame now s) <= 17 /\
  8 <= speedRef s.
Proof.
  intros Hreach. cbv beta zeta.
  pose proof (reachable_Inv s Hreach) as HI.
  pose proof (inv_engine s HI) as He.
  pose proof (inv_tires s HI) as Ht.
  destruct (run_upgrades es s) as [Hem Htm].
  repeat (split; [assumption|]).
  assert (0 <= inject_Z
                 (Upgrades.engine (CarCustomization.upgrades (customization s)))
          <= 3) as Hinj.
  { split.
    - change 0 with (inject_Z 0). rewrite <- Zle_Qle. lia.
    - change 3 with (inject_Z 3). rewrite <- Zle_Qle. lia. }
  assert (8 <= Track.initialSpeed (selectedTrackRef s) <= 14) as Htrack.
  { destruct (inv_track s HI) as [<- | [<- | [<- | []]]];
      split; vm_compute; discriminate. }
  assert (speedRef (startGame now s)
          == Track.initialSpeed (selectedTrackRef s)
             + inject_Z (Upgrades.engine
                           (CarCustomization.upgrades (customization s))))
    as Hstart.
  { cbn [startGame speedRef]. change 1.0 with (10 # 10). ring. }
  split; [exact Hstart|]. split.
  - rewrite Hstart. lra.
  - exact (i2_speed s (reachable_Inv2 s Hreach)).
Qed.

Lemma upgrades_bounded_witness :
  reachable tunedStart /\
  speedRef (startGame 0 tunedStart) == 17.
Proof.
  split; [exact tunedStart_reachable|].
  pose proof (upgrades_bounded tunedStart [] 0 tunedStart_reachable) as H.
  cbv beta zeta in H. destruct H as (_ & _ & _ & _ & H & _).
  rewrite H. vm_compute. reflexivity.
Defined.

(** X13.  With the three tracks of the game and tire levels up to 3 the
    floor [0.0001] of the speed increment is never the larger argument
    of [Math.max]: on every reachable state the increment is
    [track.speedIncrement - tires * 0.0002], between 0.0014 and 0.004. *)
Theorem increment_floor_never_binds (s : AppState) :
  reachable s ->
  effectiveIncrement s
    == Track.speedIncrement (selectedTrackRef s)
       - inject_Z (Upgrades.tires
                     (CarCustomization.upgrades (customization s)))
         * 0.0002 /\
  0.0014 <= effectiveIncrement s <= 0.004.
Proof.
  intros Hreach.
  pose proof (reachable_Inv s Hreach) as HI.
  pose proof (inv_tires s HI) as Ht.
  assert (0 <= inject_Z
                 (Upgrades.tires (CarCustomization.upgrades (customization s)))
          <= 3) as Hinj.
  { split.
    - change 0 with (inject_Z 0). rewrite <- Zle_Qle. lia.
    - change 3 with (inject_Z 3). rewrite <- Zle_Qle. lia. }
  assert (0.002 <= Track.speedIncrement (selectedTrackRef s) <= 0.004)
    as Htrack.
  { destruct (inv_track s HI) as [<- | [<- | [<- | []]]];
      split; vm_compute; discriminate. }
  unfold effectiveIncrement.
  set (inc := Track.speedIncrement (selectedTrackRef s)
              - inject_Z (Upgrades.tires
                            (CarCustomization.upgrades (customization s)))
                * 0.0002).
  assert (0.0014 <= inc <= 0.004) as Hinc by (unfold inc; split; lra).
  assert (Qmax 0.0001 inc == inc) as Hmax by (apply Q.max_r; lra).
  rewrite Hmax. split; [reflexivity | exact Hinc].
Qed.

Lemma increment_floor_never_binds_witness :
  reachable tunedStart /\ effectiveIncrement tunedStart == 0.004.
Proof.
  split; [exact tunedStart_reachable|].
  rewrite (proj1 (increment_floor_never_binds tunedStart
                    tunedStart_reachable)).
  vm_compute. reflexivity.
Defined.

(** ** Landmarks *)

Lemma Qfloor_scaled_range (r : Q) (n : nat) :
  0 <= r < 1 -> (0 < n)%nat ->
  (0 <= Qfloor (r * inject_Z (Z.of_nat n)) < Z.of_nat n)%Z.
Proof.
  intros [Hr0 Hr1] Hn.
  set (m := inject_Z (Z.of_nat n)).
  assert (0 < m) as Hm.
  { unfold m. change 0 with (inject_Z 0). rewrite <- Zlt_Qlt. lia. }
  pose proof (Qfloor_le (r * m)) as Hfl.
  pose proof (Qlt_floor (r * m)) as Hfu.
  rewrite inject_Z_plus in Hfu. change (inject_Z 1) with 1 in Hfu.
  assert (0 <= r * m) as Hlo by (apply Qmult_le_0_compat; lra).
  assert (r * m < m) as Hhi.
  { setoid_replace m with (1 * m) at 2 by ring.
    apply Qmult_lt_compat_r; assumption. }
  assert (inject_Z (Qfloor (r * m)) < inject_Z (Z.of_nat n)) as H1
    by (fold m; lra).
  assert (inject_Z (-1) < inject_Z (Qfloor (r * m))) as H2
    by (change (inject_Z (-1)) with (-1 # 1); lra).
  rewrite <- Zlt_Qlt in H1, H2. lia.
Qed.

Lemma index_in_range {A : Type} (l : list A) (i : Z) :
  (0 <= i < Z.of_nat (length l))%Z -> exists a, index l i = Some a.
Proof.
  intros Hi. unfold index.
  destruct (i <? 0)%Z eqn:Hneg; [apply Z.ltb_lt in Hneg; lia|].
  destruct (nth_error l (Z.to_nat i)) as [a|] eqn:Hnth; [eauto|].
  apply nth_error_None in Hnth. lia.
Qed.

Lemma spawnObstacles_draws (track : Track.t) (kept : list GameObject.t)
    (rnd : nat -> Q) :
  (snd (spawnObstacles track kept rnd O) <= 3)%nat /\
  (kept = [] -> snd (spawnObstacles track kept rnd O) = 2%nat).
Proof.
  rewrite spawnObstacles_gate. cbv zeta.
  destruct kept as [|o l].
  - rewrite obstacleGate_empty. cbn [fst snd]. split; [lia | reflexivity].
  - destruct (lastOf_nonempty (o :: l)) as [lastObs Hlast]; [discriminate|].
    rewrite (obstacleGate_nonempty _ _ rnd O Hlast).
    split; [|discriminate].
    destruct (Qltb 200 (GameObject.y lastObs));
      [destruct (Qltb (rnd O) 0.02)|]; cbn [fst snd]; lia.
Qed.

Lemma cruiseL_kept (s : AppState) (lm : Landmark.t) :
  landmarksRef s = [lm] ->
  Landmark.y lm + currentSpeed s < CANVAS_HEIGHT ->
  keptLandmarks s = [moveLandmark (currentSpeed s) lm].
Proof.
  intros Hlm Hon. unfold keptLandmarks. rewrite Hlm.
  cbn [map filter]. unfold onScreenLandmark. rewrite moveLandmark_y.
  apply Qltb_lt in Hon. rewrite Hon. reflexivity.
Qed.

(** A frame with every draw [0.1] on a running session whose only
    landmark stays on screen: the landmark moves, none is spawned. *)
Lemma cruise_frame_landmarks (s : AppState) (lm : Landmark.t) :
  gameStateRef s = PLAYING ->
  landmarksRef s = [lm] ->
  Landmark.y lm + currentSpeed s < CANVAS_HEIGHT ->
  landmarksRef (gameLoop 0 (draws 0.1) s) = [moveLandmark (currentSpeed s) lm].
Proof.
  intros Hrun Hlm Hon.
  rewrite (gameLoop_landmarks 0 (draws 0.1) s Hrun).
  rewrite (cruiseL_kept s lm Hlm Hon).
  rewrite spawnLandmarks_gate. cbv zeta.
  rewrite (landmarkGate_nonempty [moveLandmark (currentSpeed s) lm]
             (moveLandmark (currentSpeed s) lm) (draws 0.1) _ eq_refl).
  destruct (Qltb 400 (Landmark.y _)); reflexivity.
Qed.

Lemma cruiseL_frame (v lo hi llo lhi : Q) (s : AppState) :
  CruiseL v lo hi llo lhi s ->
  hi + (v + 0.004) < CANVAS_HEIGHT ->
  lhi + (v + 0.004) < CANVAS_HEIGHT ->
  CruiseL (v + 0.004) (lo + 17) (hi + (v + 0.004))
          (llo + 17) (lhi + (v + 0.004))
          (gameLoop 0 (draws 0.1) s).
Proof.
  intros [Hc (lm & Hlm & Hbound)] Hon HonL.
  pose proof (cr_phase _ _ _ _ Hc) as Hrun.
  pose proof (cruise_currentSpeed s (cr_track _ _ _ _ Hc) (cr_car _ _ _ _ Hc))
    as Hcs.
  pose proof (cr_speed _ _ _ _ Hc) as Hspeed.
  split; [apply cruise_frame; assumption|].
  exists (moveLandmark (currentSpeed s) lm). split.
  - apply cruise_frame_landmarks; [exact Hrun | exact Hlm |].
    rewrite Hcs. lra.
  - rewrite moveLandmark_y, Hcs. lra.
Qed.

Lemma CruiseL_weaken (v lo hi llo lhi v' lo' hi' llo' lhi' : Q)
    (s : AppState) :
  CruiseL v lo hi llo lhi s ->
  v <= v' -> lo' <= lo -> hi <= hi' -> llo' <= llo -> lhi <= lhi' ->
  CruiseL v' lo' hi' llo' lhi' s.
Proof.
  intros [Hc (lm & Hlm & Hbound)] Hv Hlo Hhi Hllo Hlhi.
  split; [apply (Cruise_weaken v lo hi); assumption|].
  exists lm. split; [exact Hlm | lra].
Qed.

Lemma cruiseL_frames (n : nat) (v lo hi llo lhi : Q) (s : AppState) :
  CruiseL v lo hi llo lhi s ->
  v + 0.004 * inject_Z (Z.of_nat n) <= 17.2 ->
  hi + 17.2 * inject_Z (Z.of_nat n) < CANVAS_HEIGHT ->
  lhi + 17.2 * inject_Z (Z.of_nat n) < CANVAS_HEIGHT ->
  CruiseL (v + 0.004 * inject_Z (Z.of_nat n))
          (lo + 17 * inject_Z (Z.of_nat n))
          (hi + 17.2 * inject_Z (Z.of_nat n))
          (llo + 17 * inject_Z (Z.of_nat n))
          (lhi + 17.2 * inject_Z (Z.of_nat n))
          (run (repeat (Frame 0 (draws 0.1)) n) s).
Proof.
  revert v lo hi llo lhi s.
  induction n as [|n IH]; intros v lo hi llo lhi s Hc Hv Hhi Hlhi.
  - cbn [repeat run fold_left].
    apply (CruiseL_weaken v lo hi llo lhi); [exact Hc | | | | |];
      change (inject_Z (Z.of_nat 0)) with 0; lra.
  - assert (inject_Z (Z.of_nat (S n)) == inject_Z (Z.of_nat n) + 1) as Hk.
    { rewrite Nat2Z.inj_succ. unfold Z.succ. rewrite inject_Z_plus.
      reflexivity. }
    assert (0 <= inject_Z (Z.of_nat n)) as Hpos.
    { change 0 with (inject_Z 0). rewrite <- Zle_Qle. lia. }
    rewrite Hk in Hv, Hhi, Hlhi. unfold CANVAS_HEIGHT in *.
    change (run (repeat (Frame 0 (draws 0.1)) (S n)) s)
      with (run (repeat (Frame 0 (draws 0.1)) n)
                (gameLoop 0 (draws 0.1) s)).
    assert (CruiseL (v + 0.004) (lo + 17) (hi + 17.2) (llo + 17) (lhi + 17.2)
                    (gameLoop 0 (draws 0.1) s)) as Hc1.
    { apply (CruiseL_weaken (v + 0.004) (lo + 17) (hi + (v + 0.004))
               (llo + 17) (lhi + (v + 0.004)));
        [|lra|lra|lra|lra|lra].
      apply cruiseL_frame; [exact Hc | |]; unfold CANVAS_HEIGHT; lra. }
    apply (CruiseL_weaken _ _ _ _ _ _ _ _ _ _ _
             (IH _ _ _ _ _ _ Hc1 ltac:(lra)
                 ltac:(unfold CANVAS_HEIGHT; lra)
                 ltac:(unfold CANVAS_HEIGHT; lra)));
      rewrite Hk; lra.
Qed.

Lemma tunedStart_frameL :
  CruiseL 17.004 (- (80)) (- (80)) (- (200)) (- (200))
          (gameLoop 0 (draws 0.1) tunedStart).
Proof.
  split; [exact tunedStart_frame|].
  exists (drawnLandmark TRACKS_2 (draws 0.1) 2).
  split; [reflexivity|]. split; vm_compute; discriminate.
Qed.

Lemma clearing_cruise : CruiseL 17.148 532 539.2 412 419.2 clearing.
Proof.
  assert (CruiseL (17.004 + 0.004 * inject_Z (Z.of_nat 36))
                  (- (80) + 17 * inject_Z (Z.of_nat 36))
                  (- (80) + 17.2 * inject_Z (Z.of_nat 36))
                  (- (200) + 17 * inject_Z (Z.of_nat 36))
                  (- (200) + 17.2 * inject_Z (Z.of_nat 36))
                  (run (repeat (Frame 0 (draws 0.1)) 36)
                       (gameLoop 0 (draws 0.1) tunedStart))) as H.
  { apply cruiseL_frames; [exact tunedStart_frameL | | |].
    - vm_compute. discriminate.
    - vm_compute. reflexivity.
    - vm_compute. reflexivity. }
  refine (CruiseL_weaken _ _ _ _ _ _ _ _ _ _ _ H _ _ _ _ _);
    vm_compute; discriminate.
Qed.

Lemma clearing_reachable : reachable clearing.
Proof.
  unfold clearing. apply reachable_run.
  rewrite <- handle_Frame. apply reachable_step. exact tunedStart_reachable.
Qed.

(** X14.  Landmarks are spawned like obstacles, with their own numbers:
    on a running frame, with [kept] the landmarks left after motion and
    eviction, one is appended exactly when [kept] is empty, or the
    element at the end of [kept] is below [y = 400] and the next draw is
    under [0.01]; nothing else is added.  The draws follow those of the
    obstacle spawner, which takes at most three, and two when no
    obstacle is left.  The new landmark starts at [y = -200], on the
    left at [x = 20] when its first draw is over [0.5] and on the right
    at [x = 320] otherwise; its kind is picked by the second draw from
    the track's list, which has one in every reachable state; its [id]
    is the third draw. *)
Theorem landmark_spawn_policy (time : Q) (rnd : nat -> Q) (s : AppState) :
  gameStateRef s = PLAYING ->
  let s' := gameLoop time rnd s in
  let kept := keptLandmarks s in
  let track := selectedTrackRef s in
  let k := snd (spawnObstacles track (keptObstacles s) rnd O) in
  let clear :=
    exists front lastLm,
      kept = front ++ [lastLm] /\
      400 < Landmark.y lastLm /\ rnd k < 0.01 in
  (kept = [] -> landmarksRef s' = [drawnLandmark track rnd k]) /\
  (clear -> landmarksRef s' = kept ++ [drawnLandmark track rnd (S k)]) /\
  (~ (kept = [] \/ clear) -> landmarksRef s' = kept) /\
  ((kept = [] \/ clear) <-> exists lm, landmarksRef s' = kept ++ [lm]) /\
  (length (landmarksRef s') <= length kept + 1)%nat /\
  (k <= 3)%nat /\
  (keptObstacles s = [] -> k = 2%nat) /\
  (forall j,
      let lm := drawnLandmark track rnd j in
      Landmark.y lm = - (200) /\
      (Landmark.side lm = left <-> 0.5 < rnd j) /\
      (Landmark.side lm = left -> Landmark.x lm = 20) /\
      (Landmark.side lm = right -> Landmark.x lm == 320) /\
      Landmark.id lm = rnd (S (S j)) /\
      Landmark.type lm =
        index (Track.landmarkTypes track)
              (Qfloor (rnd (S j) *
                       inject_Z (Z.of_nat
                                   (length (Track.landmarkTypes track))))) /\
      (reachable s -> 0 <= rnd (S j) < 1 ->
       exists kind, Landmark.type lm = Some kind)).
Proof.
  intros Hrun. cbv zeta.
  rewrite (gameLoop_landmarks time rnd s Hrun).
  destruct (spawnObstacles_draws (selectedTrackRef s) (keptObstacles s) rnd)
    as [Hk3 Hk2].
  set (k := snd (spawnObstacles (selectedTrackRef s) (keptObstacles s)
                   rnd O)) in *.
  rewrite spawnLandmarks_gate. cbv zeta.
  assert (forall (kept : list Landmark.t) lm, kept ++ [lm] <> kept) as Hneq.
  { intros kept lm Heq. apply (f_equal (@length _)) in Heq.
    rewrite length_app in Heq. simpl in Heq. lia. }
  assert (forall lastLm,
            lastOf (keptLandmarks s) = Some lastLm ->
            Qltb 400 (Landmark.y lastLm) && Qltb (rnd k) 0.01 = false ->
            ~ exists front0 lastLm0,
                keptLandmarks s = front0 ++ [lastLm0] /\
                400 < Landmark.y lastLm0 /\ rnd k < 0.01) as Hno.
  { intros lastLm Hlast Hgate (f0 & l0 & Hl0 & Hy0 & Hr0).
    assert (lastOf (keptLandmarks s) = Some l0) as Hl0'
      by (apply lastOf_snoc; eauto).
    rewrite Hlast in Hl0'. injection Hl0' as <-.
    apply Qltb_lt in Hy0, Hr0. rewrite Hy0, Hr0 in Hgate.
    discriminate Hgate. }
  split; [|split; [|split; [|split; [|split;
    [|split; [exact Hk3|split; [exact Hk2|]]]]]]].
  - intros ->. rewrite landmarkGate_empty. reflexivity.
  - intros (front & lastLm & Hsnoc & Hy & Hr).
    assert (lastOf (keptLandmarks s) = Some lastLm) as Hlast
      by (apply lastOf_snoc; eauto).
    rewrite (landmarkGate_nonempty _ _ rnd k Hlast).
    destruct (Qltb 400 (Landmark.y lastLm)) eqn:Hgate;
      [|apply Qltb_ge in Hgate; lra].
    destruct (Qltb (rnd k) 0.01) eqn:Hdraw;
      [reflexivity | apply Qltb_ge in Hdraw; lra].
  - intros Hnone.
    destruct (keptLandmarks s) as [|o l] eqn:Hkept; [tauto|].
    destruct (lastOf_nonempty (o :: l)) as [lastLm Hlast]; [discriminate|].
    rewrite (landmarkGate_nonempty _ _ rnd k Hlast).
    destruct (Qltb 400 (Landmark.y lastLm)) eqn:Hgate; [|reflexivity].
    destruct (Qltb (rnd k) 0.01) eqn:Hdraw; [|reflexivity].
    exfalso. apply Hnone. right.
    destruct (proj1 (lastOf_snoc _ _) Hlast) as [front Hfront].
    exists front, lastLm. apply Qltb_lt in Hgate, Hdraw. auto.
  - destruct (keptLandmarks s) as [|o l] eqn:Hkept.
    + rewrite landmarkGate_empty. cbn [fst snd].
      split; [intros _; eexists; reflexivity | intros _; left; reflexivity].
    + destruct (lastOf_nonempty (o :: l)) as [lastLm Hlast]; [discriminate|].
      rewrite (landmarkGate_nonempty _ _ rnd k Hlast).
      specialize (Hno lastLm Hlast).
      destruct (proj1 (lastOf_snoc _ _) Hlast) as [front Hfront].
      destruct (Qltb 400 (Landmark.y lastLm)) eqn:Hgate;
        [destruct (Qltb (rnd k) 0.01) eqn:Hdraw|]; cbn [fst snd];
        cbn [andb] in Hno.
      * apply Qltb_lt in Hgate, Hdraw.
        split; [intros _; eexists; reflexivity|].
        intros _. right. exists front, lastLm. auto.
      * specialize (Hno eq_refl). split.
        -- intros [Hnil | Hc]; [discriminate Hnil | exfalso; exact (Hno Hc)].
        -- intros [lm Hlm]. exfalso. symmetry in Hlm. exact (Hneq _ lm Hlm).
      * specialize (Hno eq_refl). split.
        -- intros [Hnil | Hc]; [discriminate Hnil | exfalso; exact (Hno Hc)].
        -- intros [lm Hlm]. exfalso. symmetry in Hlm. exact (Hneq _ lm Hlm).
  - destruct (fst (landmarkGate (keptLandmarks s) rnd k)); cbn [fst];
      [rewrite length_app; simpl|]; lia.
  - intros j. unfold drawnLandmark. cbv zeta. cbn [Landmark.y Landmark.side
      Landmark.x Landmark.id Landmark.type].
    split; [reflexivity|]. split; [|split; [|split; [|split; [|split]]]].
    + destruct (Qltb 0.5 (rnd j)) eqn:Hside.
      * apply Qltb_lt in Hside. tauto.
      * apply Qltb_ge in Hside. split; [discriminate | intros; lra].
    + destruct (Qltb 0.5 (rnd j)); [reflexivity | discriminate].
    + destruct (Qltb 0.5 (rnd j)); [discriminate|].
      intros _. vm_compute. reflexivity.
    + reflexivity.
    + reflexivity.
    + intros Hreach Hr.
      apply index_in_range. apply Qfloor_scaled_range; [exact Hr|].
      destruct (inv_track s (reachable_Inv s Hreach))
        as [<- | [<- | [<- | []]]]; cbn; lia.
Qed.

Lemma landmark_spawn_policy_witness :
  reachable clearing /\ gameStateRef clearing = PLAYING /\
  exists lm,
    400 < Landmark.y lm /\
    landmarksRef (gameLoop 0 (draws 0.001) clearing)
      = [lm;
         drawnLandmark (selectedTrackRef clearing) (draws 0.001)
           (S (snd (spawnObstacles (selectedTrackRef clearing)
                      (keptObstacles clearing) (draws 0.001) O)))].
Proof.
  destruct clearing_cruise as [Hc (lm & Hlm & Hy)].
  pose proof (cr_phase _ _ _ _ Hc) as Hrun.
  pose proof (cruise_currentSpeed clearing (cr_track _ _ _ _ Hc)
                (cr_car _ _ _ _ Hc)) as Hcs.
  pose proof (cr_speed _ _ _ _ Hc) as Hspeed.
  split; [exact clearing_reachable|]. split; [exact Hrun|].
  assert (keptLandmarks clearing
          = [] ++ [moveLandmark (currentSpeed clearing) lm]) as Hkept.
  { apply cruiseL_kept; [exact Hlm|].
    rewrite Hcs. unfold CANVAS_HEIGHT. lra. }
  assert (400 < Landmark.y (moveLandmark (currentSpeed clearing) lm))
    as Hclear
    by (rewrite moveLandmark_y, Hcs; lra).
  pose proof (landmark_spawn_policy 0 (draws 0.001) clearing Hrun) as H.
  cbv zeta in H. destruct H as (_ & H & _).
  exists (moveLandmark (currentSpeed clearing) lm).
  split; [exact Hclear|].
  rewrite H.
  - rewrite Hkept. reflexivity.
  - exists [], (moveLandmark (currentSpeed clearing) lm).
    split; [exact Hkept|]. split; [exact Hclear|].
    change (0.001 < 0.01). reflexivity.
Defined.

(** ** Rounded rectangles *)


(** X19.  A running frame never leaves the road empty: a list that motion
    and eviction have emptied gets a new element in the same frame, so
    after every running frame of a reachable state there are between 1
    and 3 obstacles and 1 or 2 landmarks, also on the frame of the
    crash. *)
Theorem road_never_empty (time : Q) (rnd : nat -> Q) (s : AppState) :
  reachable s ->
  gameStateRef s = PLAYING ->
  (1 <= length (obstaclesRef (gameLoop time rnd s)) <= 3)%nat /\
  (1 <= length (landmarksRef (gameLoop time rnd s)) <= 2)%nat.
Proof.
  intros Hreach Hrun.
  assert (reachable (gameLoop time rnd s)) as Hreach'.
  { rewrite <- handle_Frame. apply reachable_step. exact Hreach. }
  destruct (reachable_counts _ Hreach') as [HnO HnL].
  split; (split; [|assumption]).
  - rewrite (gameLoop_obstacles time rnd s Hrun).
    destruct (keptObstacles s) as [|o l] eqn:Hkept.
    + rewrite spawnObstacles_gate. cbv zeta.
      rewrite obstacleGate_empty. cbn. lia.
    + destruct (spawnObstacles_cases (selectedTrackRef s) (o :: l) rnd O)
        as [-> | [(lane & type & ->) _]];
        [|rewrite length_app]; cbn [length]; lia.
  - rewrite (gameLoop_landmarks time rnd s Hrun).
    destruct (keptLandmarks s) as [|o l] eqn:Hkept.
    + rewrite spawnLandmarks_gate. cbv zeta.
      rewrite landmarkGate_empty. cbn. lia.
    + destruct (spawnLandmarks_cases (selectedTrackRef s) (o :: l) rnd
                  (snd (spawnObstacles (selectedTrackRef s)
                          (keptObstacles s) rnd O)))
        as [-> | [(k' & ->) _]];
        [|rewrite length_app]; cbn [length]; lia.
Qed.

Lemma road_never_empty_witness :
  reachable started /\ gameStateRef started = PLAYING /\
  (1 <= length (obstaclesRef (gameLoop 0 (draws 0.1) started)) <= 3)%nat.
Proof.
  assert (reachable started) as Hreach
    by (apply reachable_run; apply reachable_init).
  split; [exact Hreach|]. split; [reflexivity|].
  exact (proj1 (road_never_empty 0 (draws 0.1) started Hreach eq_refl)).
Defined.


(** ** Handlers called on any screen *)

Lemma playing_app (os os' : list Sound.Out) :
  Sound.playing (os ++ os')
    = fold_left
        (fun live o =>
           match o with
           | Sound.engineStart n => live ++ [n]
           | Sound.engineStop n => filter (fun m => negb (m =? n)%nat) live
           | _ => live
           end)
        os' (Sound.playing os).
Proof. unfold Sound.playing. apply fold_left_app. Qed.

Lemma gainTarget_app (n : nat) (os os' : list Sound.Out) :
  Sound.gainTarget n (os ++ os')
    = fold_left
        (fun g o =>
           match o with
           | Sound.engineStart m => if (m =? n)%nat then Some 0.05 else g
           | Sound.engineMute m => if (m =? n)%nat then Some 0 else g
           | _ => g
           end)
        os' (Sound.gainTarget n os).
Proof. unfold Sound.gainTarget. apply fold_left_app. Qed.

Lemma called_calls (cs : list Call) (p : Page) : called p -> called (calls cs p).
Proof.
  revert p. induction cs as [|c cs IH]; intros p Hp; cbn.
  - exact Hp.
  - apply IH. apply called_step. exact Hp.
Qed.

(** An event of the page is the calls it makes. *)
Lemma handle_calls (e : Event) (p : Page) :
  game (calls (callsOf e (game p)) p) = handle e (game p).
Proof.
  destruct e; cbn [callsOf handle];
    try (match goal with
         | |- context [if ?c then _ else _] => destruct c
         end; reflexivity);
    try reflexivity.
  destruct (nth_error TRACKS i); [|reflexivity].
  destruct (shows START (game p)); reflexivity.
Qed.

(** Every state the events reach is the game of a page the calls
    reach. *)
Lemma reachable_called (s : AppState) :
  reachable s -> exists p, called p /\ game p = s.
Proof.
  induction 1 as [saved | e s _ (p & Hp & <-)].
  - exists (initialPage saved). split; [apply called_init | reflexivity].
  - exists (calls (callsOf e (game p)) p).
    split; [apply called_calls; exact Hp | apply handle_calls].
Qed.

(** The screen and the loop, whatever is called. *)
Lemma call_phase (c : Call) (p : Page) :
  let ok q :=
    (gameState (game q) = PLAYING -> gameStateRef (game q) = PLAYING) /\
    (gameState (game q) = GAMEOVER -> gameStateRef (game q) = GAMEOVER) /\
    (gameStateRef (game q) = START ->
     gameState (game q) = START \/ gameState (game q) = GARAGE) /\
    gameStateRef (game q) <> GARAGE in
  ok p -> ok (call c p).
Proof.
  cbv zeta. intros (Hplay & Hover & Hstart & Hgarage).
  destruct c; cbn [call game toggleMute].
  - cbn. repeat split; try congruence; auto.
  - (* gameLoop *)
    destruct (isPlaying (gameStateRef (game p))) eqn:Hrun.
    + apply isPlaying_true in Hrun.
      rewrite (gameLoop_running time rnd (game p) Hrun). cbv zeta.
      destruct (existsb _ _).
      * unfold gameOver. cbn. intuition congruence.
      * cbn. intuition congruence.
    + apply isPlaying_false in Hrun. rewrite gameLoop_idle by exact Hrun.
      repeat split; assumption.
  - (* handleKeyDown *)
    unfold handleKeyDown. destruct (negb _);
      [repeat split; assumption|].
    destruct key; cbn; repeat split; assumption.
  - cbn. repeat split; assumption.
  - (* handleGarageClick *)
    cbn. repeat split; try congruence; auto.
  - (* handleBackToStart *)
    cbn. repeat split; try congruence; auto.
  - cbn. repeat split; assumption.
  - cbn. repeat split; assumption.
Qed.

Lemma called_phase (p : Page) :
  called p ->
  (gameState (game p) = PLAYING -> gameStateRef (game p) = PLAYING) /\
  (gameState (game p) = GAMEOVER -> gameStateRef (game p) = GAMEOVER) /\
  (gameStateRef (game p) = START ->
   gameState (game p) = START \/ gameState (game p) = GARAGE) /\
  gameStateRef (game p) <> GARAGE.
Proof.
  induction 1 as [saved | c p _ IH].
  - cbn. repeat split; try congruence; auto.
  - exact (call_phase c p IH).
Qed.

Lemma SoundInv_playClick (p : Page) (s' : AppState) :
  SoundInv p ->
  gameStateRef s' = gameStateRef (game p) ->
  SoundInv (mkPage s' (isMuted p) (Sound.playClick (sounds p))).
Proof.
  intros [Hm Hp Hph Hc Hg Hcr] Hphase.
  unfold Sound.playClick.
  destruct (negb (Sound.ctx (sounds p)) || Sound.isMuted (sounds p)).
  - constructor; sound_fields; try assumption.
    rewrite Hphase. exact Hph.
  - constructor; sound_fields; try assumption.
    + rewrite playing_app. cbn [fold_left]. exact Hp.
    + rewrite Hphase. exact Hph.
Qed.

Lemma SoundInv_same (p : Page) (s' : AppState) :
  SoundInv p ->
  gameStateRef s' = gameStateRef (game p) ->
  SoundInv (mkPage s' (isMuted p) (sounds p)).
Proof.
  intros [Hm Hp Hph Hc Hg Hcr] Hphase.
  constructor; sound_fields; try assumption.
  rewrite Hphase. exact Hph.
Qed.

Lemma SoundInv_toggleMute (p : Page) : SoundInv p -> SoundInv (toggleMute p).
Proof.
  intros [Hm Hp Hph Hc Hg Hcr].
  destruct p as [s muted [c o g mu cr os]]. sound_fields.
  unfold toggleMute, Sound.setMute. cbv zeta. sound_fields.
  destruct (negb muted); [destruct g|];
    constructor; sound_fields; try assumption; try reflexivity.
  rewrite playing_app. cbn [fold_left]. exact Hp.
Qed.

(** [startGame] on any page: a running engine is stopped before the new
    one starts; on a muted page the old one, if any, stays. *)
Lemma SoundInv_startGame (p : Page) (now : Q) :
  SoundInv p ->
  SoundInv (mkPage (startGame now (game p)) (isMuted p)
                   (Sound.startEngine (Sound.init (sounds p)))).
Proof.
  intros [Hm Hp Hph Hc Hg Hcr].
  destruct p as [s muted [c o g mu cr os]]. sound_fields.
  unfold Sound.startEngine, Sound.init, Sound.stopEngine.
  destruct c, mu, o as [n|];
    cbn [negb orb Sound.ctx Sound.isMuted Sound.engineOsc]; cbv zeta;
    cbn [Sound.ctx Sound.isMuted Sound.engineOsc Sound.engineGain
         Sound.created Sound.out];
    try (exfalso; assert (false = true) as Hf
           by (apply Hc; discriminate); discriminate Hf);
    constructor; sound_fields;
    rewrite ?playing_app; cbn [fold_left]; rewrite ?Hp;
    cbn [filter]; rewrite ?Nat.eqb_refl; cbn [negb List.app];
    try assumption; try reflexivity; try congruence.
  all: try (intros m Hm'; injection Hm' as <-; lia).
  all: try (intros m Hm'; specialize (Hcr m Hm'); lia).
Qed.

Lemma SoundInv_updateEngine (p : Page) (v : Q) :
  SoundInv p ->
  SoundInv (mkPage (game p) (isMuted p) (Sound.updateEngine v (sounds p))).
Proof.
  intros [Hm Hp Hph Hc Hg Hcr].
  destruct p as [s muted [c o g mu cr os]]. sound_fields.
  unfold Sound.updateEngine. sound_fields.
  destruct (negb c); [constructor; assumption|].
  destruct o as [n|]; [|constructor; assumption].
  destruct mu; [constructor; assumption|].
  constructor; sound_fields; try assumption.
  rewrite playing_app. cbn [fold_left]. exact Hp.
Qed.

Lemma SoundInv_gameOver (p : Page) (s' : AppState) :
  SoundInv p ->
  SoundInv (mkPage s' (isMuted p)
                   (Sound.playCollision (Sound.stopEngine (sounds p)))).
Proof.
  intros [Hm Hp Hph Hc Hg Hcr].
  destruct p as [s muted [c o g mu cr os]]. sound_fields.
  unfold Sound.playCollision, Sound.stopEngine. sound_fields.
  destruct o as [n|]; sound_fields;
    destruct (negb c || mu);
    constructor; sound_fields;
    rewrite ?playing_app; cbn [fold_left]; rewrite ?Hp;
    cbn [filter]; rewrite ?Nat.eqb_refl; cbn [negb];
    try assumption; try reflexivity; try congruence.
Qed.

Lemma SoundInv_gameLoop (p : Page) (time : Q) (rnd : nat -> Q) :
  SoundInv p ->
  SoundInv (mkPage (gameLoop time rnd (game p)) (isMuted p)
                   (gameLoopSounds rnd (game p) (sounds p))).
Proof.
  intros HI.
  unfold gameLoopSounds.
  destruct (gameStateRef (game p)) eqn:Hrun;
    try (rewrite gameLoop_idle by congruence;
         cbn [isPlaying negb];
         apply SoundInv_same; [exact HI | reflexivity]).
  cbn [isPlaying negb]. cbv zeta.
  pose proof (gameLoop_phase time rnd (game p) Hrun) as Hphase.
  pose proof (SoundInv_updateEngine p (currentSpeed (game p)) HI) as H1.
  destruct (existsb (collides (playerRef (game p)))
              (fst (spawnObstacles (selectedTrackRef (game p))
                      (keptObstacles (game p)) rnd O))).
  - exact (SoundInv_gameOver _ (gameLoop time rnd (game p)) H1).
  - apply (SoundInv_same _ (gameLoop time rnd (game p)) H1).
    cbn [game]. rewrite Hphase. symmetry. exact Hrun.
Qed.

Lemma SoundInv_initial (saved : option Z) : SoundInv (initialPage saved).
Proof.
  constructor; cbn; try reflexivity; try congruence.
Qed.

Lemma SoundInv_call (c : Call) (p : Page) : SoundInv p -> SoundInv (call c p).
Proof.
  intros HI. destruct c; cbn [call].
  - apply SoundInv_startGame. exact HI.
  - apply SoundInv_gameLoop. exact HI.
  - apply SoundInv_same; [exact HI|].
    unfold handleKeyDown. destruct (negb _); [reflexivity|].
    destruct key; reflexivity.
  - apply SoundInv_playClick; [exact HI | reflexivity].
  - apply SoundInv_playClick; [exact HI | reflexivity].
  - apply SoundInv_playClick; [exact HI | reflexivity].
  - apply SoundInv_playClick; [exact HI | reflexivity].
  - apply SoundInv_toggleMute. exact HI.
Qed.

Lemma called_SoundInv (p : Page) : called p -> SoundInv p.
Proof.
  induction 1 as [saved | c p _ IH].
  - apply SoundInv_initial.
  - apply SoundInv_call. exact IH.
Qed.

Lemma garageDuringPlay_called : called garageDuringPlay.
Proof. unfold garageDuringPlay. apply called_calls, called_init. Qed.

(** X1.  The screen and the loop.  [startGame] and [gameOver] write the
    React state [gameState], which the key handler tests, together with
    the ref [gameStateRef], which the loop tests; the garage and back
    handlers write the React state alone.  So on every page that calls
    of the handlers produce, on whatever screen they are made, a screen
    that says running or over has the ref say the same, a ref still at
    ['START'] has the menu or the garage on the screen, and where the
    loop is idle the keys are ignored.  The converse fails: the garage
    opened during a session leaves the loop running under it, with the
    keys ignored. *)
Theorem screen_follows_loop (p : Page) :
  called p ->
  let s := game p in
  (gameState s = PLAYING -> gameStateRef s = PLAYING) /\
  (gameState s = GAMEOVER -> gameStateRef s = GAMEOVER) /\
  (gameStateRef s = START -> gameState s = START \/ gameState s = GARAGE) /\
  gameStateRef s <> GARAGE /\
  (forall key time rnd,
      gameStateRef s <> PLAYING ->
      handleKeyDown key s = s /\ gameLoop time rnd s = s) /\
  (forall key, handleKeyDown key s <> s -> gameStateRef s = PLAYING) /\
  (gameState s = PLAYING ->
   handleKeyDown ArrowLeft s = movePlayer (-1) s /\
   handleKeyDown ArrowRight s = movePlayer 1 s) /\
  (gameState s = GARAGE ->
   forall key, handleKeyDown key s = s).
Proof.
  intros Hcalled. cbv zeta.
  pose proof (called_phase p Hcalled) as Hok.
  destruct Hok as (Hplay & Hover & Hstart & Hgarage).
  assert (forall key,
             gameState (game p) <> PLAYING ->
             handleKeyDown key (game p) = game p) as Hkey.
  { intros key Hno. unfold handleKeyDown.
    destruct (isPlaying (gameState (game p))) eqn:E; [|reflexivity].
    apply isPlaying_true in E. contradiction. }
  repeat (split; [assumption|]).
  split; [|split; [|split]].
  - intros key time rnd Hidle.
    split; [|apply gameLoop_idle; exact Hidle].
    apply Hkey. intros Hs. apply Hidle, Hplay, Hs.
  - intros key Hmoved. apply Hplay.
    destruct (gameState (game p)) eqn:E; try reflexivity;
      exfalso; apply Hmoved; apply Hkey; congruence.
  - intros Hrun. unfold handleKeyDown. rewrite Hrun. split; reflexivity.
  - intros Hg key. apply Hkey. congruence.
Qed.

Lemma screen_follows_loop_witness :
  called garageDuringPlay /\
  gameState (game garageDuringPlay) = GARAGE /\
  gameStateRef (game garageDuringPlay) = PLAYING /\
  handleKeyDown ArrowLeft (game garageDuringPlay) = game garageDuringPlay /\
  gameLoop 16 (draws 0.1) (game garageDuringPlay) <> game garageDuringPlay.
Proof.
  pose proof (screen_follows_loop garageDuringPlay garageDuringPlay_called)
    as H.
  cbv zeta in H. destruct H as (_ & _ & _ & _ & _ & _ & _ & H).
  split; [exact garageDuringPlay_called|].
  split; [reflexivity|]. split; [reflexivity|].
  split; [exact (H eq_refl ArrowLeft)|].
  intros Heq. apply (f_equal scoreRef) in Heq.
  vm_compute in Heq. discriminate Heq.
Defined.

Lemma muted_sounds (c : Call) (p : Page) :
  Sound.isMuted (sounds p) = true ->
  match c with callToggleMute => False | _ => True end ->
  exists extra,
    Sound.out (sounds (call c p)) = Sound.out (sounds p) ++ extra /\
    Forall (fun o => Sound.audible o = false) extra /\
    Forall (fun o => o = Sound.newContext \/ exists n, o = Sound.engineStop n)
           extra.
Proof.
  intros Hmute Hc. destruct p as [s muted m]. sound_fields.
  assert (Sound.playClick m = m) as Hclick.
  { unfold Sound.playClick. rewrite Hmute, orb_true_r. reflexivity. }
  assert (exists extra,
             Sound.out m = Sound.out m ++ extra /\
             Forall (fun o => Sound.audible o = false) extra /\
             Forall (fun o => o = Sound.newContext \/
                              exists n, o = Sound.engineStop n) extra)
    as Hsame.
  { exists []. rewrite app_nil_r.
    split; [reflexivity | split; constructor]. }
  destruct c; cbn [call sounds game]; rewrite ?Hclick;
    try exact Hsame; try contradiction.
  - destruct m as [c o g mu cr os]. cbn in Hmute. subst mu.
    unfold Sound.startEngine, Sound.init.
    destruct c; cbn [negb Sound.ctx Sound.isMuted orb Sound.out].
    + exact Hsame.
    + exists [Sound.newContext]. split; [reflexivity|].
      split; (constructor; [|constructor]); [reflexivity | left; reflexivity].
  - unfold gameLoopSounds.
    destruct (negb (isPlaying (gameStateRef s))); [exact Hsame|].
    cbv zeta.
    assert (Sound.updateEngine (currentSpeed s) m = m) as ->.
    { unfold Sound.updateEngine. rewrite Hmute.
      destruct (negb (Sound.ctx m)), (Sound.engineOsc m); reflexivity. }
    destruct (existsb _ _); [|exact Hsame].
    destruct m as [c o g mu cr os]. cbn in Hmute. subst mu.
    unfold Sound.playCollision, Sound.stopEngine.
    destruct o as [n|];
      cbn [Sound.engineOsc Sound.ctx Sound.isMuted Sound.out];
      rewrite orb_true_r; cbn [Sound.out].
    + exists [Sound.engineStop n]. split; [reflexivity|].
      split; (constructor; [|constructor]); [reflexivity | right; eauto].
    + exists []. rewrite app_nil_r.
      split; [reflexivity | split; constructor].
Qed.

(** X16.  The engine sounds only while the loop runs.  On every page
    that calls of the handlers produce, on whatever screen they are
    made, the engine oscillators that were started and not stopped are
    exactly the one the manager holds in [engineOsc], so at most one,
    and there is none unless [gameStateRef] says running: none before
    the first start and none after a crash.  The screen is no guide: the
    engine runs on behind a garage opened during the session. *)
Theorem engine_only_while_playing (p : Page) :
  called p ->
  Sound.playing (Sound.out (sounds p))
    = match Sound.engineOsc (sounds p) with Some n => [n] | None => [] end /\
  (length (Sound.playing (Sound.out (sounds p))) <= 1)%nat /\
  (gameStateRef (game p) <> PLAYING ->
   Sound.engineOsc (sounds p) = None /\
   Sound.playing (Sound.out (sounds p)) = []) /\
  (gameState (game p) = GAMEOVER ->
   Sound.playing (Sound.out (sounds p)) = []).
Proof.
  intros Hcalled.
  pose proof (called_SoundInv p Hcalled) as [Hm Hp Hph Hc Hg Hcr].
  assert (gameStateRef (game p) <> PLAYING ->
          Sound.engineOsc (sounds p) = None /\
          Sound.playing (Sound.out (sounds p)) = []) as Hidle.
  { intros Hidle.
    assert (Sound.engineOsc (sounds p) = None) as Hnone.
    { destruct (Sound.engineOsc (sounds p)); [|reflexivity].
      exfalso. apply Hidle. apply Hph. discriminate. }
    split; [exact Hnone|]. rewrite Hp, Hnone. reflexivity. }
  split; [exact Hp|]. split; [|split; [exact Hidle|]].
  - rewrite Hp. destruct (Sound.engineOsc (sounds p)); cbn; lia.
  - intros Hover. apply Hidle.
    destruct (called_phase p Hcalled) as (_ & Hsame & _).
    rewrite (Hsame Hover). discriminate.
Qed.

Lemma engine_only_while_playing_witness :
  called garageDuringPlay /\
  gameState (game garageDuringPlay) = GARAGE /\
  Sound.playing (Sound.out (sounds garageDuringPlay)) = [O].
Proof.
  split; [exact garageDuringPlay_called|]. split; [reflexivity|].
  exact (proj1 (engine_only_while_playing _ garageDuringPlay_called)).
Defined.

(** X17.  While the page is muted no call starts or changes a sound:
    whatever is called, on whatever screen, the only things sent to the
    audio context are the creation of the context and the stop of the
    engine.  Muting the page sends the gain of the running engine to 0,
    and the manager's flag follows the page's. *)
Theorem muted_is_silent (p : Page) (c : Call) :
  called p ->
  Sound.isMuted (sounds p) = isMuted p /\
  (isMuted p = true ->
   match c with callToggleMute => False | _ => True end ->
   exists extra,
     Sound.out (sounds (call c p)) = Sound.out (sounds p) ++ extra /\
     Forall (fun o => Sound.audible o = false) extra /\
     Forall (fun o => o = Sound.newContext \/ exists n, o = Sound.engineStop n)
            extra) /\
  (isMuted p = false ->
   isMuted (call callToggleMute p) = true /\
   forall n,
     Sound.engineOsc (sounds p) = Some n ->
     Sound.gainTarget n (Sound.out (sounds (call callToggleMute p)))
       = Some 0).
Proof.
  intros Hcalled.
  pose proof (called_SoundInv p Hcalled) as [Hm Hp Hph Hc Hg Hcr].
  split; [exact Hm|]. split.
  - intros Hmute Hgame.
    apply muted_sounds; [rewrite Hm; exact Hmute | exact Hgame].
  - intros Hloud. cbn [call]. unfold toggleMute. rewrite Hloud.
    cbn [negb isMuted sounds]. split; [reflexivity|].
    intros n Hn. specialize (Hg n Hn).
    unfold Sound.setMute. cbv zeta. cbn [Sound.engineGain]. rewrite Hg.
    cbn [Sound.emit Sound.out]. rewrite gainTarget_app. cbn [fold_left].
    rewrite Nat.eqb_refl. reflexivity.
Qed.

Lemma muted_is_silent_witness :
  called (calls [callStartGame 0; callToggleMute] (initialPage None)) /\
  isMuted (calls [callStartGame 0; callToggleMute] (initialPage None))
    = true /\
  exists extra,
    Sound.out (sounds (call callGarageClick
                         (calls [callStartGame 0; callToggleMute]
                            (initialPage None))))
      = Sound.out (sounds (calls [callStartGame 0; callToggleMute]
                             (initialPage None))) ++ extra /\
    Forall (fun o => Sound.audible o = false) extra.
Proof.
  assert (called (calls [callStartGame 0; callToggleMute] (initialPage None)))
    as Hcalled
    by (apply called_calls; apply called_init).
  split; [exact Hcalled|]. split; [reflexivity|].
  pose proof (muted_is_silent _ callGarageClick Hcalled) as H.
  destruct H as (_ & H & _).
  destruct (H eq_refl I) as (extra & Hout & Hquiet & _).
  exists extra. split; assumption.
Defined.

Lemma call_noStart (c : Call) (p : Page) :
  match c with callStartGame _ => False | _ => True end ->
  exists extra,
    Sound.out (sounds (call c p)) = Sound.out (sounds p) ++ extra /\
    Forall (fun o => match o with Sound.engineStart _ => False | _ => True end)
           extra /\
    (Sound.engineOsc (sounds p) = None ->
     Sound.engineOsc (sounds (call c p)) = None /\
     Forall (fun o => match o with Sound.engineStop _ => False | _ => True end)
            extra).
Proof.
  intros Hc. destruct p as [s muted m]. cbn [sounds].
  assert (exists extra,
             Sound.out m = Sound.out m ++ extra /\
             Forall (fun o => match o with
                              | Sound.engineStart _ => False | _ => True end)
                    extra /\
             (Sound.engineOsc m = None ->
              Sound.engineOsc m = None /\
              Forall (fun o => match o with
                               | Sound.engineStop _ => False | _ => True end)
                     extra)) as Hsame.
  { exists []. rewrite app_nil_r.
    split; [reflexivity|]. split; [constructor|].
    intros H. split; [exact H | constructor]. }
  assert (exists extra,
             Sound.out (Sound.playClick m) = Sound.out m ++ extra /\
             Forall (fun o => match o with
                              | Sound.engineStart _ => False | _ => True end)
                    extra /\
             (Sound.engineOsc m = None ->
              Sound.engineOsc (Sound.playClick m) = None /\
              Forall (fun o => match o with
                               | Sound.engineStop _ => False | _ => True end)
                     extra)) as Hclick.
  { unfold Sound.playClick.
    destruct (negb (Sound.ctx m) || Sound.isMuted m); [exact Hsame|].
    exists [Sound.click]. cbn [Sound.emit Sound.out Sound.engineOsc].
    split; [reflexivity|]. split; [constructor; [exact I | constructor]|].
    intros H. split; [exact H | constructor; [exact I | constructor]]. }
  destruct c; cbn [call sounds game]; try contradiction;
    try exact Hclick; try exact Hsame.
  - unfold gameLoopSounds.
    destruct (negb (isPlaying (gameStateRef s))); [exact Hsame|].
    cbv zeta. destruct m as [c o g mu cr os].
    unfold Sound.updateEngine, Sound.playCollision, Sound.stopEngine.
    cbn [Sound.ctx Sound.engineOsc Sound.isMuted Sound.out].
    destruct (existsb _ _), c, o as [n|], mu;
      cbn [negb orb Sound.emit Sound.ctx Sound.engineOsc Sound.isMuted
           Sound.out Sound.engineGain Sound.created];
      rewrite <- ?app_assoc; cbn [List.app];
      try (exists []; rewrite app_nil_r; split; [reflexivity|];
           split; [constructor|]; intros H;
           first [discriminate | split; [reflexivity | constructor]]);
      try (eexists; split; [reflexivity|];
           split; [repeat constructor|]; intros H;
           first [discriminate
                 | split; [reflexivity | repeat constructor]]).
  - unfold toggleMute, Sound.setMute. cbv zeta.
    cbn [sounds isMuted Sound.engineGain].
    destruct m as [c o g mu cr os].
    cbn [Sound.ctx Sound.engineOsc Sound.isMuted Sound.out
         Sound.engineGain Sound.created].
    destruct (negb muted); [destruct g as [n|]|];
      cbn [Sound.emit Sound.ctx Sound.engineOsc Sound.isMuted Sound.out
           Sound.engineGain Sound.created];
      try (exists []; rewrite app_nil_r; split; [reflexivity|];
           split; [constructor|]; intros H; split;
           [exact H | constructor]).
    exists [Sound.engineMute n]. split; [reflexivity|].
    split; [repeat constructor|].
    intros H; split; [exact H | repeat constructor].
Qed.

Lemma gainTarget_noStart (n : nat) (os extra : list Sound.Out) :
  Forall (fun o => match o with Sound.engineStart _ => False | _ => True end)
         extra ->
  Sound.gainTarget n os = Some 0 ->
  Sound.gainTarget n (os ++ extra) = Some 0.
Proof.
  intros Hno Hg. rewrite gainTarget_app. rewrite Hg. clear Hg.
  induction Hno as [|o extra Ho _ IH]; [reflexivity|].
  cbn [fold_left].
  destruct o; try exact IH; try contradiction.
  destruct (node =? n)%nat; exact IH.
Qed.

Lemma playing_noEngine (os extra : list Sound.Out) :
  Forall (fun o => match o with Sound.engineStart _ => False | _ => True end)
         extra ->
  Forall (fun o => match o with Sound.engineStop _ => False | _ => True end)
         extra ->
  Sound.playing (os ++ extra) = Sound.playing os.
Proof.
  intros Hno Hno'. rewrite playing_app.
  generalize (Sound.playing os) as live.
  induction Hno as [|o extra Ho _ IH]; intros live; [reflexivity|].
  inversion Hno' as [|? ? Ho' Hrest]; subst.
  cbn [fold_left]. destruct o; try contradiction; apply IH; exact Hrest.
Qed.

(** X18.  Only a new start gives the engine its sound back.  Along any
    calls without [startGame], on whatever screen, an engine whose gain
    was sent to 0 keeps that target, also when the page is un-muted; and
    a manager that holds no engine, as after a start on a muted page,
    gets none: no engine is started or stopped. *)
Theorem engine_needs_new_start (p : Page) (cs : list Call) :
  noStart cs = true ->
  (forall n,
      Sound.gainTarget n (Sound.out (sounds p)) = Some 0 ->
      Sound.gainTarget n (Sound.out (sounds (calls cs p))) = Some 0) /\
  (Sound.engineOsc (sounds p) = None ->
   Sound.engineOsc (sounds (calls cs p)) = None /\
   Sound.playing (Sound.out (sounds (calls cs p)))
     = Sound.playing (Sound.out (sounds p))).
Proof.
  revert p. induction cs as [|c cs IH]; intros p Hcs.
  - cbn. auto.
  - change (calls (c :: cs) p) with (calls cs (call c p)).
    cbn [noStart forallb] in Hcs. apply andb_true_iff in Hcs.
    destruct Hcs as [Hc Hcs].
    destruct (IH (call c p) Hcs) as [IHg IHo].
    assert (match c with callStartGame _ => False | _ => True end) as Hc'.
    { destruct c; try exact I. discriminate. }
    destruct (call_noStart c p Hc') as (extra & Hout & Hno & Hosc).
    split.
    + intros n Hn. apply IHg. rewrite Hout.
      apply gainTarget_noStart; assumption.
    + intros Hnone. destruct (Hosc Hnone) as [Hnone' Hno'].
      destruct (IHo Hnone') as [Hfinal Hplay].
      split; [exact Hfinal|].
      rewrite Hplay, Hout. apply playing_noEngine; assumption.
Qed.

Lemma engine_needs_new_start_witness :
  noStart [callToggleMute; callGameLoop 0 (draws 0.1)] = true /\
  isMuted (calls [callToggleMute; callGameLoop 0 (draws 0.1)]
             (calls [callStartGame 0; callToggleMute] (initialPage None)))
    = false /\
  Sound.gainTarget 0
    (Sound.out
       (sounds (calls [callToggleMute; callGameLoop 0 (draws 0.1)]
                  (calls [callStartGame 0; callToggleMute]
                     (initialPage None)))))
    = Some 0.
Proof.
  split; [reflexivity|]. split; [reflexivity|].
  pose proof (engine_needs_new_start
                (calls [callStartGame 0; callToggleMute] (initialPage None))
                [callToggleMute; callGameLoop 0 (draws 0.1)] eq_refl) as H.
  destruct H as [H _]. exact (H O eq_refl).
Defined.
